(** * 3D particle system: the editor (main.js) and the embeddable
      renderer (particle-renderer.js)

    A shallow embedding of the transform-and-morph engine.  In the
    modules [Editor] and [Renderer] JavaScript numbers are read as real
    numbers: a statement about positions, angles and opacities made
    there is a statement over [R], not about IEEE doubles (no NaN, no
    rounding of arithmetic).  Where a property turns on the rounding of
    the morph interpolation, the morph step is embedded again with
    every operation rounded ([Double]), and run on machine doubles
    ([Binary64]).  Values that can be absent or of any JSON type (parsed
    import payloads, frame points) are kept as [JS.value]. *)

From Stdlib Require Import Reals Lra Lia ZArith String List Bool Arith.
From Stdlib Require Import Permutation DecimalString Sorted.
From Stdlib Require PrimFloat.
Import ListNotations.
Open Scope R_scope.
Set Warnings "-register-all".
Set Warnings "-inexact-float".

(* ================================================================== *)
(** ** JavaScript values, property access, [||], [??], exceptions     *)
(* ================================================================== *)

Module JS.

(** What [JSON.parse] can produce, plus [undefined].  An object is
    given by its properties; where a key is listed twice the first entry
    is the property. *)
Inductive value : Type :=
| VUndef : value
| VNull : value
| VBool : bool -> value
| VNum : R -> value
| VStr : string -> value
| VArr : list value -> value
| VObj : list (string * value) -> value.

(** The ways an operation of the program can end.  [TypeError] is the
    JavaScript exception raised by a property read on [undefined] or
    [null] (or by calling a missing method).  [Unmodelled] marks a run
    that feeds a non-number into arithmetic: JavaScript goes on with
    [NaN] or a coerced value, which the embedding does not represent. *)
Inductive Result (A : Type) : Type :=
| Ok : A -> Result A
| TypeError : Result A
| Unmodelled : Result A.
Arguments Ok {A} _.
Arguments TypeError {A}.
Arguments Unmodelled {A}.

Definition bind {A B} (m : Result A) (f : A -> Result B) : Result B :=
  match m with
  | Ok a => f a
  | TypeError => TypeError
  | Unmodelled => Unmodelled
  end.

Fixpoint mapM {A B} (f : A -> Result B) (l : list A) : Result (list B) :=
  match l with
  | [] => Ok []
  | a :: l' =>
      bind (f a) (fun b => bind (mapM f l') (fun bs => Ok (b :: bs)))
  end.

(** ToBoolean. *)
Definition truthy (v : value) : bool :=
  match v with
  | VUndef | VNull => false
  | VBool b => b
  | VNum r => if Req_EM_T r 0 then false else true
  | VStr s => negb (String.eqb s EmptyString)
  | VArr _ | VObj _ => true
  end.

(** [a || b] and [a ?? b]. *)
Definition or_else (a b : value) : value := if truthy a then a else b.

Definition nullish (v : value) : bool :=
  match v with VUndef | VNull => true | _ => false end.

Definition coalesce (a b : value) : value := if nullish a then b else a.

Definition is_undefined (v : value) : bool :=
  match v with VUndef => true | _ => false end.

Fixpoint lookup (k : string) (fields : list (string * value)) : option value :=
  match fields with
  | [] => None
  | (k', v) :: rest => if String.eqb k k' then Some v else lookup k rest
  end.

(** [o.k] for the property names the program reads ([version], [frame],
    [frames], [name], [points], [x], [y], ...): none of them is a
    built-in property of a string, number, boolean or array. *)
Definition get (o : value) (k : string) : Result value :=
  match o with
  | VUndef | VNull => TypeError
  | VObj fields =>
      match lookup k fields with Some v => Ok v | None => Ok VUndef end
  | _ => Ok VUndef
  end.

Definition isArray (v : value) : bool :=
  match v with VArr _ => true | _ => false end.

(** A value used where the program does arithmetic. *)
Definition as_num (v : value) : Result R :=
  match v with VNum r => Ok r | _ => Unmodelled end.

(** [a[i]] on an array: [undefined] (here [None]) out of range. *)
Definition at_index {A} (l : list A) (i : Z) : option A :=
  if (i <? 0)%Z then None else nth_error l (Z.to_nat i).

Definition floor (x : R) : Z := Zfloor x.

(** [Math.round]: the nearest integer, halves rounded up. *)
Definition round (x : R) : Z := Zfloor (x + / 2).

(** Decimal rendering of an array length inside a string. *)
Definition nat_to_string (n : nat) : string :=
  NilEmpty.string_of_uint (Nat.to_uint n).

End JS.

Notation "x <- m ;; k" := (JS.bind m (fun x => k))
  (at level 61, m at next level, right associativity).

(** A number that is a whole number, as a colour channel is. *)
Definition integral (x : R) : Prop := exists n : Z, x = IZR n.

(* ================================================================== *)
(** ** The rotation shared by [Particle.update] and [_animate]        *)
(* ================================================================== *)

Module Transform.

Record vec3 := mkVec { vX : R; vY : R; vZ : R }.

(** [if (angleX !== 0) { y1 = ...; z1 = ...; y = y1; z = z1 }] *)
Definition rotX (a : R) (v : vec3) : vec3 :=
  if Req_EM_T a 0 then v
  else mkVec (vX v)
             (vY v * cos a - vZ v * sin a)
             (vY v * sin a + vZ v * cos a).

Definition rotY (a : R) (v : vec3) : vec3 :=
  if Req_EM_T a 0 then v
  else mkVec (vX v * cos a + vZ v * sin a)
             (vY v)
             (- vX v * sin a + vZ v * cos a).

Definition rotZ (a : R) (v : vec3) : vec3 :=
  if Req_EM_T a 0 then v
  else mkVec (vX v * cos a - vY v * sin a)
             (vX v * sin a + vY v * cos a)
             (vZ v).

(** Lines 311-357 of main.js and 316-341 of particle-renderer.js:
    subtract the centre from x and y, rotate about X, then Y, then Z,
    add the centre back to x and y; z is kept as rotated. *)
Definition transform (cx cy : R) (ax ay az : R) (base : vec3) : vec3 :=
  let v0 := mkVec (vX base - cx) (vY base - cy) (vZ base) in
  let v3 := rotZ az (rotY ay (rotX ax v0)) in
  mkVec (vX v3 + cx) (vY v3 + cy) (vZ v3).

(** The transform, seen from the rotation centre. *)
Definition recentre (cx cy : R) (v : vec3) : vec3 :=
  mkVec (vX v - cx) (vY v - cy) (vZ v).

Definition uncentre (cx cy : R) (v : vec3) : vec3 :=
  mkVec (vX v + cx) (vY v + cy) (vZ v).

End Transform.

(* ================================================================== *)
(** ** The editor: main.js                                            *)
(* ================================================================== *)

Module Editor.

(** *** Particle (main.js, class Particle) *)

(** The display fields ([displaySize], [displayOpacity], [displayR/G/B],
    [screenX/Y]) are written by [draw] only and read by nothing modelled
    here; they are left out of the record. *)
Record Particle := mkParticle {
  x : R; y : R;
  vx : R; vy : R;
  layer : R;
  targetX : option R; targetY : option R;
  baseX : R; baseY : R; baseZ : R;
  currentZ : R;
  hasTarget : bool;
  sourceR : R; sourceG : R; sourceB : R;
  morphTargetX : R; morphTargetY : R; morphTargetZ : R;
  morphTargetR : R; morphTargetG : R; morphTargetB : R;
  morphStartX : R; morphStartY : R; morphStartZ : R;
  morphStartR : R; morphStartG : R; morphStartB : R;
  markedForRemoval : bool
}.

(** A saved frame point, [{targetX, targetY, baseZ, r, g, b}].  Imported
    points keep whatever the file held, so the fields are values. *)
Record FramePoint := mkFramePoint {
  pt_targetX : JS.value; pt_targetY : JS.value; pt_baseZ : JS.value;
  pt_r : JS.value; pt_g : JS.value; pt_b : JS.value
}.

Record Frame := mkFrame {
  name : JS.value;
  points : list FramePoint;
  pointCount : nat
}.

(** What the per-tick code reads from the page and the globals it does
    not write: canvas size, rotation centre, the sliders ([speed], and
    [rotX], [rotY], [rotZ] in degrees), the animation switch, the static
    angles, the morph speed and the depth-fog checkbox. *)
Record Env := mkEnv {
  canvas_width : R; canvas_height : R;
  rotationCenterX : R; rotationCenterY : R;
  speed : R;
  rotX_slider : R; rotY_slider : R; rotZ_slider : R;
  animationEnabled : bool;
  staticRotX : R; staticRotY : R; staticRotZ : R;
  morphSpeed : R
}.

(** The globals the morph controller and the render loop write.  [rng]
    counts the calls to [Math.random] made so far. *)
Record State := mkState {
  animTime : nat;
  particles : list Particle;
  frames : list Frame;
  currentFrameIndex : Z;
  isMorphing : bool;
  morphProgress : R;
  rng : nat
}.

(** [a || b] on an argument that is a number or missing. *)
Definition num_or (a : option R) (b : R) : R :=
  match a with
  | Some v => if Req_EM_T v 0 then b else v
  | None => b
  end.

Definition falsy (a : option R) : bool :=
  match a with
  | Some v => if Req_EM_T v 0 then true else false
  | None => true
  end.

Definition is_some {A} (o : option A) : bool :=
  match o with Some _ => true | None => false end.

(** Cubic ease-in-out,
    [t < 0.5 ? 4*t*t*t : 1 - Math.pow(-2*t + 2, 3) / 2]. *)
Definition ease (t : R) : R :=
  if Rlt_dec t 0.5 then 4 * t * t * t else 1 - (-2 * t + 2) ^ 3 / 2.

Definition lerp (a b t : R) : R := a + (b - a) * t.

(** [updateMorph(progress)], lines 240-254. *)
Definition updateMorph (progress : R) (p : Particle) : Particle :=
  let t := ease progress in
  mkParticle (x p) (y p) (vx p) (vy p) (layer p) (targetX p) (targetY p)
    (lerp (morphStartX p) (morphTargetX p) t)
    (lerp (morphStartY p) (morphTargetY p) t)
    (lerp (morphStartZ p) (morphTargetZ p) t)
    (currentZ p) (hasTarget p)
    (IZR (JS.round (lerp (morphStartR p) (morphTargetR p) t)))
    (IZR (JS.round (lerp (morphStartG p) (morphTargetG p) t)))
    (IZR (JS.round (lerp (morphStartB p) (morphTargetB p) t)))
    (morphTargetX p) (morphTargetY p) (morphTargetZ p)
    (morphTargetR p) (morphTargetG p) (morphTargetB p)
    (morphStartX p) (morphStartY p) (morphStartZ p)
    (morphStartR p) (morphStartG p) (morphStartB p)
    (markedForRemoval p).

(** [point.r !== undefined ? point.r : d] *)
Definition defined_or (v : JS.value) (d : R) : JS.value :=
  if JS.is_undefined v then JS.VNum d else v.

(** [setMorphTarget(point)], lines 258-274.  [None] is the [undefined]
    that an out-of-range [targetPoints[i]] yields: reading [.targetX]
    from it throws. *)
Definition setMorphTarget (point : option FramePoint) (p : Particle)
  : JS.Result Particle :=
  match point with
  | None => JS.TypeError
  | Some pt =>
      tx <- JS.as_num (pt_targetX pt) ;;
      ty <- JS.as_num (pt_targetY pt) ;;
      tz <- JS.as_num (JS.or_else (pt_baseZ pt) (JS.VNum 0)) ;;
      tr <- JS.as_num (defined_or (pt_r pt) 74) ;;
      tg <- JS.as_num (defined_or (pt_g pt) 222) ;;
      tb <- JS.as_num (defined_or (pt_b pt) 128) ;;
      JS.Ok (mkParticle (x p) (y p) (vx p) (vy p) (layer p)
               (targetX p) (targetY p)
               (baseX p) (baseY p) (baseZ p) (currentZ p) (hasTarget p)
               (sourceR p) (sourceG p) (sourceB p)
               tx ty tz tr tg tb
               (baseX p) (baseY p) (baseZ p)
               (sourceR p) (sourceG p) (sourceB p)
               (markedForRemoval p))
  end.

Definition set_marked (m : bool) (p : Particle) : Particle :=
  mkParticle (x p) (y p) (vx p) (vy p) (layer p) (targetX p) (targetY p)
    (baseX p) (baseY p) (baseZ p) (currentZ p) (hasTarget p)
    (sourceR p) (sourceG p) (sourceB p)
    (morphTargetX p) (morphTargetY p) (morphTargetZ p)
    (morphTargetR p) (morphTargetG p) (morphTargetB p)
    (morphStartX p) (morphStartY p) (morphStartZ p)
    (morphStartR p) (morphStartG p) (morphStartB p)
    m.

Definition set_source (cr cg cb : R) (p : Particle) : Particle :=
  mkParticle (x p) (y p) (vx p) (vy p) (layer p) (targetX p) (targetY p)
    (baseX p) (baseY p) (baseZ p) (currentZ p) (hasTarget p)
    cr cg cb
    (morphTargetX p) (morphTargetY p) (morphTargetZ p)
    (morphTargetR p) (morphTargetG p) (morphTargetB p)
    (morphStartX p) (morphStartY p) (morphStartZ p)
    (morphStartR p) (morphStartG p) (morphStartB p)
    (markedForRemoval p).

(** The three fields [update] writes. *)
Definition set_screen (nx ny nz : R) (nvx nvy : R) (p : Particle) : Particle :=
  mkParticle nx ny nvx nvy (layer p) (targetX p) (targetY p)
    (baseX p) (baseY p) (baseZ p) nz (hasTarget p)
    (sourceR p) (sourceG p) (sourceB p)
    (morphTargetX p) (morphTargetY p) (morphTargetZ p)
    (morphTargetR p) (morphTargetG p) (morphTargetB p)
    (morphStartX p) (morphStartY p) (morphStartZ p)
    (morphStartR p) (morphStartG p) (morphStartB p)
    (markedForRemoval p).

Definition deg (d : R) : R := d * PI / 180.

Definition is_zero (r : R) : bool := if Req_EM_T r 0 then true else false.

(** The angles of this tick: accumulated with time when the animation is
    on, the static ones otherwise (lines 316-328). *)
Definition angles (env : Env) (time : nat) : R * R * R :=
  if animationEnabled env then
    let t := INR time * speed env * 0.01 in
    (deg (rotX_slider env) * t, deg (rotY_slider env) * t,
     deg (rotZ_slider env) * t)
  else (staticRotX env, staticRotY env, staticRotZ env).

(** [update()], lines 278-358. *)
Definition update (env : Env) (time : nat) (p : Particle) : Particle :=
  let rotX := deg (rotX_slider env) in
  let rotY := deg (rotY_slider env) in
  let rotZ := deg (rotZ_slider env) in
  if is_zero rotX && is_zero rotY && is_zero rotZ then
    if hasTarget p then
      set_screen (baseX p) (baseY p) (baseZ p) (vx p) (vy p) p
    else
      let nx := x p + vx p * speed env in
      let ny := y p + vy p * speed env in
      let nvx :=
        if Rlt_dec nx 0 then vx p * -1
        else if Rgt_dec nx (canvas_width env) then vx p * -1 else vx p in
      let nvy :=
        if Rlt_dec ny 0 then vy p * -1
        else if Rgt_dec ny (canvas_height env) then vy p * -1 else vy p in
      set_screen nx ny (baseZ p) nvx nvy p
  else
    let '(angleX, angleY, angleZ) := angles env time in
    let v := Transform.transform (rotationCenterX env) (rotationCenterY env)
               angleX angleY angleZ
               (Transform.mkVec (baseX p) (baseY p) (baseZ p)) in
    set_screen (Transform.vX v) (Transform.vY v) (Transform.vZ v)
               (vx p) (vy p) p.

(** [draw(maxZ)]: the target opacity, lines 400-412.  The rest of [draw]
    smooths the display fields toward their targets and paints. *)
Definition targetOpacity (useDepthFog : bool) (maxZ : R) (p : Particle) : R :=
  let targetOpacity0 := Rmax 0.2 (1 - (layer p - 1) * 0.04) in
  if Rgt_dec maxZ 0 then
    if useDepthFog then
      let normalizedZ := (currentZ p + maxZ) / (2 * maxZ) in
      let easeZ := normalizedZ * normalizedZ in
      Rmax 0.05 (0.15 + easeZ * 0.85)
    else targetOpacity0
  else targetOpacity0.

(** [let maxZ = 1; for (...) { absZ = Math.abs(currentZ); if (absZ > maxZ)
    maxZ = absZ; }], lines 1705-1709. *)
Definition maxAbsZ (ps : list Particle) : R :=
  fold_left (fun maxZ p =>
               let absZ := Rabs (currentZ p) in
               if Rgt_dec absZ maxZ then absZ else maxZ) ps 1.

(** [particles.sort((a, b) => a.currentZ - b.currentZ)]: a stable sort by
    ascending depth. *)
Fixpoint insert_by_depth (p : Particle) (l : list Particle) : list Particle :=
  match l with
  | [] => [p]
  | q :: l' =>
      if Rle_dec (currentZ p) (currentZ q) then p :: q :: l'
      else q :: insert_by_depth p l'
  end.

Definition depth_sort (l : list Particle) : list Particle :=
  fold_right insert_by_depth [] l.

(** The backward [splice] loop of lines 1676-1680 keeps, in order, the
    particles that are not marked. *)
Definition purge (ps : list Particle) : list Particle :=
  filter (fun p => negb (markedForRemoval p)) ps.

(** One call of [animate], lines 1627-1740, without the painting and the
    frame-rate bookkeeping: advance the clock, advance the morph, update
    every particle, sort by depth. *)
Definition animate (env : Env) (s : State) : State :=
  let time := S (animTime s) in
  let '(ps, morphing, progress) :=
    if isMorphing s then
      let mp := morphProgress s + morphSpeed env in
      if Rge_dec mp 1 then
        (map (updateMorph 1) (purge (particles s)), false, 1)
      else
        (map (updateMorph mp) (particles s), true, mp)
    else (particles s, false, morphProgress s) in
  mkState time (depth_sort (map (update env time) ps))
    (frames s) (currentFrameIndex s) morphing progress (rng s).

Fixpoint ticks (env : Env) (n : nat) (s : State) : State :=
  match n with
  | O => s
  | S n' => ticks env n' (animate env s)
  end.

Section WithRandom.

(** The values [Math.random()] returns, in call order. *)
Variable random : nat -> R.

(** [new Particle(x, y, layer, targetX, targetY, baseZ)], lines 179-236.
    An argument is a number or missing ([None]: not passed, [undefined],
    or the [null] that [addParticles] passes for [x] and [y]).  The
    second component is the number of [Math.random] calls made so far. *)
Definition new_Particle (env : Env)
  (ax ay alayer atargetX atargetY abaseZ : option R) (k : nat)
  : Particle * nat :=
  let px := num_or ax (random k * canvas_width env) in
  let k1 := if falsy ax then S k else k in
  let py := num_or ay (random k1 * canvas_height env) in
  let k2 := if falsy ay then S k1 else k1 in
  let pvx := (random k2 - 0.5) * 2 in
  let pvy := (random (S k2) - 0.5) * 2 in
  let bX := num_or atargetX px in
  let bY := num_or atargetY py in
  let bZ := num_or abaseZ 0 in
  (mkParticle px py pvx pvy (num_or alayer 1) atargetX atargetY
     bX bY bZ bZ (is_some atargetX && is_some atargetY)
     74 222 128
     bX bY bZ 74 222 128
     bX bY bZ 74 222 128
     false,
   S (S k2)).

(** The [while (particles.length < targetCount)] loop of lines 583-597;
    [n] is the number of particles still to add. *)
Fixpoint spawn (env : Env) (existingCount : nat) (n : nat)
  (ps : list Particle) (k : nat) : JS.Result (list Particle * nat) :=
  match n with
  | O => JS.Ok (ps, k)
  | S n' =>
      match JS.at_index ps (JS.floor (random k * INR existingCount)) with
      | None => JS.TypeError
      | Some sourceParticle =>
          let '(p, k') :=
            new_Particle env
              (Some (baseX sourceParticle)) (Some (baseY sourceParticle))
              (Some 1)
              (Some (baseX sourceParticle)) (Some (baseY sourceParticle))
              (Some (baseZ sourceParticle)) (S k) in
          spawn env existingCount n'
            (ps ++ [set_source (sourceR sourceParticle)
                      (sourceG sourceParticle) (sourceB sourceParticle) p])
            k'
      end
  end.

(** The [for] loop of lines 600-611, from index [i] on. *)
Fixpoint setTargets (targetPoints : list FramePoint) (i : nat)
  (ps : list Particle) (k : nat) : JS.Result (list Particle * nat) :=
  match ps with
  | [] => JS.Ok ([], k)
  | p :: rest =>
      if (i <? length targetPoints)%nat then
        p' <- setMorphTarget (nth_error targetPoints i) p ;;
        r <- setTargets targetPoints (S i) rest k ;;
        JS.Ok (set_marked false p' :: fst r, snd r)
      else
        let mergeTarget :=
          JS.at_index targetPoints
            (JS.floor (random k * INR (length targetPoints))) in
        p' <- setMorphTarget mergeTarget p ;;
        r <- setTargets targetPoints (S i) rest (S k) ;;
        JS.Ok (set_marked true p' :: fst r, snd r)
  end.

(** [morphToFrame(targetIndex)], lines 566-620.  An exception leaves the
    globals as they were when it was raised; that partial state is not
    part of the result. *)
Definition morphToFrame (env : Env) (targetIndex : Z) (s : State)
  : JS.Result State :=
  if isMorphing s then JS.Ok s
  else if (targetIndex =? currentFrameIndex s)%Z then JS.Ok s
  else if ((targetIndex <? 0) ||
           (targetIndex >=? Z.of_nat (length (frames s))))%Z then JS.Ok s
  else
    match JS.at_index (frames s) targetIndex with
    | None => JS.TypeError
    | Some targetFrame =>
        let targetPoints := points targetFrame in
        let existingCount := length (particles s) in
        let targetCount := length targetPoints in
        let cleared := map (set_marked false) (particles s) in
        r1 <- spawn env existingCount (targetCount - existingCount)
                cleared (rng s) ;;
        r2 <- setTargets targetPoints 0 (fst r1) (snd r1) ;;
        JS.Ok (mkState (animTime s) (fst r2) (frames s) targetIndex
                 true 0 (snd r2))
    end.

End WithRandom.

(** *** Import (lines 701-761) *)

(** One element of [frameData.points.map(p => ({targetX: p.x, ...}))]. *)
Definition importPoint (p : JS.value) : JS.Result FramePoint :=
  px <- JS.get p "x" ;;
  py <- JS.get p "y" ;;
  pz <- JS.get p "z" ;;
  pr <- JS.get p "r" ;;
  pg <- JS.get p "g" ;;
  pb <- JS.get p "b" ;;
  JS.Ok (mkFramePoint px py (JS.or_else pz (JS.VNum 0)) pr pg pb).

(** [importSingleFrame(frameData)]: the frame store after the push.
    Calling [.map] on anything but an array throws. *)
Definition importSingleFrame (frameData : JS.value) (fs : list Frame)
  : JS.Result (list Frame) :=
  pts <- JS.get frameData "points" ;;
  match pts with
  | JS.VArr l =>
      pointsList <- JS.mapM importPoint l ;;
      nm <- JS.get frameData "name" ;;
      JS.Ok (fs ++
             [mkFrame
                (JS.or_else nm
                   (JS.VStr (String.append "Imported Frame "
                             (JS.nat_to_string (length fs + 1)))))
                pointsList (length pointsList)])
  | _ => JS.TypeError
  end.

(** How [handleFrameImport] ends: it reaches "Import complete", or it
    alerts and returns, or the [catch] alerts "Failed to import". *)
Inductive ImportOutcome :=
| ImportComplete
| InvalidFormat (message : string)
| ImportFailed.

(** [data.frames.forEach(frame => importSingleFrame(frame))] inside the
    [try]: frames pushed before an exception stay pushed. *)
Fixpoint importEach (l : list JS.value) (fs : list Frame)
  : list Frame * ImportOutcome :=
  match l with
  | [] => (fs, ImportComplete)
  | frame :: rest =>
      match importSingleFrame frame fs with
      | JS.Ok fs' => importEach rest fs'
      | _ => (fs, ImportFailed)
      end
  end.

(** The [reader.onload] body of [handleFrameImport], from the parsed
    [data] on: the new frame store and how the handler ended. *)
Definition handleFrameImport (data : JS.value) (fs : list Frame)
  : list Frame * ImportOutcome :=
  match JS.get data "version" with
  | JS.Ok version =>
      if negb (JS.truthy version) then
        (fs, InvalidFormat "Invalid file format: missing version")
      else
        match JS.get data "frame", JS.get data "frames" with
        | JS.Ok frame, JS.Ok framesV =>
            if JS.truthy frame then
              match importSingleFrame frame fs with
              | JS.Ok fs' => (fs', ImportComplete)
              | _ => (fs, ImportFailed)
              end
            else if JS.truthy framesV && JS.isArray framesV then
              match framesV with
              | JS.VArr l => importEach l fs
              | _ => (fs, ImportFailed)
              end
            else
              (fs, InvalidFormat "Invalid file format: no frame data found")
        | _, _ => (fs, ImportFailed)
        end
  | _ => (fs, ImportFailed)
  end.

(** [exportAllFrames]: what one stored point is written as (lines
    665-672). *)
Definition exportPoint (pt : FramePoint) : JS.value :=
  JS.VObj [("x", pt_targetX pt); ("y", pt_targetY pt);
           ("z", JS.or_else (pt_baseZ pt) (JS.VNum 0));
           ("r", defined_or (pt_r pt) 74);
           ("g", defined_or (pt_g pt) 222);
           ("b", defined_or (pt_b pt) 128)]%string.

(** *** Fill-mode sampling (processSampling, lines 1294-1426) *)

(** [tempCtx.getImageData(...)]: four bytes per pixel, row by row. *)
Record ImageData := mkImageData {
  width : Z; height : Z;
  data : list Z
}.

(** [data[index]] is [undefined] past the end of the array. *)
Record PixelColor := mkPixelColor {
  px_r : option Z; px_g : option Z; px_b : option Z; px_alpha : option Z
}.

Definition getPixelColor (img : ImageData) (px py : Z) : option PixelColor :=
  if ((px <? 0) || (px >=? width img) || (py <? 0) || (py >=? height img))%Z
  then None
  else
    let index := Z.to_nat ((py * width img + px) * 4) in
    Some (mkPixelColor (nth_error (data img) index)
                       (nth_error (data img) (index + 1))
                       (nth_error (data img) (index + 2))
                       (nth_error (data img) (index + 3))).

(** [c > 128], false on [undefined]. *)
Definition gt128 (c : option Z) : bool :=
  match c with Some v => (128 <? v)%Z | None => false end.

Definition isWhite (img : ImageData) (px py : Z) : bool :=
  match getPixelColor img px py with
  | None => false
  | Some color =>
      (gt128 (px_r color) || gt128 (px_g color) || gt128 (px_b color))
      && gt128 (px_alpha color)
  end.

Record SamplePoint := mkSamplePoint {
  sp_x : R; sp_y : R;
  sp_r : option Z; sp_g : option Z; sp_b : option Z
}.

(** The values [i] takes in [for (i = start; i < limit; i += step)].
    [None]: the loop is still running when the fuel is spent. *)
Fixpoint loop_positions (fuel : nat) (i step limit : Z) : option (list Z) :=
  if (i <? limit)%Z then
    match fuel with
    | O => None
    | S fuel' => option_map (cons i) (loop_positions fuel' (i + step) step limit)
    end
  else Some [].

(** With a step of at least 1 the loop ends within [limit] rounds; with a
    smaller step and a positive limit it never ends, and this many rounds
    of fuel run out. *)
Definition for_positions (step limit : Z) : option (list Z) :=
  loop_positions (Z.to_nat limit) 0 step limit.

Fixpoint traverse {A B} (f : A -> option B) (l : list A) : option (list B) :=
  match l with
  | [] => Some []
  | a :: l' =>
      match f a with
      | None => None
      | Some b => option_map (cons b) (traverse f l')
      end
  end.

Definition samplePixel (img : ImageData) (sampleScale : R) (px py : Z)
  : list SamplePoint :=
  if isWhite img px py then
    match getPixelColor img px py with
    | Some color =>
        [mkSamplePoint (IZR px / sampleScale) (IZR py / sampleScale)
           (px_r color) (px_g color) (px_b color)]
    | None =>
        [mkSamplePoint (IZR px / sampleScale) (IZR py / sampleScale)
           (Some 74%Z) (Some 222%Z) (Some 128%Z)]
    end
  else [].

(** The inner loop over [x] for one [y]. *)
Definition fillRow (img : ImageData) (step : Z) (sampleScale : R) (py : Z)
  : option (list SamplePoint) :=
  option_map (flat_map (fun px => samplePixel img sampleScale px py))
             (for_positions step (width img)).

(** The fill branch of [processSampling], lines 1412-1425: the points
    pushed, in order; [None] when the loops do not end. *)
Definition fillSample (img : ImageData) (step : Z) (sampleScale : R)
  : option (list SamplePoint) :=
  match for_positions step (height img) with
  | None => None
  | Some ys =>
      option_map (@concat SamplePoint)
                 (traverse (fillRow img step sampleScale) ys)
  end.

(** *** Palette mapping (lines 116-160) *)

Record RGB := mkRGB { rgb_r : R; rgb_g : R; rgb_b : R }.

(** [colorPalettes.cga]. *)
Definition cga : list RGB :=
  [mkRGB 0 0 0; mkRGB 0 0 170; mkRGB 0 170 0; mkRGB 0 170 170;
   mkRGB 170 0 0; mkRGB 170 0 170; mkRGB 170 85 0; mkRGB 170 170 170;
   mkRGB 85 85 85; mkRGB 85 85 255; mkRGB 85 255 85; mkRGB 85 255 255;
   mkRGB 255 85 85; mkRGB 255 85 255; mkRGB 255 255 85; mkRGB 255 255 255].

Definition dist2 (cr cg cb : R) (color : RGB) : R :=
  (cr - rgb_r color) * (cr - rgb_r color)
  + (cg - rgb_g color) * (cg - rgb_g color)
  + (cb - rgb_b color) * (cb - rgb_b color).

(** [dist < minDist], where [minDist] starts as [Infinity] ([None]). *)
Definition below (dist : R) (minDist : option R) : bool :=
  match minDist with
  | None => true
  | Some m => if Rlt_dec dist m then true else false
  end.

(** [getNearestPaletteColor(r, g, b, paletteColors)]; the result is
    [undefined] ([None]) on an empty palette. *)
Definition getNearestPaletteColor (cr cg cb : R) (paletteColors : list RGB)
  : option RGB :=
  snd (fold_left
         (fun (acc : option R * option RGB) color =>
            let dist := dist2 cr cg cb color in
            if below dist (fst acc) then (Some dist, Some color) else acc)
         paletteColors
         (None, nth_error paletteColors 0)).

(** *** Drawing (lines 362-461) *)

(** The display fields of a particle, and where it was painted. *)
Record Display := mkDisplay {
  displaySize : R;
  displayR : R; displayG : R; displayB : R;
  displayOpacity : R;
  screenX : R; screenY : R
}.

(** What [draw] reads from the page; [paletteColors] is
    [colorPalettes[paletteName]], [None] for an unknown name. *)
Record DrawSettings := mkDrawSettings {
  baseSize : R; reduction : R; depthScale : R;
  usePerspective : bool; useDepthFog : bool;
  useColorPalette : bool;
  paletteColors : option (list RGB)
}.

(** [Math.max(0.02, Math.min(0.6, 0.06 + depthScale / 10 + (fog ? 0.08 : 0)
    + speed / 50))]. *)
Definition smoothing (d : DrawSettings) (speedVal : R) : R :=
  let smooth := 0.06 + depthScale d / 10
                + (if useDepthFog d then 0.08 else 0) + speedVal / 50 in
  Rmax 0.02 (Rmin 0.6 smooth).

(** [display += (target - display) * smooth]. *)
Definition toward (display target smooth : R) : R :=
  display + (target - display) * smooth.

(** [draw(maxZ)] without the painting itself: the new display fields.
    A particle at depth 800 divides by zero in the perspective scale. *)
Definition draw (d : DrawSettings) (env : Env) (maxZ : R) (p : Particle)
  (old : Display) : JS.Result Display :=
  persp <-
    (if usePerspective d then
       if Rgt_dec maxZ 0 then
         let focalLength := 800 in
         let distance := focalLength - currentZ p in
         if Req_EM_T distance 0 then JS.Unmodelled
         else
           let perspectiveScale := focalLength / distance in
           JS.Ok (rotationCenterX env
                  + (x p - rotationCenterX env) * perspectiveScale,
                  rotationCenterY env
                  + (y p - rotationCenterY env) * perspectiveScale,
                  perspectiveScale)
       else JS.Ok (x p, y p, 1)
     else JS.Ok (x p, y p, 1)) ;;
  let '(drawX, drawY, perspectiveScale) := persp in
  let targetSize0 := Rmax 0.5 (baseSize d - (layer p - 1) * reduction d) in
  let targetSize :=
    if Rgt_dec maxZ 0 then
      let normalizedZ := currentZ p / maxZ in
      let depthFactor := 1 + normalizedZ * depthScale d * 0.3 in
      Rmax 0.3 (targetSize0 * depthFactor * perspectiveScale)
    else targetSize0 in
  target <-
    (if useColorPalette d then
       match paletteColors d with
       | None => JS.TypeError
       | Some colors =>
           match getNearestPaletteColor (sourceR p) (sourceG p) (sourceB p)
                   colors with
           | None => JS.TypeError
           | Some mappedColor => JS.Ok mappedColor
           end
       end
     else JS.Ok (mkRGB (sourceR p) (sourceG p) (sourceB p))) ;;
  let smooth := smoothing d (speed env) in
  JS.Ok (mkDisplay
           (toward (displaySize old) targetSize smooth)
           (toward (displayR old) (rgb_r target) smooth)
           (toward (displayG old) (rgb_g target) smooth)
           (toward (displayB old) (rgb_b target) smooth)
           (toward (displayOpacity old)
                   (targetOpacity (useDepthFog d) maxZ p) smooth)
           drawX drawY).

(** *** The frame store (lines 475-563) *)

Definition set_frames (fs : list Frame) (cfi : Z) (s : State) : State :=
  mkState (animTime s) (particles s) fs cfi (isMorphing s)
    (morphProgress s) (rng s).

Definition framePoint (p : Particle) : FramePoint :=
  mkFramePoint (JS.VNum (baseX p)) (JS.VNum (baseY p)) (JS.VNum (baseZ p))
    (JS.VNum (sourceR p)) (JS.VNum (sourceG p)) (JS.VNum (sourceB p)).

(** [addCurrentAsFrame()]. *)
Definition addCurrentAsFrame (s : State) : State :=
  match particles s with
  | [] => s
  | _ =>
      let frameData := map framePoint (particles s) in
      let frameName :=
        String.append "Frame " (JS.nat_to_string (length (frames s) + 1)) in
      let fs := frames s ++ [mkFrame (JS.VStr frameName) frameData
                               (length frameData)] in
      set_frames fs (Z.of_nat (length fs) - 1) s
  end.

(** [a.splice(index, 1)]: a negative index counts from the end, an index
    past the end removes nothing. *)
Definition splice1 {A} (index : Z) (l : list A) : list A :=
  let len := Z.of_nat (length l) in
  let start := if (index <? 0)%Z then Z.max (len + index) 0
               else Z.min index len in
  firstn (Z.to_nat start) l ++ skipn (S (Z.to_nat start)) l.

(** [removeFrame(index)]. *)
Definition removeFrame (index : Z) (s : State) : State :=
  let fs := splice1 index (frames s) in
  let cfi :=
    if (currentFrameIndex s >=? Z.of_nat (length fs))%Z
    then Z.max 0 (Z.of_nat (length fs) - 1)
    else currentFrameIndex s in
  set_frames fs cfi s.

Definition clearAllFrames (s : State) : State := set_frames [] 0 s.

(** [(currentFrameIndex + 1) % frames.length] and
    [(currentFrameIndex - 1 + frames.length) % frames.length]; [%] takes
    the sign of the dividend. *)
Definition nextIndex (cfi : Z) (len : nat) : Z :=
  Z.rem (cfi + 1) (Z.of_nat len).

Definition prevIndex (cfi : Z) (len : nat) : Z :=
  Z.rem (cfi - 1 + Z.of_nat len) (Z.of_nat len).

(** *** Export (lines 623-678) *)

(** [exportCurrentFrame()]: the object handed to [downloadJSON], [None]
    when it alerts instead.  [exportDate] is
    [new Date().toISOString()]. *)
Definition exportCurrentFrame (exportDate : string) (ps : list Particle)
  : option JS.value :=
  match ps with
  | [] => None
  | _ =>
      Some (JS.VObj
        [("version", JS.VStr "1.0");
         ("exportDate", JS.VStr exportDate);
         ("frame",
          JS.VObj
            [("name", JS.VStr "Exported Frame");
             ("pointCount", JS.VNum (INR (length ps)));
             ("points",
              JS.VArr
                (map (fun p =>
                        JS.VObj [("x", JS.VNum (baseX p));
                                 ("y", JS.VNum (baseY p));
                                 ("z", JS.VNum (baseZ p));
                                 ("r", JS.VNum (sourceR p));
                                 ("g", JS.VNum (sourceG p));
                                 ("b", JS.VNum (sourceB p))]%string)
                     ps))])]%string)
  end.

Definition exportFrame (frame : Frame) : JS.value :=
  JS.VObj [("name", name frame);
           ("pointCount", JS.VNum (INR (pointCount frame)));
           ("points", JS.VArr (map exportPoint (points frame)))]%string.

(** [exportAllFrames()]. *)
Definition exportAllFrames (exportDate : string) (fs : list Frame)
  : option JS.value :=
  match fs with
  | [] => None
  | _ =>
      Some (JS.VObj
        [("version", JS.VStr "1.0");
         ("exportDate", JS.VStr exportDate);
         ("frameCount", JS.VNum (INR (length fs)));
         ("frames", JS.VArr (map exportFrame fs))]%string)
  end.

(** *** Wireframe (lines 901-924) *)

(** The inner loop over [j] for one [i], and the outer loop from [i]
    on. *)
Fixpoint connect_from (i : nat) (p : Particle) (j : nat)
  (rest : list Particle) : list (nat * nat) :=
  match rest with
  | [] => []
  | q :: rest' =>
      let dx := baseX p - baseX q in
      let dy := baseY p - baseY q in
      let dist := sqrt (dx * dx + dy * dy) in
      (if Rlt_dec dist 30 then [(i, j)] else [])
      ++ connect_from i p (S j) rest'
  end.

Fixpoint connections_from (i : nat) (ps : list Particle) : list (nat * nat) :=
  match ps with
  | [] => []
  | p :: rest => connect_from i p (S i) rest ++ connections_from (S i) rest
  end.

(** [updateWireframe()]: the new [wireframeConnections]. *)
Definition updateWireframe (wireframeChecked : bool) (ps : list Particle)
  : list (nat * nat) :=
  if negb wireframeChecked then [] else connections_from 0 ps.

(** *** Image downscaling (processImageWithSettings, lines 1119-1132) *)

(** The size of the temporary canvas for an image of [w] x [h]. *)
Definition processSize (w h : Z) : Z * Z :=
  let maxProcessingSize := 400 in
  if ((400 <? w) || (400 <? h))%Z then
    let ratio := Rmin (maxProcessingSize / IZR w) (maxProcessingSize / IZR h) in
    (JS.round (IZR w * ratio), JS.round (IZR h * ratio))
  else (w, h).

(** *** Pointer input (lines 1769-1831) *)

Record Pointer := mkPointer {
  lastMouseX : R; lastMouseY : R;
  isDragging : bool; dragMoved : bool;
  lastHoverUpdateTime : R
}.

(** The body of the drag loop for one particle: [dx], [dy] are the
    pointer displacement, [size] the particle's [displaySize]. *)
Definition dragParticle (baseSizeVal dx dy : R) (size : R) (p : Particle)
  : Particle :=
  let sizeVal := num_or (Some size) baseSizeVal in
  let normalized := Rmin 1 (sizeVal / Rmax 0.1 baseSizeVal) in
  let moveFactor := 0.12 + normalized * 0.88 in
  let bX := baseX p + dx * moveFactor in
  let bY := baseY p + dy * moveFactor in
  mkParticle (x p) (y p) (vx p) (vy p) (layer p)
    (if hasTarget p then Some bX else targetX p)
    (if hasTarget p then Some bY else targetY p)
    bX bY (baseZ p) (currentZ p) (hasTarget p)
    (sourceR p) (sourceG p) (sourceB p)
    (morphTargetX p) (morphTargetY p) (morphTargetZ p)
    (morphTargetR p) (morphTargetG p) (morphTargetB p)
    (morphStartX p) (morphStartY p) (morphStartZ p)
    (morphStartR p) (morphStartG p) (morphStartB p)
    (markedForRemoval p).

(** What the [mousemove] handler leaves behind: the static angles X and
    Y, the pointer state and the particles.  The texts it writes to the
    rotation sliders in the hover branch are not part of it. *)
Record Moved := mkMoved {
  moved_staticRotX : R; moved_staticRotY : R;
  moved_pointer : Pointer;
  moved_particles : list Particle
}.

Section PointerInput.

(** The hover switch and its cached maximum, the size slider, the
    particles' display sizes, and [performance.now()]. *)
Variable hoverRotateEnabled : bool.
Variable lastHoverMaxCache : R.
Variable baseSizeVal : R.
Variable sizeOf : Particle -> R.
Variable now : R.

(** The [mousemove] handler for a pointer at ([clientX], [clientY]).  A
    canvas of width or height 0 makes the hover branch divide by
    zero. *)
Definition mousemove (clientX clientY : R) (env : Env) (ptr : Pointer)
  (ps : list Particle) : JS.Result Moved :=
  let lastX := clientX in
  let lastY := clientY in
  if hoverRotateEnabled && negb (animationEnabled env) then
    let centerX := canvas_width env / 2 in
    let centerY := canvas_height env / 2 in
    if is_zero centerX || is_zero centerY then JS.Unmodelled
    else
      let relX := clientX - centerX in
      let relY := clientY - centerY in
      let rotXAmount := (relY / centerY) * lastHoverMaxCache in
      let rotYAmount := (relX / centerX) * lastHoverMaxCache in
      let t := if Rgt_dec (now - lastHoverUpdateTime ptr) 16 then now
               else lastHoverUpdateTime ptr in
      JS.Ok (mkMoved (- rotXAmount * PI / 180) (rotYAmount * PI / 180)
               (mkPointer lastX lastY (isDragging ptr) (dragMoved ptr) t)
               ps)
  else if negb (isDragging ptr) then
    JS.Ok (mkMoved (staticRotX env) (staticRotY env)
             (mkPointer lastX lastY (isDragging ptr) (dragMoved ptr)
                (lastHoverUpdateTime ptr))
             ps)
  else
    let dx := clientX - lastX in
    let dy := clientY - lastY in
    let moved :=
      if Rgt_dec (Rabs dx + Rabs dy) 1 then true else dragMoved ptr in
    let ps' :=
      if animationEnabled env
      then map (fun p => dragParticle baseSizeVal dx dy (sizeOf p) p) ps
      else ps in
    JS.Ok (mkMoved (staticRotX env) (staticRotY env)
             (mkPointer clientX clientY (isDragging ptr) moved
                (lastHoverUpdateTime ptr))
             ps').

End PointerInput.

(** *** Morph buttons and the sphere generator *)

Definition set_base (bX bY bZ : R) (p : Particle) : Particle :=
  mkParticle (x p) (y p) (vx p) (vy p) (layer p) (targetX p) (targetY p)
    bX bY bZ (currentZ p) (hasTarget p)
    (sourceR p) (sourceG p) (sourceB p)
    (morphTargetX p) (morphTargetY p) (morphTargetZ p)
    (morphTargetR p) (morphTargetG p) (morphTargetB p)
    (morphStartX p) (morphStartY p) (morphStartZ p)
    (morphStartR p) (morphStartG p) (morphStartB p)
    (markedForRemoval p).

Section Buttons.

Variable random : nat -> R.

(** [morphToNextFrame()] and [morphToPrevFrame()], lines 544-563. *)
Definition morphToNextFrame (env : Env) (s : State) : JS.Result State :=
  if (length (frames s) <? 2)%nat then JS.Ok s
  else morphToFrame random env
         (nextIndex (currentFrameIndex s) (length (frames s))) s.

Definition morphToPrevFrame (env : Env) (s : State) : JS.Result State :=
  if (length (frames s) <? 2)%nat then JS.Ok s
  else morphToFrame random env
         (prevIndex (currentFrameIndex s) (length (frames s))) s.

(** The loop of [generateSphere()], lines 939-960, from index [i] on
    with [remaining] rounds to go: the particles pushed and the number
    of [Math.random] calls. *)
Fixpoint sphere_from (env : Env) (numPoints : nat) (radius : R)
  (remaining i k : nat) : list Particle * nat :=
  match remaining with
  | O => ([], k)
  | S remaining' =>
      let centerX := canvas_width env / 2 in
      let centerY := canvas_height env / 2 in
      let goldenRatio := (1 + sqrt 5) / 2 in
      let theta := 2 * PI * INR i / goldenRatio in
      let phi := acos (1 - 2 * (INR i + 0.5) / INR numPoints) in
      let sx := radius * sin phi * cos theta in
      let sy := radius * sin phi * sin theta in
      let sz := radius * cos phi in
      let pk := new_Particle random env
                  (Some (centerX + sx)) (Some (centerY + sy)) (Some 1)
                  (Some (centerX + sx)) (Some (centerY + sy)) (Some sz) k in
      let rest := sphere_from env numPoints radius remaining' (S i) (snd pk) in
      (set_base (centerX + sx) (centerY + sy) sz (fst pk) :: fst rest,
       snd rest)
  end.

(** [generateSphere()]: the particle array is emptied and refilled. *)
Definition generateSphere (env : Env) (numPoints : nat) (radius : R)
  (s : State) : State :=
  let r := sphere_from env numPoints radius numPoints 0 (rng s) in
  mkState (animTime s) (fst r) (frames s) (currentFrameIndex s)
    (isMorphing s) (morphProgress s) (snd r).

(** One round of the loop of [autoAddParticlesFromSVG()], lines
    1453-1473, for a point already placed at ([targetX], [targetY]): the
    particle is built, then takes the sampled colour when the point has
    one ([colour] is [None] when [point.r] is [undefined]). *)
Definition sampledParticle (env : Env) (layer : option R)
  (targetX targetY : R) (colour : option (R * R * R)) (k : nat)
  : Particle * nat :=
  let pk := new_Particle random env (Some targetX) (Some targetY) layer
              (Some targetX) (Some targetY) None k in
  match colour with
  | Some (cr, cg, cb) => (set_source cr cg cb (fst pk), snd pk)
  | None => pk
  end.

End Buttons.

End Editor.

(* ================================================================== *)
(** ** The embeddable renderer: particle-renderer.js                  *)
(* ================================================================== *)

Module Renderer.

(** A particle object as [_loadFrame] and [_morphTo] build it. *)
Record Particle := mkParticle {
  baseX : R; baseY : R; baseZ : R;
  x : R; y : R; z : R;
  r : R; g : R; b : R;
  size : R; opacity : R;
  morphStartX : R; morphStartY : R; morphStartZ : R;
  morphTargetX : R; morphTargetY : R; morphTargetZ : R;
  morphStartR : R; morphStartG : R; morphStartB : R;
  morphTargetR : R; morphTargetG : R; morphTargetB : R;
  remove : bool
}.

(** A normalized frame point, [{x, y, z, r, g, b}]. *)
Record Point := mkPoint {
  pt_x : JS.value; pt_y : JS.value; pt_z : JS.value;
  pt_r : JS.value; pt_g : JS.value; pt_b : JS.value
}.

Record Frame := mkFrame {
  name : JS.value;
  points : list Point
}.

(** [this.options] (without the background colour) and the canvas size. *)
Record Options := mkOptions {
  autoRotate : bool;
  rotateSpeed : R;
  rotateX : R; rotateY : R; rotateZ : R;
  particleSize : R;
  depthFog : bool;
  perspective : bool;
  focalLength : R;
  morphSpeed : R;
  scale : R;
  centerX : option R; centerY : option R;
  hoverRotate : bool;
  hoverMax : R;
  canvas_width : R; canvas_height : R
}.

Record State := mkState {
  particles : list Particle;
  frames : list Frame;
  currentFrame : Z;
  running : bool;
  animTime : nat;
  _morphing : bool;
  _morphProgress : R;
  _staticRotX : R; _staticRotY : R; _staticRotZ : R;
  rng : nat
}.

(** [_normalizeFrame(frame)], lines 88-100. *)
Definition normalizePoint (p : JS.value) : JS.Result Point :=
  px <- JS.get p "x" ;;
  ptx <- JS.get p "targetX" ;;
  py <- JS.get p "y" ;;
  pty <- JS.get p "targetY" ;;
  pz <- JS.get p "z" ;;
  pbz <- JS.get p "baseZ" ;;
  pr <- JS.get p "r" ;;
  pg <- JS.get p "g" ;;
  pb <- JS.get p "b" ;;
  JS.Ok (mkPoint (JS.coalesce px ptx) (JS.coalesce py pty)
           (JS.coalesce (JS.coalesce pz pbz) (JS.VNum 0))
           (JS.coalesce pr (JS.VNum 74))
           (JS.coalesce pg (JS.VNum 222))
           (JS.coalesce pb (JS.VNum 128))).

Definition _normalizeFrame (frame : JS.value) : JS.Result Frame :=
  nm <- JS.get frame "name" ;;
  pts <- JS.get frame "points" ;;
  match pts with
  | JS.VArr l =>
      pointsList <- JS.mapM normalizePoint l ;;
      JS.Ok (mkFrame (JS.or_else nm (JS.VStr "Frame")) pointsList)
  | _ => JS.TypeError
  end.

(** A frame point whose six fields are numbers. *)
Record NumPoint := mkNumPoint {
  nx : R; ny : R; nz : R; nr : R; ng : R; nb : R
}.

Definition numeric (pt : Point) : JS.Result NumPoint :=
  vx <- JS.as_num (pt_x pt) ;;
  vy <- JS.as_num (pt_y pt) ;;
  vz <- JS.as_num (pt_z pt) ;;
  vr <- JS.as_num (pt_r pt) ;;
  vg <- JS.as_num (pt_g pt) ;;
  vb <- JS.as_num (pt_b pt) ;;
  JS.Ok (mkNumPoint vx vy vz vr vg vb).

(** [pts.reduce((s, p) => s + p.x, 0) / pts.length].  On an empty list
    JavaScript computes 0/0, which is NaN: [None]. *)
Definition mean (xs : list R) : option R :=
  match xs with
  | [] => None
  | _ => Some (fold_left Rplus xs 0 / INR (length xs))
  end.

Definition opt_center (c : option R) (extent : R) : R :=
  match c with Some v => v | None => extent / 2 end.

(** The callback of the two [pts.map] calls that place a frame point on
    the canvas.  It only runs on a non-empty list, where the means are
    numbers. *)
Definition place (o : Options) (fcx fcy : option R) (p : NumPoint)
  : JS.Result NumPoint :=
  match fcx, fcy with
  | Some cx, Some cy =>
      JS.Ok (mkNumPoint
               (opt_center (centerX o) (canvas_width o) + (nx p - cx) * scale o)
               (opt_center (centerY o) (canvas_height o) + (ny p - cy) * scale o)
               (nz p * scale o) (nr p) (ng p) (nb p))
  | _, _ => JS.Unmodelled
  end.

Definition placed (o : Options) (pts : list Point) : JS.Result (list NumPoint) :=
  nums <- JS.mapM numeric pts ;;
  JS.mapM (place o (mean (map nx nums)) (mean (map ny nums))) nums.

Definition fresh (o : Options) (t : NumPoint) : Particle :=
  mkParticle (nx t) (ny t) (nz t) 0 0 0 (nr t) (ng t) (nb t)
    (particleSize o) 1
    0 0 0 0 0 0
    (nr t) (ng t) (nb t) (nr t) (ng t) (nb t)
    false.

(** [_loadFrame(index)], lines 102-132. *)
Definition _loadFrame (o : Options) (index : Z) (s : State) : JS.Result State :=
  match JS.at_index (frames s) index with
  | None => JS.Ok s
  | Some frame =>
      ts <- placed o (points frame) ;;
      JS.Ok (mkState (map (fresh o) ts) (frames s) index (running s)
               (animTime s) (_morphing s) (_morphProgress s)
               (_staticRotX s) (_staticRotY s) (_staticRotZ s) (rng s))
  end.

Definition set_frames (fs : list Frame) (s : State) : State :=
  mkState (particles s) fs (currentFrame s) (running s) (animTime s)
    (_morphing s) (_morphProgress s)
    (_staticRotX s) (_staticRotY s) (_staticRotZ s) (rng s).

(** [loadFrames(source)] for an in-memory object, lines 54-76. *)
Definition loadFrames (o : Options) (data : JS.value) (s : State)
  : JS.Result State :=
  frame <- JS.get data "frame" ;;
  s1 <-
    (if JS.truthy frame then
       f <- _normalizeFrame frame ;;
       JS.Ok (set_frames [f] s)
     else
       framesV <- JS.get data "frames" ;;
       if JS.truthy framesV then
         match framesV with
         | JS.VArr l =>
             fs <- JS.mapM _normalizeFrame l ;;
             JS.Ok (set_frames fs s)
         | _ => JS.TypeError
         end
       else
         match data with
         | JS.VArr l =>
             fs <- JS.mapM _normalizeFrame l ;;
             JS.Ok (set_frames fs s)
         | _ => JS.Ok s
         end) ;;
  if (0 <? length (frames s1))%nat then _loadFrame o 0 s1 else JS.Ok s1.

Definition ease (t : R) : R :=
  if Rlt_dec t 0.5 then 4 * t * t * t else 1 - (-2 * t + 2) ^ 3 / 2.

Definition lerp (a c t : R) : R := a + (c - a) * t.

(** The body of the [for (const p of this.particles)] loop of lines
    287-294. *)
Definition morphStep (t : R) (p : Particle) : Particle :=
  mkParticle
    (lerp (morphStartX p) (morphTargetX p) t)
    (lerp (morphStartY p) (morphTargetY p) t)
    (lerp (morphStartZ p) (morphTargetZ p) t)
    (x p) (y p) (z p)
    (IZR (JS.round (lerp (morphStartR p) (morphTargetR p) t)))
    (IZR (JS.round (lerp (morphStartG p) (morphTargetG p) t)))
    (IZR (JS.round (lerp (morphStartB p) (morphTargetB p) t)))
    (size p) (opacity p)
    (morphStartX p) (morphStartY p) (morphStartZ p)
    (morphTargetX p) (morphTargetY p) (morphTargetZ p)
    (morphStartR p) (morphStartG p) (morphStartB p)
    (morphTargetR p) (morphTargetG p) (morphTargetB p)
    (remove p).

Definition deg (d : R) : R := d * PI / 180.

(** Lines 298-312. *)
Definition angles (o : Options) (s : State) (time : nat) : R * R * R :=
  if hoverRotate o then (_staticRotX s, _staticRotY s, _staticRotZ s)
  else if autoRotate o then
    let t := INR time * rotateSpeed o * 0.01 in
    (deg (rotateX o) * t, deg (rotateY o) * t, deg (rotateZ o) * t)
  else (deg (rotateX o), deg (rotateY o), deg (rotateZ o)).

(** Lines 315-342. *)
Definition transformParticle (o : Options) (a : R * R * R) (p : Particle)
  : Particle :=
  let '(angleX, angleY, angleZ) := a in
  let v := Transform.transform
             (opt_center (centerX o) (canvas_width o))
             (opt_center (centerY o) (canvas_height o))
             angleX angleY angleZ
             (Transform.mkVec (baseX p) (baseY p) (baseZ p)) in
  mkParticle (baseX p) (baseY p) (baseZ p)
    (Transform.vX v) (Transform.vY v) (Transform.vZ v)
    (r p) (g p) (b p) (size p) (opacity p)
    (morphStartX p) (morphStartY p) (morphStartZ p)
    (morphTargetX p) (morphTargetY p) (morphTargetZ p)
    (morphStartR p) (morphStartG p) (morphStartB p)
    (morphTargetR p) (morphTargetG p) (morphTargetB p)
    (remove p).

Fixpoint insert_by_depth (p : Particle) (l : list Particle) : list Particle :=
  match l with
  | [] => [p]
  | q :: l' =>
      if Rle_dec (z p) (z q) then p :: q :: l'
      else q :: insert_by_depth p l'
  end.

Definition depth_sort (l : list Particle) : list Particle :=
  fold_right insert_by_depth [] l.

Definition maxAbsZ (ps : list Particle) : R :=
  fold_left (fun maxZ p =>
               let az := Rabs (z p) in
               if Rgt_dec az maxZ then az else maxZ) ps 1.

(** The opacity a particle is painted with, lines 356-360. *)
Definition drawOpacity (o : Options) (maxZ : R) (p : Particle) : R :=
  if depthFog o then
    if Rgt_dec maxZ 0 then
      let nz := (z p + maxZ) / (2 * maxZ) in
      Rmax 0.1 (0.2 + nz * nz * 0.8)
    else 1
  else 1.

(** One call of [_animate], lines 261-382, without the painting. *)
Definition _animate (o : Options) (s : State) : State :=
  if negb (running s) then s
  else
    let time := S (animTime s) in
    let '(ps, morphing, progress) :=
      if _morphing s then
        let mp := _morphProgress s + morphSpeed o in
        if Rge_dec mp 1 then
          (map (morphStep (ease 1))
               (filter (fun p => negb (remove p)) (particles s)), false, 1)
        else
          (map (morphStep (ease mp)) (particles s), true, mp)
      else (particles s, false, _morphProgress s) in
    mkState (depth_sort (map (transformParticle o (angles o s time)) ps))
      (frames s) (currentFrame s) (running s) time morphing progress
      (_staticRotX s) (_staticRotY s) (_staticRotZ s) (rng s).

Fixpoint ticks (o : Options) (n : nat) (s : State) : State :=
  match n with
  | O => s
  | S n' => ticks o n' (_animate o s)
  end.

Definition set_morph (t : NumPoint) (rm : bool) (p : Particle) : Particle :=
  mkParticle (baseX p) (baseY p) (baseZ p) (x p) (y p) (z p)
    (r p) (g p) (b p) (size p) (opacity p)
    (baseX p) (baseY p) (baseZ p)
    (nx t) (ny t) (nz t)
    (r p) (g p) (b p)
    (nr t) (ng t) (nb t)
    rm.

Section WithRandom.

Variable random : nat -> R.

(** The [while] loop of lines 191-204; [n] particles are still to add. *)
Fixpoint spawn (o : Options) (n : nat) (ps : list Particle) (k : nat)
  : JS.Result (list Particle * nat) :=
  match n with
  | O => JS.Ok (ps, k)
  | S n' =>
      match JS.at_index ps (JS.floor (random k * INR (length ps))) with
      | None => JS.TypeError
      | Some src =>
          spawn o n'
            (ps ++ [mkParticle (baseX src) (baseY src) (baseZ src) 0 0 0
                      (r src) (g src) (b src) (particleSize o) 1
                      0 0 0 0 0 0
                      (r src) (g src) (b src) (r src) (g src) (b src)
                      false])
            (S k)
      end
  end.

(** The [for] loop of lines 207-235, from index [i] on. *)
Fixpoint setTargets (targetPoints : list NumPoint) (i : nat)
  (ps : list Particle) (k : nat) : JS.Result (list Particle * nat) :=
  match ps with
  | [] => JS.Ok ([], k)
  | p :: rest =>
      if (i <? length targetPoints)%nat then
        match nth_error targetPoints i with
        | None => JS.TypeError
        | Some t =>
            res <- setTargets targetPoints (S i) rest k ;;
            JS.Ok (set_morph t false p :: fst res, snd res)
        end
      else
        match JS.at_index targetPoints
                (JS.floor (random k * INR (length targetPoints))) with
        | None => JS.TypeError
        | Some t =>
            res <- setTargets targetPoints (S i) rest (S k) ;;
            JS.Ok (set_morph t true p :: fst res, snd res)
        end
  end.

(** [_morphTo(targetIndex)], lines 173-240. *)
Definition _morphTo (o : Options) (targetIndex : Z) (s : State)
  : JS.Result State :=
  match JS.at_index (frames s) targetIndex with
  | None => JS.TypeError
  | Some targetFrame =>
      targetPoints <- placed o (points targetFrame) ;;
      r1 <- spawn o (length targetPoints - length (particles s))
              (particles s) (rng s) ;;
      r2 <- setTargets targetPoints 0 (fst r1) (snd r1) ;;
      JS.Ok (mkState (fst r2) (frames s) targetIndex (running s)
               (animTime s) true 0
               (_staticRotX s) (_staticRotY s) (_staticRotZ s) (snd r2))
  end.

(** [goTo(index)], lines 166-171. *)
Definition goTo (o : Options) (index : Z) (s : State) : JS.Result State :=
  if ((index <? 0) || (index >=? Z.of_nat (length (frames s))))%Z
     || _morphing s then JS.Ok s
  else if (index =? currentFrame s)%Z then JS.Ok s
  else _morphTo o index s.

End WithRandom.

(** [resize()], lines 385-390. *)
Definition resize (o : Options) (s : State) : JS.Result State :=
  if (0 <? length (frames s))%nat then _loadFrame o (currentFrame s) s
  else JS.Ok s.

(** One element of the [points.map] in [loadPoints], lines 80-83. *)
Definition loadPoint (p : JS.value) : JS.Result Point :=
  px <- JS.get p "x" ;;
  py <- JS.get p "y" ;;
  pz <- JS.get p "z" ;;
  pr <- JS.get p "r" ;;
  pg <- JS.get p "g" ;;
  pb <- JS.get p "b" ;;
  JS.Ok (mkPoint px py (JS.or_else pz (JS.VNum 0))
           (JS.coalesce pr (JS.VNum 74))
           (JS.coalesce pg (JS.VNum 222))
           (JS.coalesce pb (JS.VNum 128))).

(** [loadPoints(points)], lines 79-86: one frame without a name. *)
Definition loadPoints (o : Options) (pts : list JS.value) (s : State)
  : JS.Result State :=
  pointsList <- JS.mapM loadPoint pts ;;
  _loadFrame o 0 (set_frames [mkFrame JS.VUndef pointsList] s).

(** [start()] and [stop()], lines 135-147. *)
Definition set_running (b : bool) (s : State) : State :=
  mkState (particles s) (frames s) (currentFrame s) b (animTime s)
    (_morphing s) (_morphProgress s)
    (_staticRotX s) (_staticRotY s) (_staticRotZ s) (rng s).

Definition start (s : State) : State :=
  if running s then s else set_running true s.

Definition stop (s : State) : State := set_running false s.

(** [canvas.getBoundingClientRect()]. *)
Record Rect := mkRect {
  rect_left : R; rect_top : R; rect_width : R; rect_height : R
}.

Definition set_static (sx sy : R) (s : State) : State :=
  mkState (particles s) (frames s) (currentFrame s) (running s) (animTime s)
    (_morphing s) (_morphProgress s) sx sy (_staticRotZ s) (rng s).

(** The [mousemove] listener of [_setupHoverRotate], lines 243-253.  A
    canvas of width or height 0 divides by zero. *)
Definition onMouseMove (o : Options) (rect : Rect) (clientX clientY : R)
  (s : State) : JS.Result State :=
  if negb (hoverRotate o) then JS.Ok s
  else
    let cx := rect_width rect / 2 in
    let cy := rect_height rect / 2 in
    if Req_EM_T cx 0 then JS.Unmodelled
    else if Req_EM_T cy 0 then JS.Unmodelled
    else
      let relX := (clientX - rect_left rect - cx) / cx in
      let relY := (clientY - rect_top rect - cy) / cy in
      let max := hoverMax o * PI / 180 in
      JS.Ok (set_static (- relY * max) (relX * max) s).

(** The [mouseleave] listener, lines 255-258. *)
Definition onMouseLeave (s : State) : State := set_static 0 0 s.

Section Buttons.

Variable random : nat -> R.

(** [next()] and [prev()], lines 150-163. *)
Definition next (o : Options) (s : State) : JS.Result State :=
  if (length (frames s) <? 2)%nat || _morphing s then JS.Ok s
  else _morphTo random o
         (Z.rem (currentFrame s + 1) (Z.of_nat (length (frames s)))) s.

Definition prev (o : Options) (s : State) : JS.Result State :=
  if (length (frames s) <? 2)%nat || _morphing s then JS.Ok s
  else _morphTo random o
         (Z.rem (currentFrame s - 1 + Z.of_nat (length (frames s)))
                (Z.of_nat (length (frames s)))) s.

End Buttons.

End Renderer.

(* ================================================================== *)
(** ** The morph step in double precision                             *)
(* ================================================================== *)

(** The morph block of a tick with every arithmetic operation rounded
    as IEEE 754 does: [rnd x] is the double nearest to the real [x], and
    [pow3 x] is what [Math.pow(x, 3)] returns.  Runs that overflow or
    meet [NaN] are not represented.  The fields the morph block does not
    write, and the rest of the tick ([update], [transformParticle], the
    sort: they write the screen position and the depth only), are those
    of [Editor] and [Renderer]. *)
Module Double.

Section Arithmetic.

Variable rnd : R -> R.
Variable pow3 : R -> R.

Definition add (a b : R) : R := rnd (a + b).
Definition sub (a b : R) : R := rnd (a - b).
Definition mul (a b : R) : R := rnd (a * b).
Definition div (a b : R) : R := rnd (a / b).

(** [t < 0.5 ? 4 * t * t * t : 1 - Math.pow(-2 * t + 2, 3) / 2] *)
Definition ease (t : R) : R :=
  if Rlt_dec t 0.5 then mul (mul (mul 4 t) t) t
  else sub 1 (div (pow3 (add (mul (-2) t) 2)) 2).

(** [start + (target - start) * t] *)
Definition lerp (a b t : R) : R := add a (mul (sub b a) t).

(** [updateMorph(progress)], main.js lines 240-254. *)
Definition updateMorph (progress : R) (p : Editor.Particle)
  : Editor.Particle :=
  let t := ease progress in
  Editor.mkParticle (Editor.x p) (Editor.y p) (Editor.vx p) (Editor.vy p)
    (Editor.layer p) (Editor.targetX p) (Editor.targetY p)
    (lerp (Editor.morphStartX p) (Editor.morphTargetX p) t)
    (lerp (Editor.morphStartY p) (Editor.morphTargetY p) t)
    (lerp (Editor.morphStartZ p) (Editor.morphTargetZ p) t)
    (Editor.currentZ p) (Editor.hasTarget p)
    (IZR (JS.round (lerp (Editor.morphStartR p) (Editor.morphTargetR p) t)))
    (IZR (JS.round (lerp (Editor.morphStartG p) (Editor.morphTargetG p) t)))
    (IZR (JS.round (lerp (Editor.morphStartB p) (Editor.morphTargetB p) t)))
    (Editor.morphTargetX p) (Editor.morphTargetY p) (Editor.morphTargetZ p)
    (Editor.morphTargetR p) (Editor.morphTargetG p) (Editor.morphTargetB p)
    (Editor.morphStartX p) (Editor.morphStartY p) (Editor.morphStartZ p)
    (Editor.morphStartR p) (Editor.morphStartG p) (Editor.morphStartB p)
    (Editor.markedForRemoval p).

(** One call of [animate], main.js lines 1627-1740: the morph block of
    lines 1668-1693 in double precision, then [update] and the sort. *)
Definition animate (env : Editor.Env) (s : Editor.State) : Editor.State :=
  let time := S (Editor.animTime s) in
  let '(ps, morphing, progress) :=
    if Editor.isMorphing s then
      let mp := add (Editor.morphProgress s) (Editor.morphSpeed env) in
      if Rge_dec mp 1 then
        (map (updateMorph 1) (Editor.purge (Editor.particles s)), false, 1)
      else
        (map (updateMorph mp) (Editor.particles s), true, mp)
    else (Editor.particles s, false, Editor.morphProgress s) in
  Editor.mkState time
    (Editor.depth_sort (map (Editor.update env time) ps))
    (Editor.frames s) (Editor.currentFrameIndex s) morphing progress
    (Editor.rng s).

(** The body of the loop of particle-renderer.js lines 287-294. *)
Definition morphStep (t : R) (p : Renderer.Particle) : Renderer.Particle :=
  Renderer.mkParticle
    (lerp (Renderer.morphStartX p) (Renderer.morphTargetX p) t)
    (lerp (Renderer.morphStartY p) (Renderer.morphTargetY p) t)
    (lerp (Renderer.morphStartZ p) (Renderer.morphTargetZ p) t)
    (Renderer.x p) (Renderer.y p) (Renderer.z p)
    (IZR (JS.round
            (lerp (Renderer.morphStartR p) (Renderer.morphTargetR p) t)))
    (IZR (JS.round
            (lerp (Renderer.morphStartG p) (Renderer.morphTargetG p) t)))
    (IZR (JS.round
            (lerp (Renderer.morphStartB p) (Renderer.morphTargetB p) t)))
    (Renderer.size p) (Renderer.opacity p)
    (Renderer.morphStartX p) (Renderer.morphStartY p) (Renderer.morphStartZ p)
    (Renderer.morphTargetX p) (Renderer.morphTargetY p)
    (Renderer.morphTargetZ p)
    (Renderer.morphStartR p) (Renderer.morphStartG p) (Renderer.morphStartB p)
    (Renderer.morphTargetR p) (Renderer.morphTargetG p)
    (Renderer.morphTargetB p)
    (Renderer.remove p).

(** One call of [_animate], particle-renderer.js lines 261-382: the
    morph block of lines 276-295 in double precision, then the
    transform and the sort. *)
Definition _animate (o : Renderer.Options) (s : Renderer.State)
  : Renderer.State :=
  if negb (Renderer.running s) then s
  else
    let time := S (Renderer.animTime s) in
    let '(ps, morphing, progress) :=
      if Renderer._morphing s then
        let mp := add (Renderer._morphProgress s) (Renderer.morphSpeed o) in
        if Rge_dec mp 1 then
          (map (morphStep (ease 1))
               (filter (fun p => negb (Renderer.remove p))
                       (Renderer.particles s)), false, 1)
        else
          (map (morphStep (ease mp)) (Renderer.particles s), true, mp)
      else (Renderer.particles s, false, Renderer._morphProgress s) in
    Renderer.mkState
      (Renderer.depth_sort
         (map (Renderer.transformParticle o (Renderer.angles o s time)) ps))
      (Renderer.frames s) (Renderer.currentFrame s) (Renderer.running s)
      time morphing progress
      (Renderer._staticRotX s) (Renderer._staticRotY s)
      (Renderer._staticRotZ s) (Renderer.rng s).

End Arithmetic.

End Double.

(** The same morph block on machine doubles, for the positions of the
    particles: the colour channels, which pass through [Math.round],
    are left out.  [Math.pow(v, 3)] is written [v * v * v]; at 0, the
    argument it gets on the tick that completes a morph, both are 0. *)
Module Binary64.

Import PrimFloat.

Definition pow3 (v : float) : float := (v * v * v)%float.

Definition ease (t : float) : float :=
  if (t <? 0.5)%float then (4 * t * t * t)%float
  else (1 - pow3 (-2 * t + 2) / 2)%float.

Definition lerp (a b t : float) : float := (a + (b - a) * t)%float.

Record Particle := mkParticle {
  baseX : float; baseY : float; baseZ : float;
  morphStartX : float; morphStartY : float; morphStartZ : float;
  morphTargetX : float; morphTargetY : float; morphTargetZ : float;
  markedForRemoval : bool
}.

(** The three position assignments of [updateMorph], main.js lines
    246-248 (particle-renderer.js lines 288-290 are the same). *)
Definition updateMorph (progress : float) (p : Particle) : Particle :=
  let t := ease progress in
  mkParticle
    (lerp (morphStartX p) (morphTargetX p) t)
    (lerp (morphStartY p) (morphTargetY p) t)
    (lerp (morphStartZ p) (morphTargetZ p) t)
    (morphStartX p) (morphStartY p) (morphStartZ p)
    (morphTargetX p) (morphTargetY p) (morphTargetZ p)
    (markedForRemoval p).

Record State := mkState {
  particles : list Particle;
  isMorphing : bool;
  morphProgress : float
}.

Definition purge (ps : list Particle) : list Particle :=
  filter (fun p => negb (markedForRemoval p)) ps.

(** The morph block of [animate], main.js lines 1668-1693. *)
Definition animate (morphSpeed : float) (s : State) : State :=
  if isMorphing s then
    let mp := (morphProgress s + morphSpeed)%float in
    if (1 <=? mp)%float then
      mkState (map (updateMorph 1) (purge (particles s))) false 1
    else
      mkState (map (updateMorph mp) (particles s)) true mp
  else s.

Fixpoint ticks (morphSpeed : float) (n : nat) (s : State) : State :=
  match n with
  | O => s
  | S n' => ticks morphSpeed n' (animate morphSpeed s)
  end.

End Binary64.

(* ================================================================== *)
(** ** The words of the specification                                 *)
(* ================================================================== *)

(** [clamp(lo, v, hi)] as the specification writes it. *)
Definition clamp (lo v hi : R) : R := Rmax lo (Rmin v hi).

(** [normalizedDepth = (currentDepth + maxAbsDepth) / (2 * maxAbsDepth)]. *)
Definition normalizedDepth (currentDepth maxAbsDepth : R) : R :=
  (currentDepth + maxAbsDepth) / (2 * maxAbsDepth).

(** The opacity target of the specification's depth fog. *)
Definition spec_fog (currentDepth maxAbsDepth : R) : R :=
  let n := normalizedDepth currentDepth maxAbsDepth in
  clamp 0.05 (0.15 + n * n * 0.85) 1.

(** A payload without key [k]: an object that lacks it, or a value that
    is no object at all. *)
Definition missing_key (k : string) (payload : JS.value) : Prop :=
  match payload with
  | JS.VObj fields => JS.lookup k fields = None
  | _ => True
  end.

(** An import that ends in a failure shown to the user and leaves the
    frame store [fs] as it was. *)
Definition rejected (fs : list Editor.Frame)
  (res : list Editor.Frame * Editor.ImportOutcome) : Prop :=
  fst res = fs /\
  (snd res = Editor.ImportFailed \/
   exists message, snd res = Editor.InvalidFormat message).



(** The six stored target values of a particle. *)
Definition morph_target (p : Editor.Particle) : R * R * R * (R * R * R) :=
  (Editor.morphTargetX p, Editor.morphTargetY p, Editor.morphTargetZ p,
   (Editor.morphTargetR p, Editor.morphTargetG p, Editor.morphTargetB p)).



Definition rmorph_target (p : Renderer.Particle) : R * R * R * (R * R * R) :=
  (Renderer.morphTargetX p, Renderer.morphTargetY p, Renderer.morphTargetZ p,
   (Renderer.morphTargetR p, Renderer.morphTargetG p, Renderer.morphTargetB p)).

(** A colour field of a stored point: absent, or a whole number. *)
Definition colour_field (v : JS.value) : Prop :=
  v = JS.VUndef \/ exists c : Z, v = JS.VNum (IZR c).

(** A stored frame point of the data model: numeric coordinates, colour
    channels whole numbers or absent. *)
Definition well_formed_point (pt : Editor.FramePoint) : Prop :=
  (exists px py pz,
      Editor.pt_targetX pt = JS.VNum px /\
      Editor.pt_targetY pt = JS.VNum py /\
      Editor.pt_baseZ pt = JS.VNum pz) /\
  colour_field (Editor.pt_r pt) /\
  colour_field (Editor.pt_g pt) /\
  colour_field (Editor.pt_b pt).

Definition read_num (v : JS.value) (d : R) : R :=
  match v with JS.VNum n => n | _ => d end.

(** The position and the colour a stored point stands for, an absent
    colour channel read as 74, 222, 128. *)
Definition point_target (pt : Editor.FramePoint) : R * R * R * (R * R * R) :=
  (read_num (Editor.pt_targetX pt) 0, read_num (Editor.pt_targetY pt) 0,
   read_num (Editor.pt_baseZ pt) 0,
   (read_num (Editor.pt_r pt) 74, read_num (Editor.pt_g pt) 222,
    read_num (Editor.pt_b pt) 128)).

(** The base position and colour of a live particle. *)
Definition particle_place (p : Editor.Particle) : R * R * R * (R * R * R) :=
  (Editor.baseX p, Editor.baseY p, Editor.baseZ p,
   (Editor.sourceR p, Editor.sourceG p, Editor.sourceB p)).

(** A particle heading for a point of the frame, and a particle resting
    on one. *)
Definition targets_in (pts : list Editor.FramePoint) (p : Editor.Particle) : Prop :=
  exists pt, In pt pts /\ well_formed_point pt /\
             morph_target p = point_target pt.

Definition placed_in (pts : list Editor.FramePoint) (p : Editor.Particle) : Prop :=
  exists pt, In pt pts /\ particle_place p = point_target pt.

(** What holds of the editor from the start of a morph toward the frame
    points [pts] onward: while morphing, as many particles are unmarked
    as the frame has points and every particle heads for one of them;
    afterwards there are as many particles as points, each resting on
    one. *)
Definition morph_invariant (pts : list Editor.FramePoint) (s : Editor.State)
  : Prop :=
  if Editor.isMorphing s then
    length (Editor.purge (Editor.particles s)) = length pts /\
    Forall (targets_in pts) (Editor.particles s)
  else
    length (Editor.particles s) = length pts /\
    Forall (placed_in pts) (Editor.particles s).




(** [v] lies on the segment from [a] to [b]. *)
Definition between (a b v : R) : Prop := Rmin a b <= v <= Rmax a b.

(** The square of the distance of a point from the rotation centre
    ([cx], [cy], 0). *)
Definition dist2_from (cx cy : R) (v : Transform.vec3) : R :=
  (Transform.vX v - cx) * (Transform.vX v - cx)
  + (Transform.vY v - cy) * (Transform.vY v - cy)
  + Transform.vZ v * Transform.vZ v.

(** Ascending depth order, in the editor and in the renderer. *)
Definition depth_le (a c : Editor.Particle) : Prop :=
  Editor.currentZ a <= Editor.currentZ c.

Definition rdepth_le (a c : Renderer.Particle) : Prop :=
  Renderer.z a <= Renderer.z c.

(** A colour channel within 0..255, a colour with three such channels,
    and display fields a canvas accepts: an opacity within 0.15..1 and
    colour channels within 0..255. *)
Definition valid_channel (v : R) : Prop := 0 <= v <= 255.

Definition valid_rgb (c : Editor.RGB) : Prop :=
  valid_channel (Editor.rgb_r c) /\ valid_channel (Editor.rgb_g c) /\
  valid_channel (Editor.rgb_b c).

Definition valid_display (d : Editor.Display) : Prop :=
  0.15 <= Editor.displayOpacity d <= 1 /\
  valid_channel (Editor.displayR d) /\ valid_channel (Editor.displayG d) /\
  valid_channel (Editor.displayB d).

(** A stored point as it comes back from an export followed by an
    import: the fallbacks for a missing depth and missing colours are
    written out. *)
Definition canonical_point (pt : Editor.FramePoint) : Editor.FramePoint :=
  Editor.mkFramePoint (Editor.pt_targetX pt) (Editor.pt_targetY pt)
    (JS.or_else (Editor.pt_baseZ pt) (JS.VNum 0))
    (Editor.defined_or (Editor.pt_r pt) 74)
    (Editor.defined_or (Editor.pt_g pt) 222)
    (Editor.defined_or (Editor.pt_b pt) 128).

Definition canonical_frame (f : Editor.Frame) : Editor.Frame :=
  Editor.mkFrame (Editor.name f) (map canonical_point (Editor.points f))
    (length (Editor.points f)).

(** The sum of a list of numbers. *)
Definition total (l : list R) : R := fold_right Rplus 0 l.

(** A renderer particle whose morph start and morph target positions
    are all 0, and one whose base position is the origin. *)
Definition zero_morph (p : Renderer.Particle) : Prop :=
  Renderer.morphStartX p = 0 /\ Renderer.morphStartY p = 0 /\
  Renderer.morphStartZ p = 0 /\ Renderer.morphTargetX p = 0 /\
  Renderer.morphTargetY p = 0 /\ Renderer.morphTargetZ p = 0.

Definition at_origin (p : Renderer.Particle) : Prop :=
  Renderer.baseX p = 0 /\ Renderer.baseY p = 0 /\ Renderer.baseZ p = 0.

(** What a resize in the middle of a morph leaves behind. *)
Definition collapsing (s : Renderer.State) : Prop :=
  Forall zero_morph (Renderer.particles s) /\
  (Renderer._morphing s = true \/ Forall at_origin (Renderer.particles s)).


Definition rparticle_place (p : Renderer.Particle) : R * R * R * (R * R * R) :=
  (Renderer.baseX p, Renderer.baseY p, Renderer.baseZ p,
   (Renderer.r p, Renderer.g p, Renderer.b p)).






(** The point the fill sampler pushes for the pixel ([px], [py]): its
    position divided by the sample scale, and the pixel's own colour
    bytes. *)
Definition pixel_sample (img : Editor.ImageData) (sampleScale : R)
  (px py : Z) : Editor.SamplePoint :=
  let index := Z.to_nat ((py * Editor.width img + px) * 4) in
  Editor.mkSamplePoint (IZR px / sampleScale) (IZR py / sampleScale)
    (nth_error (Editor.data img) index)
    (nth_error (Editor.data img) (index + 1))
    (nth_error (Editor.data img) (index + 2)).

(** A pixel of the sampling grid: inside the image, both coordinates
    multiples of the step. *)
Definition on_grid (img : Editor.ImageData) (step px py : Z) : Prop :=
  (0 <= px < Editor.width img)%Z /\ (0 <= py < Editor.height img)%Z /\
  (step | px)%Z /\ (step | py)%Z.

(** Two particles whose base positions are less than 30 apart in the
    plane. *)
Definition close_by (p q : Editor.Particle) : Prop :=
  (Editor.baseX p - Editor.baseX q) * (Editor.baseX p - Editor.baseX q)
  + (Editor.baseY p - Editor.baseY q) * (Editor.baseY p - Editor.baseY q)
  < 30 * 30.

(** The number a point object holds under the key [k], or [d] when it
    holds none; the six numbers [loadPoints] reads from a point object;
    and a point object it can read: numbers under [x] and [y], a number
    or nothing under [z] and the three colour keys. *)
Definition field_num (d : R) (p : JS.value) (k : string) : R :=
  match JS.get p k with JS.Ok (JS.VNum v) => v | _ => d end.

Definition read_point (p : JS.value) : Renderer.NumPoint :=
  Renderer.mkNumPoint (field_num 0 p "x") (field_num 0 p "y")
    (field_num 0 p "z")
    (field_num 74 p "r") (field_num 222 p "g") (field_num 128 p "b").

Definition num_field (p : JS.value) (k : string) : Prop :=
  exists v, JS.get p k = JS.Ok (JS.VNum v).

Definition optional_field (p : JS.value) (k : string) : Prop :=
  JS.get p k = JS.Ok JS.VUndef \/ num_field p k.

Definition loadable (p : JS.value) : Prop :=
  num_field p "x" /\ num_field p "y" /\ optional_field p "z" /\
  optional_field p "r" /\ optional_field p "g" /\ optional_field p "b".

Definition point_of (n : Renderer.NumPoint) : Renderer.Point :=
  Renderer.mkPoint (JS.VNum (Renderer.nx n)) (JS.VNum (Renderer.ny n))
    (JS.VNum (Renderer.nz n)) (JS.VNum (Renderer.nr n))
    (JS.VNum (Renderer.ng n)) (JS.VNum (Renderer.nb n)).

(** A real that the rounding leaves as it is: a double. *)
Definition representable (rnd : R -> R) (v : R) : Prop := rnd v = v.

(** A colour channel of the data model: a whole number from 0 to 255. *)
Definition whole_byte (c : R) : Prop :=
  exists n : Z, (0 <= n <= 255)%Z /\ c = IZR n.

(** Where the last interpolation from [a] toward [c] lands: on the
    double nearest to [a + d], where [d] is the double nearest to
    [c - a]; that is on [c] itself when [c - a] and [c] are doubles. *)
Definition lands (rnd : R -> R) (a c v : R) : Prop :=
  v = rnd (a + rnd (c - a)) /\
  (representable rnd (c - a) -> representable rnd c -> v = c).

(** A particle right after the tick that completed its morph: each base
    coordinate is where the interpolation from its morph start toward
    its morph target lands, and each colour channel is the target
    channel when start and target channel are whole numbers from 0 to
    255. *)
Definition endpoint (rnd : R -> R) (p : Editor.Particle) : Prop :=
  lands rnd (Editor.morphStartX p) (Editor.morphTargetX p) (Editor.baseX p) /\
  lands rnd (Editor.morphStartY p) (Editor.morphTargetY p) (Editor.baseY p) /\
  lands rnd (Editor.morphStartZ p) (Editor.morphTargetZ p) (Editor.baseZ p) /\
  (whole_byte (Editor.morphStartR p) -> whole_byte (Editor.morphTargetR p) ->
   Editor.sourceR p = Editor.morphTargetR p) /\
  (whole_byte (Editor.morphStartG p) -> whole_byte (Editor.morphTargetG p) ->
   Editor.sourceG p = Editor.morphTargetG p) /\
  (whole_byte (Editor.morphStartB p) -> whole_byte (Editor.morphTargetB p) ->
   Editor.sourceB p = Editor.morphTargetB p).

Definition rendpoint (rnd : R -> R) (p : Renderer.Particle) : Prop :=
  lands rnd (Renderer.morphStartX p) (Renderer.morphTargetX p)
    (Renderer.baseX p) /\
  lands rnd (Renderer.morphStartY p) (Renderer.morphTargetY p)
    (Renderer.baseY p) /\
  lands rnd (Renderer.morphStartZ p) (Renderer.morphTargetZ p)
    (Renderer.baseZ p) /\
  (whole_byte (Renderer.morphStartR p) ->
   whole_byte (Renderer.morphTargetR p) ->
   Renderer.r p = Renderer.morphTargetR p) /\
  (whole_byte (Renderer.morphStartG p) ->
   whole_byte (Renderer.morphTargetG p) ->
   Renderer.g p = Renderer.morphTargetG p) /\
  (whole_byte (Renderer.morphStartB p) ->
   whole_byte (Renderer.morphTargetB p) ->
   Renderer.b p = Renderer.morphTargetB p).

(** The six stored start values of a particle. *)
Definition morph_start (p : Editor.Particle) : R * R * R * (R * R * R) :=
  (Editor.morphStartX p, Editor.morphStartY p, Editor.morphStartZ p,
   (Editor.morphStartR p, Editor.morphStartG p, Editor.morphStartB p)).

Definition rmorph_start (p : Renderer.Particle) : R * R * R * (R * R * R) :=
  (Renderer.morphStartX p, Renderer.morphStartY p, Renderer.morphStartZ p,
   (Renderer.morphStartR p, Renderer.morphStartG p, Renderer.morphStartB p)).

(** The morph a particle is in: where it started and where it heads. *)
Definition morph_fields (p : Editor.Particle) :=
  (morph_start p, morph_target p).

Definition rmorph_fields (p : Renderer.Particle) :=
  (rmorph_start p, rmorph_target p).

(** The colour of a live particle, and a particle that carries its
    morph-target colour. *)
Definition particle_colour (p : Editor.Particle) : R * R * R :=
  (Editor.sourceR p, Editor.sourceG p, Editor.sourceB p).

Definition colour_settled (p : Editor.Particle) : Prop :=
  particle_colour p = snd (morph_target p).

Definition rparticle_colour (p : Renderer.Particle) : R * R * R :=
  (Renderer.r p, Renderer.g p, Renderer.b p).




(* ================================================================== *)
(** ** Concrete inputs                                                *)
(* ================================================================== *)

(** The renderer's default options on a 100 x 100 canvas. *)
Definition default_options : Renderer.Options :=
  Renderer.mkOptions true 0.5 0 30 0 2 true true 800 0.02 1 None None
    false 45 100 100.

(** A renderer particle at the far end of the depth range. *)
Definition far_particle : Renderer.Particle :=
  Renderer.mkParticle 50 50 0 50 50 (-1) 74 222 128 2 1
    0 0 0 0 0 0 74 222 128 74 222 128 false.

(** An editor particle anchored at (10, 20, 0), as [new Particle(10, 20,
    1, 10, 20)] builds it when [Math.random] returns 0.5 twice. *)
Definition anchored_particle : Editor.Particle :=
  Editor.mkParticle 10 20 0 0 1 (Some 10) (Some 20) 10 20 0 0 true
    74 222 128 10 20 0 74 222 128 10 20 0 74 222 128 false.

(** The editor on an 800 x 600 canvas, rotating about Y. *)
Definition editor_env : Editor.Env :=
  Editor.mkEnv 800 600 400 300 1 0 30 0 true 0 0 0 0.02.

Definition editor_point (px py pz pr pg pb : R) : Editor.FramePoint :=
  Editor.mkFramePoint (JS.VNum px) (JS.VNum py) (JS.VNum pz)
    (JS.VNum pr) (JS.VNum pg) (JS.VNum pb).

Definition editor_particle (px py pz pr pg pb : R) : Editor.Particle :=
  Editor.mkParticle px py 0 0 1 (Some px) (Some py) px py pz pz true
    pr pg pb px py pz pr pg pb px py pz pr pg pb false.

(** Scenario A: frames A and B of one point each, one particle on A. *)
Definition frameA : Editor.Frame :=
  Editor.mkFrame (JS.VStr "A") [editor_point 0 0 0 1 2 3] 1.

Definition frameB : Editor.Frame :=
  Editor.mkFrame (JS.VStr "B") [editor_point 10 10 0 4 5 6] 1.

Definition scenarioA : Editor.State :=
  Editor.mkState 0 [editor_particle 0 0 0 1 2 3] [frameA; frameB] 0 false 0 0.

(** Scenario C: three particles, and a one-point frame at index 1. *)
Definition frame3 : Editor.Frame :=
  Editor.mkFrame (JS.VStr "Three")
    [editor_point 0 0 0 1 2 3; editor_point 5 0 0 1 2 3;
     editor_point 0 5 0 1 2 3] 3.


(** The editor after "clear particles", with frames A and B saved. *)
Definition cleared_editor : Editor.State :=
  Editor.mkState 0 [] [frameA; frameB] 0 false 0 0.

(** The editor with an imported frame that has no point at index 1. *)
Definition pointless_frame : Editor.Frame := Editor.mkFrame (JS.VStr "E") [] 0.

Definition editor_with_pointless_frame : Editor.State :=
  Editor.mkState 0 [editor_particle 0 0 0 1 2 3] [frameA; pointless_frame]
    0 false 0 0.

Definition renderer_point (px py pz pr pg pb : R) : Renderer.Point :=
  Renderer.mkPoint (JS.VNum px) (JS.VNum py) (JS.VNum pz)
    (JS.VNum pr) (JS.VNum pg) (JS.VNum pb).

Definition rframeA : Renderer.Frame :=
  Renderer.mkFrame (JS.VStr "A") [renderer_point 0 0 0 1 2 3].

Definition rframeB : Renderer.Frame :=
  Renderer.mkFrame (JS.VStr "B") [renderer_point 10 10 0 4 5 6].

Definition rframeE : Renderer.Frame := Renderer.mkFrame (JS.VStr "E") [].

Definition renderer_state (ps : list Renderer.Particle)
  (fs : list Renderer.Frame) : Renderer.State :=
  Renderer.mkState ps fs 0 true 0 false 0 0 0 0 0.

(** A [Math.random] that always returns 0. *)
Definition random_zero : nat -> R := fun _ => 0.

(** Scenario B and Scenario D payloads, as [JSON.parse] returns them. *)
Definition scenarioB_payload : JS.value :=
  JS.VObj [("version", JS.VStr "1.0");
           ("frame",
            JS.VObj [("name", JS.VStr "X");
                     ("points",
                      JS.VArr [JS.VObj [("x", JS.VNum 1);
                                        ("y", JS.VNum 1)]])])]%string.

Definition scenarioD_payload : JS.value :=
  JS.VObj [("frames",
            JS.VArr [JS.VObj [("name", JS.VStr "X");
                              ("points",
                               JS.VArr [JS.VObj [("x", JS.VNum 1);
                                                 ("y", JS.VNum 1)]])]])]%string.

(** The point of Scenario B as parsed, and as the editor stores it. *)
Definition scenarioB_raw_point : JS.value :=
  JS.VObj [("x", JS.VNum 1); ("y", JS.VNum 1)]%string.

Definition scenarioB_stored_point : Editor.FramePoint :=
  Editor.mkFramePoint (JS.VNum 1) (JS.VNum 1) (JS.VNum 0)
    JS.VUndef JS.VUndef JS.VUndef.

(** [anchored_particle] once [setMorphTarget] has read that point. *)
Definition anchored_particle_targeted : Editor.Particle :=
  Editor.mkParticle 10 20 0 0 1 (Some 10) (Some 20) 10 20 0 0 true
    74 222 128 1 1 0 74 222 128 10 20 0 74 222 128 false.

(** A 4 x 1 image whose only visible pixel is the last one. *)
Definition one_pixel_image : Editor.ImageData :=
  Editor.mkImageData 4 1
    [0; 0; 0; 0;  0; 0; 0; 0;  0; 0; 0; 0;  255; 255; 255; 255]%Z.

(** Scenario A one tick before the end of the morph to frame B: the
    particle started at (0, 0, 0) with colour (1, 2, 3) and heads for
    (10, 10, 0) with colour (4, 5, 6); a second particle is about to
    merge and go. *)
Definition morphing_particle (marked : bool) : Editor.Particle :=
  Editor.mkParticle 9 9 0 0 1 (Some 0) (Some 0) 9 9 0 0 true
    4 5 6 10 10 0 4 5 6 0 0 0 1 2 3 marked.

Definition morphing_editor : Editor.State :=
  Editor.mkState 49 [morphing_particle false; morphing_particle true]
    [frameA; frameB] 1 true 0.99 0.

Definition rmorphing_particle (marked : bool) : Renderer.Particle :=
  Renderer.mkParticle 59 59 0 59 59 0 4 5 6 2 1
    50 50 0 60 60 0 1 2 3 4 5 6 marked.

Definition morphing_renderer : Renderer.State :=
  Renderer.mkState [rmorphing_particle false; rmorphing_particle true]
    [rframeA; rframeB] 1 true 49 true 0.99 0 0 0 0.

(** Scenario A right after [morphToFrame(1)]: progress 0. *)
Definition started_particle : Editor.Particle :=
  Editor.mkParticle 0 0 0 0 1 (Some 0) (Some 0) 0 0 0 0 true
    1 2 3 10 10 0 4 5 6 0 0 0 1 2 3 false.

Definition started_editor : Editor.State :=
  Editor.mkState 0 [started_particle] [frameA; frameB] 1 true 0 0.

(** Draw settings: size 2, depth fog on, no perspective, no palette. *)
Definition plain_settings : Editor.DrawSettings :=
  Editor.mkDrawSettings 2 0.5 1 false true false (Some Editor.cga).

(** The display fields the constructor sets. *)
Definition initial_display : Editor.Display :=
  Editor.mkDisplay 1 74 222 128 1 0 0.

(** Three saved frames, the cursor on the middle one. *)
Definition three_frames : Editor.State :=
  Editor.mkState 0 [] [frameA; frameB; frame3] 1 false 0 0.

(** A pointer in the middle of a drag that started at (100, 100). *)
Definition dragging_pointer : Editor.Pointer :=
  Editor.mkPointer 100 100 true false 0.

(** The editor with the animation switched off. *)
Definition still_env : Editor.Env :=
  Editor.mkEnv 800 600 400 300 1 0 30 0 false 0 0 0 0.02.

(** The renderer with [hoverRotate] on, on an 800 x 600 canvas at the
    top left of the page. *)
Definition hover_options : Renderer.Options :=
  Renderer.mkOptions false 0.5 0 30 0 2 true true 800 0.02 1 None None
    true 45 800 600.

Definition canvas_rect : Renderer.Rect := Renderer.mkRect 0 0 800 600.

(** Two point objects as a page passes them to [loadPoints]: the first
    with a colour and a depth, the second with a position only. *)
Definition page_points : list JS.value :=
  [JS.VObj [("x", JS.VNum 0); ("y", JS.VNum 0); ("z", JS.VNum 5);
            ("r", JS.VNum 1); ("g", JS.VNum 2); ("b", JS.VNum 3)];
   JS.VObj [("x", JS.VNum 10); ("y", JS.VNum 10)]]%string.

(** Exact arithmetic as a rounding: nothing is rounded, and
    [Math.pow(v, 3)] is the cube. *)
Definition exact : R -> R := fun v => v.
Definition cube : R -> R := fun v => v ^ 3.

Section DoubleInputs.
Import PrimFloat.

(** The state of a morph from x = 400.3 to x = 12.7 one tick before its
    end, on machine doubles. *)
Definition finishing_morph : Binary64.State :=
  Binary64.mkState
    [Binary64.mkParticle 12.71 300 0 400.3 300 0 12.7 300 0 false]
    true 0.99.


End DoubleInputs.

(* THEOREMS *)

(* ================================================================== *)
(** ** Rotation                                                       *)
(* ================================================================== *)

Section Rotation.
Import Transform.

Lemma vec3_eq (u v : vec3) :
  vX u = vX v -> vY u = vY v -> vZ u = vZ v -> u = v.
Proof. destruct u, v; simpl; intros; subst; reflexivity. Qed.

(** Skipping an axis whose angle is zero changes nothing: the guarded
    rotation is the plain one. *)
Lemma rotX_plain a v :
  rotX a v = mkVec (vX v) (vY v * cos a - vZ v * sin a)
                          (vY v * sin a + vZ v * cos a).
Proof.
  unfold rotX. destruct (Req_EM_T a 0) as [->|_]; [|reflexivity].
  rewrite cos_0, sin_0. apply vec3_eq; simpl; ring.
Qed.

Lemma rotY_plain a v :
  rotY a v = mkVec (vX v * cos a + vZ v * sin a) (vY v)
                   (- vX v * sin a + vZ v * cos a).
Proof.
  unfold rotY. destruct (Req_EM_T a 0) as [->|_]; [|reflexivity].
  rewrite cos_0, sin_0. apply vec3_eq; simpl; ring.
Qed.

Lemma rotZ_plain a v :
  rotZ a v = mkVec (vX v * cos a - vY v * sin a)
                   (vX v * sin a + vY v * cos a) (vZ v).
Proof.
  unfold rotZ. destruct (Req_EM_T a 0) as [->|_]; [|reflexivity].
  rewrite cos_0, sin_0. apply vec3_eq; simpl; ring.
Qed.

Lemma rot_zero v : rotX 0 v = v /\ rotY 0 v = v /\ rotZ 0 v = v.
Proof.
  unfold rotX, rotY, rotZ.
  destruct (Req_EM_T 0 0) as [_|n]; [auto | exfalso; apply n; reflexivity].
Qed.

Lemma pythagoras a u : u * cos a * cos a + u * sin a * sin a = u.
Proof.
  replace (u * cos a * cos a + u * sin a * sin a)
    with (u * ((sin a)² + (cos a)²)) by (unfold Rsqr; ring).
  rewrite sin2_cos2. ring.
Qed.

Lemma rotX_undo a v : rotX (- a) (rotX a v) = v.
Proof.
  rewrite !rotX_plain. rewrite cos_neg, sin_neg.
  apply vec3_eq; simpl; [reflexivity | |].
  - transitivity (vY v * cos a * cos a + vY v * sin a * sin a);
      [ring | apply pythagoras].
  - transitivity (vZ v * cos a * cos a + vZ v * sin a * sin a);
      [ring | apply pythagoras].
Qed.

Lemma rotY_undo a v : rotY (- a) (rotY a v) = v.
Proof.
  rewrite !rotY_plain. rewrite cos_neg, sin_neg.
  apply vec3_eq; simpl; [| reflexivity |].
  - transitivity (vX v * cos a * cos a + vX v * sin a * sin a);
      [ring | apply pythagoras].
  - transitivity (vZ v * cos a * cos a + vZ v * sin a * sin a);
      [ring | apply pythagoras].
Qed.

Lemma rotZ_undo a v : rotZ (- a) (rotZ a v) = v.
Proof.
  rewrite !rotZ_plain. rewrite cos_neg, sin_neg.
  apply vec3_eq; simpl; [| | reflexivity].
  - transitivity (vX v * cos a * cos a + vX v * sin a * sin a);
      [ring | apply pythagoras].
  - transitivity (vY v * cos a * cos a + vY v * sin a * sin a);
      [ring | apply pythagoras].
Qed.

Lemma transform_split cx cy ax ay az v :
  transform cx cy ax ay az v
  = uncentre cx cy (rotZ az (rotY ay (rotX ax (recentre cx cy v)))).
Proof. reflexivity. Qed.

Lemma recentre_uncentre cx cy v : recentre cx cy (uncentre cx cy v) = v.
Proof. apply vec3_eq; simpl; ring. Qed.

Lemma uncentre_recentre cx cy v : uncentre cx cy (recentre cx cy v) = v.
Proof. apply vec3_eq; simpl; ring. Qed.

(** C4 (as amended): after the transform with angles (a, b, c), undoing
    the three axis rotations in reverse order -- the transform with
    (0, 0, -c), then with (0, -b, 0), then with (-a, 0, 0), about the same
    centre -- restores the original position, exactly over the reals. *)
Theorem rotation_round_trip_reverse_order :
  forall cx cy a b c v,
    transform cx cy (- a) 0 0
      (transform cx cy 0 (- b) 0
         (transform cx cy 0 0 (- c)
            (transform cx cy a b c v))) = v.
Proof.
  intros. rewrite !transform_split, !recentre_uncentre.
  repeat match goal with
         | |- context [rotX 0 ?u] =>
             replace (rotX 0 u) with u by (symmetry; apply rot_zero)
         | |- context [rotY 0 ?u] =>
             replace (rotY 0 u) with u by (symmetry; apply rot_zero)
         | |- context [rotZ 0 ?u] =>
             replace (rotZ 0 u) with u by (symmetry; apply rot_zero)
         end.
  rewrite rotZ_undo, rotY_undo, rotX_undo.
  apply uncentre_recentre.
Qed.

(** C4 (as stated) fails: a quarter turn about X followed by the
    transform with the negated angles in reversed slots -- X by -c, Y by
    -b, Z by -a, in the fixed order X, Y, Z -- leaves (0, 1, 0) at
    (0, 0, 1). *)
Lemma rotation_round_trip_as_stated_fails :
  ~ (forall cx cy a b c v,
        transform cx cy (- c) (- b) (- a) (transform cx cy a b c v) = v).
Proof.
  intro H.
  specialize (H 0 0 (PI / 2) 0 0 (mkVec 0 1 0)).
  rewrite !transform_split in H. rewrite recentre_uncentre in H.
  replace (- 0) with 0 in H by ring.
  repeat match type of H with
         | context [rotX 0 ?u] =>
             replace (rotX 0 u) with u in H by (symmetry; apply rot_zero)
         | context [rotY 0 ?u] =>
             replace (rotY 0 u) with u in H by (symmetry; apply rot_zero)
         | context [rotZ 0 ?u] =>
             replace (rotZ 0 u) with u in H by (symmetry; apply rot_zero)
         end.
  rewrite rotX_plain, rotZ_plain in H.
  rewrite cos_PI2, sin_PI2 in H.
  apply (f_equal vZ) in H. simpl in H. lra.
Qed.

End Rotation.

(* ================================================================== *)
(** ** Depth fog                                                      *)
(* ================================================================== *)

Lemma editor_maxAbsZ_acc (ps : list Editor.Particle) (m : R) :
  let f := fun maxZ p =>
             let absZ := Rabs (Editor.currentZ p) in
             if Rgt_dec absZ maxZ then absZ else maxZ in
  m <= fold_left f ps m /\
  forall p, In p ps -> Rabs (Editor.currentZ p) <= fold_left f ps m.
Proof.
  intro f. revert m. induction ps as [|q ps IH]; intro m; simpl.
  - split; [lra | contradiction].
  - destruct (IH (f m q)) as [Hm Hin].
    assert (Hq : m <= f m q /\ Rabs (Editor.currentZ q) <= f m q).
    { unfold f; simpl. destruct (Rgt_dec _ _); lra. }
    split; [lra|]. intros p [->|Hp]; [lra | auto].
Qed.

Lemma editor_maxAbsZ_bound ps p :
  In p ps ->
  1 <= Editor.maxAbsZ ps /\ Rabs (Editor.currentZ p) <= Editor.maxAbsZ ps.
Proof.
  intro H. destruct (editor_maxAbsZ_acc ps 1) as [H1 H2].
  split; [exact H1 | exact (H2 p H)].
Qed.

Lemma renderer_maxAbsZ_acc (ps : list Renderer.Particle) (m : R) :
  let f := fun maxZ p =>
             let az := Rabs (Renderer.z p) in
             if Rgt_dec az maxZ then az else maxZ in
  m <= fold_left f ps m /\
  forall p, In p ps -> Rabs (Renderer.z p) <= fold_left f ps m.
Proof.
  intro f. revert m. induction ps as [|q ps IH]; intro m; simpl.
  - split; [lra | contradiction].
  - destruct (IH (f m q)) as [Hm Hin].
    assert (Hq : m <= f m q /\ Rabs (Renderer.z q) <= f m q).
    { unfold f; simpl. destruct (Rgt_dec _ _); lra. }
    split; [lra|]. intros p [->|Hp]; [lra | auto].
Qed.

(** A depth within the range is normalized into [0, 1]. *)
Lemma normalizedDepth_range d m :
  1 <= m -> Rabs d <= m ->
  0 <= normalizedDepth d m <= 1.
Proof.
  intros Hm Hd. unfold normalizedDepth.
  assert (Hb : - m <= d <= m).
  { unfold Rabs in Hd. destruct (Rcase_abs d); lra. }
  assert (H2 : 0 < 2 * m) by lra.
  split.
  - apply Rmult_le_reg_r with (2 * m); [lra|]. field_simplify; lra.
  - apply Rmult_le_reg_r with (2 * m); [lra|]. field_simplify; lra.
Qed.

(** C5 (as amended): with depth fog on, the editor's opacity target is
    clamp(0.05, 0.15 + n^2 * 0.85, 1) for n the normalized depth against
    the largest absolute depth of this tick (at least 1); the renderer
    paints with max(0.1, 0.2 + n^2 * 0.8). *)
Theorem depth_fog_opacity :
  (forall ps p,
      In p ps ->
      Editor.targetOpacity true (Editor.maxAbsZ ps) p
      = spec_fog (Editor.currentZ p) (Editor.maxAbsZ ps))
  /\
  (forall o ps p,
      Renderer.depthFog o = true -> In p ps ->
      let n := normalizedDepth (Renderer.z p) (Renderer.maxAbsZ ps) in
      Renderer.drawOpacity o (Renderer.maxAbsZ ps) p
      = Rmax 0.1 (0.2 + n * n * 0.8)).
Proof.
  split.
  - intros ps p Hin.
    destruct (editor_maxAbsZ_bound ps p Hin) as [H1 Hz].
    pose proof (normalizedDepth_range _ _ H1 Hz) as Hn.
    unfold Editor.targetOpacity, spec_fog.
    destruct (Rgt_dec (Editor.maxAbsZ ps) 0) as [_|Hneg]; [|lra].
    fold (normalizedDepth (Editor.currentZ p) (Editor.maxAbsZ ps)).
    set (n := normalizedDepth _ _) in *.
    assert (Hsq : 0 <= n * n <= 1) by nra.
    unfold clamp. rewrite Rmin_left by lra. reflexivity.
  - intros o ps p Hfog Hin n.
    destruct (renderer_maxAbsZ_acc ps 1) as [H1 _].
    unfold Renderer.drawOpacity. rewrite Hfog.
    destruct (Rgt_dec (Renderer.maxAbsZ ps) 0) as [_|Hneg].
    + reflexivity.
    + unfold Renderer.maxAbsZ in Hneg. lra.
Qed.

Lemma depth_fog_opacity_witness :
  Editor.targetOpacity true (Editor.maxAbsZ [anchored_particle])
    anchored_particle
  = spec_fog (Editor.currentZ anchored_particle)
      (Editor.maxAbsZ [anchored_particle])
  /\
  Renderer.drawOpacity default_options (Renderer.maxAbsZ [far_particle])
    far_particle
  = Rmax 0.1
      (0.2 + normalizedDepth (Renderer.z far_particle)
               (Renderer.maxAbsZ [far_particle])
             * normalizedDepth (Renderer.z far_particle)
                 (Renderer.maxAbsZ [far_particle]) * 0.8).
Proof.
  split.
  - apply (proj1 depth_fog_opacity). simpl. left. reflexivity.
  - apply (proj2 depth_fog_opacity default_options [far_particle] far_particle).
    + reflexivity.
    + simpl. left. reflexivity.
Defined.

Lemma renderer_maxAbsZ_far : Renderer.maxAbsZ [far_particle] = 1.
Proof.
  unfold Renderer.maxAbsZ; simpl.
  destruct (Rgt_dec (Rabs (-1)) 1) as [H|_]; [|reflexivity].
  rewrite Rabs_left in H by lra. lra.
Qed.

(** C5 (as stated) fails in the renderer: the farthest particle is
    painted with opacity 0.2, where the specification's formula gives
    0.15. *)
Lemma depth_fog_renderer_differs :
  Renderer.depthFog default_options = true /\
  In far_particle [far_particle] /\
  Renderer.drawOpacity default_options (Renderer.maxAbsZ [far_particle])
    far_particle
  <> spec_fog (Renderer.z far_particle) (Renderer.maxAbsZ [far_particle]).
Proof.
  split; [reflexivity|]. split; [left; reflexivity|].
  rewrite renderer_maxAbsZ_far.
  unfold Renderer.drawOpacity, spec_fog, normalizedDepth; simpl.
  destruct (Rgt_dec 1 0) as [_|H]; [|lra].
  replace ((-1 + 1) / (2 * 1)) with 0 by field.
  unfold clamp. rewrite Rmin_left by lra.
  rewrite !Rmax_right by lra. lra.
Qed.

(* ================================================================== *)
(** ** The guards of morphTo / goTo                                   *)
(* ================================================================== *)

(** C9: a call made while a morph is in progress, or with the current
    frame index, or with an index out of bounds, starts nothing: the
    editor's [morphToFrame] and the renderer's [goTo] return with the
    whole state (particles, current index, morphing flag) as it was. *)
Theorem morph_guards_noop :
  (forall random env i s,
      Editor.isMorphing s = true \/
      i = Editor.currentFrameIndex s \/
      (i < 0)%Z \/ (i >= Z.of_nat (length (Editor.frames s)))%Z ->
      Editor.morphToFrame random env i s = JS.Ok s)
  /\
  (forall random o i s,
      Renderer._morphing s = true \/
      i = Renderer.currentFrame s \/
      (i < 0)%Z \/ (i >= Z.of_nat (length (Renderer.frames s)))%Z ->
      Renderer.goTo random o i s = JS.Ok s).
Proof.
  split.
  - intros random env i s H. unfold Editor.morphToFrame.
    destruct (Editor.isMorphing s); [reflexivity|].
    destruct (Z.eqb_spec i (Editor.currentFrameIndex s)); [reflexivity|].
    destruct H as [H|[H|H]]; [discriminate | contradiction |].
    destruct (Z.ltb_spec i 0); [reflexivity|].
    destruct (Z.geb_spec i (Z.of_nat (length (Editor.frames s))));
      [reflexivity | lia].
  - intros random o i s H. unfold Renderer.goTo.
    destruct (Z.ltb_spec i 0); [reflexivity|].
    destruct (Z.geb_spec i (Z.of_nat (length (Renderer.frames s))));
      [reflexivity|].
    destruct (Renderer._morphing s); [reflexivity|]. simpl.
    destruct (Z.eqb_spec i (Renderer.currentFrame s)); [reflexivity|].
    destruct H as [H|[H|H]]; [discriminate | contradiction | lia].
Qed.

Lemma morph_guards_noop_witness :
  Editor.morphToFrame random_zero editor_env 0 scenarioA = JS.Ok scenarioA
  /\
  Renderer.goTo random_zero default_options 5
    (renderer_state [] [rframeA; rframeB])
  = JS.Ok (renderer_state [] [rframeA; rframeB]).
Proof.
  split.
  - apply (proj1 morph_guards_noop). right. left. reflexivity.
  - apply (proj2 morph_guards_noop). right. right. right. simpl. lia.
Defined.

(* ================================================================== *)
(** ** Empty particle sets and empty frames                           *)
(* ================================================================== *)

Lemma at_index_nil {A} (i : Z) : JS.at_index (@nil A) i = None.
Proof.
  unfold JS.at_index. destruct (i <? 0)%Z; [reflexivity|].
  destruct (Z.to_nat i); reflexivity.
Qed.

Lemma editor_guards_pass random env i s f :
  Editor.isMorphing s = false ->
  i <> Editor.currentFrameIndex s ->
  JS.at_index (Editor.frames s) i = Some f ->
  Editor.morphToFrame random env i s =
    (r1 <- Editor.spawn random env (length (Editor.particles s))
             (length (Editor.points f) - length (Editor.particles s))
             (map (Editor.set_marked false) (Editor.particles s))
             (Editor.rng s) ;;
     r2 <- Editor.setTargets random (Editor.points f) 0 (fst r1) (snd r1) ;;
     JS.Ok (Editor.mkState (Editor.animTime s) (fst r2) (Editor.frames s) i
              true 0 (snd r2))).
Proof.
  intros Hm Hi Hf. unfold Editor.morphToFrame. rewrite Hm.
  destruct (Z.eqb_spec i (Editor.currentFrameIndex s)); [contradiction|].
  unfold JS.at_index in Hf |- *.
  destruct (Z.ltb_spec i 0); [discriminate|].
  destruct (Z.geb_spec i (Z.of_nat (length (Editor.frames s)))) as [Hge|_].
  - assert (Hlt : (Z.to_nat i < length (Editor.frames s))%nat)
      by (apply nth_error_Some; congruence).
    lia.
  - simpl. rewrite Hf. reflexivity.
Qed.

Lemma renderer_guards_pass random o i s f :
  Renderer._morphing s = false ->
  i <> Renderer.currentFrame s ->
  JS.at_index (Renderer.frames s) i = Some f ->
  Renderer.goTo random o i s =
    (targetPoints <- Renderer.placed o (Renderer.points f) ;;
     r1 <- Renderer.spawn random o
             (length targetPoints - length (Renderer.particles s))
             (Renderer.particles s) (Renderer.rng s) ;;
     r2 <- Renderer.setTargets random targetPoints 0 (fst r1) (snd r1) ;;
     JS.Ok (Renderer.mkState (fst r2) (Renderer.frames s) i
              (Renderer.running s) (Renderer.animTime s) true 0
              (Renderer._staticRotX s) (Renderer._staticRotY s)
              (Renderer._staticRotZ s) (snd r2))).
Proof.
  intros Hm Hi Hf. unfold Renderer.goTo, Renderer._morphTo.
  rewrite Hm, Hf.
  destruct (Z.eqb_spec i (Renderer.currentFrame s)); [contradiction|].
  unfold JS.at_index in Hf.
  destruct (Z.ltb_spec i 0); [discriminate|].
  destruct (Z.geb_spec i (Z.of_nat (length (Renderer.frames s)))) as [Hge|_].
  - assert (Hlt : (Z.to_nat i < length (Renderer.frames s))%nat)
      by (apply nth_error_Some; congruence).
    lia.
  - reflexivity.
Qed.

(** C10 (the code departs from it): a morph that passes the guards
    throws a TypeError, in the editor and in the renderer alike, when
    the particle set is empty and the target frame is not, and when the
    target frame has no point and the particle set is not empty. *)
Theorem morph_on_empty_throws :
  (forall random env i s f,
      Editor.isMorphing s = false ->
      i <> Editor.currentFrameIndex s ->
      JS.at_index (Editor.frames s) i = Some f ->
      Editor.particles s = [] -> Editor.points f <> [] ->
      Editor.morphToFrame random env i s = JS.TypeError)
  /\
  (forall random env i s f,
      Editor.isMorphing s = false ->
      i <> Editor.currentFrameIndex s ->
      JS.at_index (Editor.frames s) i = Some f ->
      Editor.particles s <> [] -> Editor.points f = [] ->
      Editor.morphToFrame random env i s = JS.TypeError)
  /\
  (forall random o i s f ts,
      Renderer._morphing s = false ->
      i <> Renderer.currentFrame s ->
      JS.at_index (Renderer.frames s) i = Some f ->
      Renderer.placed o (Renderer.points f) = JS.Ok ts ->
      Renderer.particles s = [] -> ts <> [] ->
      Renderer.goTo random o i s = JS.TypeError)
  /\
  (forall random o i s f,
      Renderer._morphing s = false ->
      i <> Renderer.currentFrame s ->
      JS.at_index (Renderer.frames s) i = Some f ->
      Renderer.particles s <> [] -> Renderer.points f = [] ->
      Renderer.goTo random o i s = JS.TypeError).
Proof.
  repeat split.
  - intros random env i s f Hm Hi Hf Hps Hpts.
    rewrite (editor_guards_pass random env i s f Hm Hi Hf), Hps.
    destruct (Editor.points f) as [|pt pts]; [contradiction|].
    simpl. rewrite at_index_nil. reflexivity.
  - intros random env i s f Hm Hi Hf Hps Hpts.
    rewrite (editor_guards_pass random env i s f Hm Hi Hf), Hpts.
    destruct (Editor.particles s) as [|p ps]; [contradiction|].
    simpl. rewrite at_index_nil. reflexivity.
  - intros random o i s f ts Hm Hi Hf Hts Hps Hne.
    rewrite (renderer_guards_pass random o i s f Hm Hi Hf), Hts, Hps.
    destruct ts as [|t ts]; [contradiction|].
    simpl. rewrite at_index_nil. reflexivity.
  - intros random o i s f Hm Hi Hf Hps Hpts.
    rewrite (renderer_guards_pass random o i s f Hm Hi Hf), Hpts.
    destruct (Renderer.particles s) as [|p ps]; [contradiction|].
    simpl. rewrite at_index_nil. reflexivity.
Qed.

Lemma morph_on_empty_throws_witness :
  Editor.morphToFrame random_zero editor_env 1 cleared_editor = JS.TypeError
  /\
  Editor.morphToFrame random_zero editor_env 1 editor_with_pointless_frame
  = JS.TypeError
  /\
  Renderer.goTo random_zero default_options 1
    (renderer_state [] [rframeA; rframeB]) = JS.TypeError
  /\
  Renderer.goTo random_zero default_options 1
    (renderer_state [far_particle] [rframeA; rframeE]) = JS.TypeError.
Proof.
  destruct morph_on_empty_throws as (E1 & E2 & R1 & R2).
  repeat split.
  - apply (E1 random_zero editor_env 1%Z cleared_editor frameB);
      [reflexivity | discriminate | reflexivity | reflexivity | discriminate].
  - apply (E2 random_zero editor_env 1%Z editor_with_pointless_frame
             pointless_frame);
      [reflexivity | discriminate | reflexivity | discriminate | reflexivity].
  - eapply (R1 random_zero default_options 1%Z
              (renderer_state [] [rframeA; rframeB]) rframeB);
      [reflexivity | discriminate | reflexivity | reflexivity | reflexivity
      | discriminate].
  - apply (R2 random_zero default_options 1%Z
             (renderer_state [far_particle] [rframeA; rframeE]) rframeE);
      [reflexivity | discriminate | reflexivity | discriminate | reflexivity].
Defined.

(* ================================================================== *)
(** ** Import                                                         *)
(* ================================================================== *)

Lemma get_missing k data :
  missing_key k data ->
  JS.get data k = JS.Ok JS.VUndef \/ JS.get data k = JS.TypeError.
Proof.
  destruct data; simpl; auto.
  intros ->. auto.
Qed.

Lemma get_total_after data k k' v :
  JS.get data k = JS.Ok v -> exists v', JS.get data k' = JS.Ok v'.
Proof.
  destruct data; simpl; try discriminate; eauto.
  intros _. destruct (JS.lookup k' l); eauto.
Qed.

(** C6 (as amended): the editor's import rejects every payload without
    a [version] key, and every payload with neither [frame] nor
    [frames]: it ends in an alert and the frame store is the one it
    started with.  The renderer's [loadFrames] checks no version: an
    object payload is treated the same with and without a [version]
    key; the frames of a payload without [version] replace the
    renderer's frames; and an object payload with neither [frame] nor
    [frames] raises no failure and leaves the frames as they are (the
    first of them is loaded again). *)
Theorem import_version_check :
  (forall data fs,
      missing_key "version" data ->
      rejected fs (Editor.handleFrameImport data fs))
  /\
  (forall data fs,
      missing_key "frame" data -> missing_key "frames" data ->
      rejected fs (Editor.handleFrameImport data fs))
  /\
  (forall o version fields s,
      Renderer.loadFrames o (JS.VObj (("version"%string, version) :: fields)) s
      = Renderer.loadFrames o (JS.VObj fields) s)
  /\
  (forall o fields l fs s,
      JS.lookup "version" fields = None ->
      JS.lookup "frame" fields = None ->
      JS.lookup "frames" fields = Some (JS.VArr l) ->
      JS.mapM Renderer._normalizeFrame l = JS.Ok fs ->
      Renderer.loadFrames o (JS.VObj fields) s
      = if (0 <? length fs)%nat
        then Renderer._loadFrame o 0 (Renderer.set_frames fs s)
        else JS.Ok (Renderer.set_frames fs s))
  /\
  (forall o fields s,
      JS.lookup "frame" fields = None ->
      JS.lookup "frames" fields = None ->
      Renderer.loadFrames o (JS.VObj fields) s
      = if (0 <? length (Renderer.frames s))%nat
        then Renderer._loadFrame o 0 s
        else JS.Ok s).
Proof.
  split; [|split; [|split; [|split]]].
  - intros data fs H. unfold rejected, Editor.handleFrameImport.
    destruct (get_missing _ _ H) as [-> | ->]; simpl; eauto.
  - intros data fs Hf Hfs. unfold rejected, Editor.handleFrameImport.
    destruct (JS.get data "version") as [version| |] eqn:Hv; simpl; eauto.
    destruct (JS.truthy version); simpl; eauto.
    destruct (get_missing _ _ Hf) as [-> | E];
      [| destruct (get_total_after _ _ "frame"%string _ Hv); congruence].
    destruct (get_missing _ _ Hfs) as [-> | E];
      [| destruct (get_total_after _ _ "frames"%string _ Hv); congruence].
    simpl; eauto.
  - intros o version fields s. reflexivity.
  - intros o fields l fs s _ Hf Hfs Hn.
    unfold Renderer.loadFrames. simpl. rewrite Hf. simpl.
    rewrite Hfs. simpl. rewrite Hn. reflexivity.
  - intros o fields s Hf Hfs.
    unfold Renderer.loadFrames. simpl. rewrite Hf. simpl.
    rewrite Hfs. reflexivity.
Qed.

Lemma import_version_check_witness :
  rejected [frameA] (Editor.handleFrameImport scenarioD_payload [frameA])
  /\
  rejected [frameA]
    (Editor.handleFrameImport
       (JS.VObj [("version"%string, JS.VStr "1.0")]) [frameA])
  /\
  Renderer.loadFrames default_options
    (JS.VObj [("version"%string, JS.VStr "1.0")])
    (renderer_state [] [])
  = JS.Ok (renderer_state [] []).
Proof.
  destruct import_version_check as (V & F & _ & _ & N).
  split; [|split].
  - apply (V scenarioD_payload [frameA]). reflexivity.
  - apply (F (JS.VObj [("version"%string, JS.VStr "1.0")]) [frameA]);
      reflexivity.
  - apply (N default_options [("version"%string, JS.VStr "1.0")]
             (renderer_state [] [])); reflexivity.
Defined.

(** C6 (as stated) fails for the renderer: [loadFrames] accepts the
    payload of Scenario D, which has no [version] key, and the two
    frames the renderer held are replaced by the one of the payload. *)
Lemma renderer_accepts_missing_version :
  missing_key "version" scenarioD_payload /\
  exists s',
    Renderer.loadFrames default_options scenarioD_payload
      (renderer_state [] [rframeA; rframeB]) = JS.Ok s' /\
    length (Renderer.frames s') = 1%nat /\
    Renderer.frames s' <> [rframeA; rframeB].
Proof.
  split; [reflexivity|].
  eexists. split; [reflexivity|]. split; [reflexivity|].
  simpl. discriminate.
Qed.

(** The message of the version check, for an object payload. *)
Remark missing_version_message fields fs :
  JS.lookup "version" fields = None ->
  Editor.handleFrameImport (JS.VObj fields) fs
  = (fs, Editor.InvalidFormat "Invalid file format: missing version").
Proof.
  intro H. unfold Editor.handleFrameImport. simpl. rewrite H. reflexivity.
Qed.


Lemma get_inv_undef (p : JS.value) k v :
  JS.get p k = JS.Ok v -> JS.get p k = JS.Ok JS.VUndef -> v = JS.VUndef.
Proof. congruence. Qed.

Ltac bind_inv H :=
  repeat match type of H with
         | JS.bind ?m _ = JS.Ok _ =>
             let E := fresh "E" in
             destruct m eqn:E; simpl in H; try discriminate H
         end.

(** C7 (as amended): an absent [z] becomes 0 at the import boundary (in
    the renderer when the legacy [baseZ] is absent too).  Absent colour
    fields become 74, 222, 128 at the boundary in the renderer's
    [_normalizeFrame]; the editor's [importSingleFrame] stores them as
    absent, and the readers of a stored point, [setMorphTarget] and
    [exportAllFrames], put 74, 222, 128 in their place.  Importing
    Scenario B yields exactly one new frame named X with one point at
    (1, 1, 0), its colour (74, 222, 128) in the renderer and absent in
    the editor's store. *)
Theorem import_defaults :
  (forall p pt,
      Editor.importPoint p = JS.Ok pt ->
      JS.get p "x" = JS.Ok (Editor.pt_targetX pt) /\
      JS.get p "y" = JS.Ok (Editor.pt_targetY pt) /\
      JS.get p "r" = JS.Ok (Editor.pt_r pt) /\
      JS.get p "g" = JS.Ok (Editor.pt_g pt) /\
      JS.get p "b" = JS.Ok (Editor.pt_b pt) /\
      (JS.get p "z" = JS.Ok JS.VUndef -> Editor.pt_baseZ pt = JS.VNum 0))
  /\
  (forall pt q q',
      Editor.setMorphTarget (Some pt) q = JS.Ok q' ->
      (Editor.pt_r pt = JS.VUndef -> Editor.morphTargetR q' = 74) /\
      (Editor.pt_g pt = JS.VUndef -> Editor.morphTargetG q' = 222) /\
      (Editor.pt_b pt = JS.VUndef -> Editor.morphTargetB q' = 128))
  /\
  (forall pt,
      (Editor.pt_r pt = JS.VUndef ->
       JS.get (Editor.exportPoint pt) "r" = JS.Ok (JS.VNum 74)) /\
      (Editor.pt_g pt = JS.VUndef ->
       JS.get (Editor.exportPoint pt) "g" = JS.Ok (JS.VNum 222)) /\
      (Editor.pt_b pt = JS.VUndef ->
       JS.get (Editor.exportPoint pt) "b" = JS.Ok (JS.VNum 128)))
  /\
  (forall p pt,
      Renderer.normalizePoint p = JS.Ok pt ->
      (JS.get p "r" = JS.Ok JS.VUndef -> Renderer.pt_r pt = JS.VNum 74) /\
      (JS.get p "g" = JS.Ok JS.VUndef -> Renderer.pt_g pt = JS.VNum 222) /\
      (JS.get p "b" = JS.Ok JS.VUndef -> Renderer.pt_b pt = JS.VNum 128) /\
      (JS.get p "z" = JS.Ok JS.VUndef ->
       JS.get p "baseZ" = JS.Ok JS.VUndef ->
       Renderer.pt_z pt = JS.VNum 0))
  /\
  (forall fs,
      Editor.handleFrameImport scenarioB_payload fs
      = (fs ++ [Editor.mkFrame (JS.VStr "X")
                  [Editor.mkFramePoint (JS.VNum 1) (JS.VNum 1) (JS.VNum 0)
                     JS.VUndef JS.VUndef JS.VUndef] 1],
         Editor.ImportComplete))
  /\
  (forall o s,
      exists s',
        Renderer.loadFrames o scenarioB_payload s = JS.Ok s' /\
        Renderer.frames s'
        = [Renderer.mkFrame (JS.VStr "X") [renderer_point 1 1 0 74 222 128]]).
Proof.
  split; [|split; [|split; [|split; [|split]]]].
  - intros p pt H. unfold Editor.importPoint in H. bind_inv H.
    injection H as <-. simpl. repeat split; try reflexivity.
    intro Hz. injection Hz as ->. reflexivity.
  - intros [tx ty tz cr cg cb] q q' H.
    unfold Editor.setMorphTarget in H. simpl in H. bind_inv H.
    injection H as <-. simpl.
    repeat split; intro Hu; subst; simpl in *; congruence.
  - intros [tx ty tz cr cg cb]. simpl.
    repeat split; intros ->; reflexivity.
  - intros p pt H. unfold Renderer.normalizePoint in H. bind_inv H.
    injection H as <-. simpl.
    repeat split; intros; repeat match goal with
                          | Hq : JS.Ok _ = JS.Ok JS.VUndef |- _ =>
                              injection Hq as ->
                          end; reflexivity.
  - intros fs. reflexivity.
  - intros o s. eexists. split; reflexivity.
Qed.

Lemma as_num_or_zero (v : R) :
  JS.as_num (JS.or_else (JS.VNum v) (JS.VNum 0)) = JS.Ok v.
Proof.
  unfold JS.or_else. simpl.
  destruct (Req_EM_T v 0) as [->|_]; reflexivity.
Qed.

Lemma setMorphTarget_scenarioB :
  Editor.setMorphTarget (Some scenarioB_stored_point) anchored_particle
  = JS.Ok anchored_particle_targeted.
Proof.
  unfold Editor.setMorphTarget, scenarioB_stored_point. simpl.
  rewrite as_num_or_zero. reflexivity.
Qed.

Lemma import_defaults_witness :
  (Editor.pt_baseZ scenarioB_stored_point = JS.VNum 0 /\
   Editor.pt_r scenarioB_stored_point = JS.VUndef)
  /\
  Editor.morphTargetR anchored_particle_targeted = 74
  /\
  JS.get (Editor.exportPoint scenarioB_stored_point) "r" = JS.Ok (JS.VNum 74)
  /\
  (Renderer.normalizePoint scenarioB_raw_point
   = JS.Ok (renderer_point 1 1 0 74 222 128) /\
   Renderer.pt_r (renderer_point 1 1 0 74 222 128) = JS.VNum 74 /\
   Renderer.pt_z (renderer_point 1 1 0 74 222 128) = JS.VNum 0).
Proof.
  destruct import_defaults as (E1 & E2 & E3 & R1 & _ & _).
  split; [|split; [|split]].
  - destruct (E1 scenarioB_raw_point scenarioB_stored_point eq_refl)
      as (_ & _ & Hr & _ & _ & Hz).
    split; [apply Hz; reflexivity | reflexivity].
  - apply (proj1 (E2 scenarioB_stored_point anchored_particle
                    anchored_particle_targeted setMorphTarget_scenarioB)).
    reflexivity.
  - apply (proj1 (E3 scenarioB_stored_point)). reflexivity.
  - destruct (R1 scenarioB_raw_point (renderer_point 1 1 0 74 222 128)
                 eq_refl) as (Hr & _ & _ & Hz).
    split; [reflexivity|].
    split; [apply Hr; reflexivity | apply Hz; reflexivity].
Defined.

(** C7 (as stated) fails in the editor: the frame that importing
    Scenario B adds holds a point whose colour fields are absent, not
    74, 222, 128. *)
Lemma editor_import_stores_no_default_colour :
  exists fr pt,
    Editor.handleFrameImport scenarioB_payload [] = ([fr], Editor.ImportComplete)
    /\ Editor.points fr = [pt]
    /\ Editor.pt_r pt <> JS.VNum 74
    /\ Editor.pt_g pt <> JS.VNum 222
    /\ Editor.pt_b pt <> JS.VNum 128.
Proof.
  eexists. eexists. split; [reflexivity|]. split; [reflexivity|].
  simpl. repeat split; discriminate.
Qed.

(* ================================================================== *)
(** ** Fill-mode sampling                                             *)
(* ================================================================== *)

Section Sampling.
Local Open Scope Z_scope.

(** A [for] loop with a step of at least 1 ends, and visits exactly the
    multiples of the step (counted from the start) below the limit, each
    once. *)
Lemma loop_positions_spec step limit :
  1 <= step ->
  forall fuel i,
    (Z.to_nat (limit - i) <= fuel)%nat ->
    exists l,
      Editor.loop_positions fuel i step limit = Some l /\
      (forall p, In p l <-> i <= p < limit /\ (step | p - i)) /\
      NoDup l.
Proof.
  intros Hstep. induction fuel as [|fuel IH]; intros i Hfuel; simpl.
  - destruct (Z.ltb_spec i limit) as [Hlt|Hge]; [lia|].
    exists []. repeat split; try contradiction; try constructor.
    intros [? _]; lia.
  - destruct (Z.ltb_spec i limit) as [Hlt|Hge].
    + destruct (IH (i + step)) as (l & -> & Hin & Hnd); [lia|].
      exists (i :: l). simpl. split; [reflexivity|]. split.
      * intro p. rewrite Hin. split.
        -- intros [<- | [Hr Hd]].
           ++ split; [lia|]. replace (i - i) with 0 by lia.
              apply Z.divide_0_r.
           ++ split; [lia|].
              replace (p - i) with ((p - (i + step)) + step) by lia.
              apply Z.divide_add_r; [exact Hd | apply Z.divide_refl].
        -- intros [Hr [k Hk]].
           destruct (Z.eq_dec k 0) as [->|Hk0]; [left; lia|].
           right. assert (0 < k) by nia.
           split; [nia|]. exists (k - 1). lia.
      * constructor; [|exact Hnd]. rewrite Hin. lia.
    + exists []. repeat split; try contradiction; try constructor.
      intros [? _]; lia.
Qed.

Lemma for_positions_spec step limit :
  1 <= step ->
  exists l,
    Editor.for_positions step limit = Some l /\
    (forall p, In p l <-> 0 <= p < limit /\ (step | p)) /\
    NoDup l.
Proof.
  intro Hstep. unfold Editor.for_positions.
  destruct (loop_positions_spec step limit Hstep (Z.to_nat limit) 0)
    as (l & Hl & Hin & Hnd); [lia|].
  exists l. split; [exact Hl|]. split; [|exact Hnd].
  intro p. rewrite Hin, Z.sub_0_r. reflexivity.
Qed.

Lemma traverse_total {A B} (f : A -> option B) (g : A -> B) l :
  (forall a, f a = Some (g a)) -> Editor.traverse f l = Some (map g l).
Proof.
  intro H. induction l as [|a l IH]; simpl; [reflexivity|].
  rewrite H, IH. reflexivity.
Qed.

(** With a step of at least 1 the sampler returns: the points of each
    visited row, row after row. *)
Lemma fillSample_returns img step scale :
  1 <= step ->
  exists xs ys,
    Editor.for_positions step (Editor.width img) = Some xs /\
    Editor.for_positions step (Editor.height img) = Some ys /\
    Editor.fillSample img step scale
    = Some (flat_map
              (fun py => flat_map (fun px => Editor.samplePixel img scale px py) xs)
              ys).
Proof.
  intro Hstep.
  destruct (for_positions_spec step (Editor.width img) Hstep) as (xs & Hx & _).
  destruct (for_positions_spec step (Editor.height img) Hstep) as (ys & Hy & _).
  exists xs, ys. repeat split; auto.
  unfold Editor.fillSample. rewrite Hy.
  rewrite (traverse_total _
             (fun py => flat_map (fun px => Editor.samplePixel img scale px py) xs)).
  - simpl. rewrite flat_map_concat_map. reflexivity.
  - intro py. unfold Editor.fillRow. rewrite Hx. reflexivity.
Qed.

End Sampling.

Lemma flat_map_length_pointwise {A B} (f g : A -> list B) l :
  (forall a, (length (f a) <= length (g a))%nat) ->
  (length (flat_map f l) <= length (flat_map g l))%nat.
Proof.
  intro H. induction l as [|a l IH]; simpl; [lia|].
  rewrite !length_app. specialize (H a). lia.
Qed.

Lemma flat_map_length_incl {A B} (f : A -> list B) l2 :
  NoDup l2 ->
  forall l1, incl l2 l1 ->
  (length (flat_map f l2) <= length (flat_map f l1))%nat.
Proof.
  induction 1 as [|a l2 Hnotin Hnd IH]; intros l1 Hincl; simpl; [lia|].
  assert (Ha : In a l1) by (apply Hincl; left; reflexivity).
  destruct (in_split _ _ Ha) as (la & lb & ->).
  assert (Hrest : incl l2 (la ++ lb)).
  { intros b Hb. assert (Hb1 : In b (la ++ a :: lb)) by (apply Hincl; right; exact Hb).
    apply in_app_or in Hb1. apply in_or_app.
    destruct Hb1 as [?|[<-|?]]; auto. contradiction. }
  specialize (IH _ Hrest).
  rewrite flat_map_app in *. simpl.
  repeat rewrite length_app in *. simpl. repeat rewrite length_app. lia.
Qed.

(** C8 (as amended): for a fixed pixel source and strides s1, s2 of at
    least 1 where s1 divides s2, fill-mode sampling returns for both,
    and stride s1 yields at least as many points as stride s2. *)
Theorem fill_sampling_monotone_when_divisible :
  forall img s1 s2 scale,
    (1 <= s1)%Z -> (1 <= s2)%Z -> (s1 | s2)%Z ->
    exists l1 l2,
      Editor.fillSample img s1 scale = Some l1 /\
      Editor.fillSample img s2 scale = Some l2 /\
      (length l2 <= length l1)%nat.
Proof.
  intros img s1 s2 scale H1 H2 Hdiv.
  destruct (fillSample_returns img s1 scale H1) as (xs1 & ys1 & Hx1 & Hy1 & ->).
  destruct (fillSample_returns img s2 scale H2) as (xs2 & ys2 & Hx2 & Hy2 & ->).
  do 2 eexists. split; [reflexivity|]. split; [reflexivity|].
  destruct (for_positions_spec s1 (Editor.width img) H1) as (? & E1 & Hinx1 & _).
  destruct (for_positions_spec s2 (Editor.width img) H2) as (? & E2 & Hinx2 & Hndx2).
  rewrite Hx1 in E1; injection E1 as <-.
  rewrite Hx2 in E2; injection E2 as <-.
  destruct (for_positions_spec s1 (Editor.height img) H1) as (? & E1 & Hiny1 & _).
  destruct (for_positions_spec s2 (Editor.height img) H2) as (? & E2 & Hiny2 & Hndy2).
  rewrite Hy1 in E1; injection E1 as <-.
  rewrite Hy2 in E2; injection E2 as <-.
  assert (Hxs : incl xs2 xs1).
  { intros p Hp. apply Hinx1. apply Hinx2 in Hp.
    split; [tauto|]. apply Z.divide_trans with s2; tauto. }
  assert (Hys : incl ys2 ys1).
  { intros p Hp. apply Hiny1. apply Hiny2 in Hp.
    split; [tauto|]. apply Z.divide_trans with s2; tauto. }
  etransitivity.
  - apply flat_map_length_pointwise. intro py.
    apply (flat_map_length_incl _ xs2 Hndx2 xs1 Hxs).
  - apply (flat_map_length_incl _ ys2 Hndy2 ys1 Hys).
Qed.

Lemma fill_sampling_monotone_when_divisible_witness :
  exists l1 l2,
    Editor.fillSample one_pixel_image 1 1 = Some l1 /\
    Editor.fillSample one_pixel_image 3 1 = Some l2 /\
    (length l2 <= length l1)%nat.
Proof.
  apply (fill_sampling_monotone_when_divisible one_pixel_image 1 3 1);
    [lia | lia | exists 3%Z; reflexivity].
Defined.

(** C8 (as stated) fails: on a 4 x 1 image whose only visible pixel is at
    x = 3, stride 2 visits x = 0, 2 and yields no point, stride 3 visits
    x = 0, 3 and yields one. *)
Lemma fill_sampling_not_monotone :
  exists l1 l2,
    (2 < 3)%Z /\
    Editor.fillSample one_pixel_image 2 1 = Some l1 /\
    Editor.fillSample one_pixel_image 3 1 = Some l2 /\
    (length l1 < length l2)%nat.
Proof.
  do 2 eexists. split; [lia|].
  split; [reflexivity|]. split; [reflexivity|]. simpl. lia.
Qed.

(* ================================================================== *)
(** ** The finalizing tick of a morph                                 *)
(* ================================================================== *)

Lemma round_IZR (n : Z) : JS.round (IZR n) = n.
Proof. unfold JS.round. apply Zfloor_eq. lra. Qed.


Lemma editor_ease_one : Editor.ease 1 = 1.
Proof.
  unfold Editor.ease. destruct (Rlt_dec 1 0.5) as [H|_]; [lra|].
  simpl. lra.
Qed.


Lemma editor_lerp_one a c : Editor.lerp a c 1 = c.
Proof. unfold Editor.lerp. ring. Qed.


(** [update] writes [x], [y], [vx], [vy] and [currentZ] only. *)
Lemma update_keeps env time p :
  let p' := Editor.update env time p in
  particle_place p' = particle_place p /\
  morph_target p' = morph_target p /\
  Editor.markedForRemoval p' = Editor.markedForRemoval p.
Proof.
  unfold Editor.update.
  destruct (_ && _); [destruct (Editor.hasTarget p)|];
    try destruct (Editor.angles env time) as [[? ?] ?];
    simpl; auto.
Qed.


Lemma updateMorph_final p :
  particle_place (Editor.updateMorph 1 p)
  = (Editor.morphTargetX p, Editor.morphTargetY p, Editor.morphTargetZ p,
     (IZR (JS.round (Editor.morphTargetR p)),
      IZR (JS.round (Editor.morphTargetG p)),
      IZR (JS.round (Editor.morphTargetB p)))).
Proof.
  unfold particle_place, Editor.updateMorph. simpl.
  rewrite editor_ease_one, !editor_lerp_one. reflexivity.
Qed.

Lemma editor_insert_perm p l :
  Permutation (Editor.insert_by_depth p l) (p :: l).
Proof.
  induction l as [|q l IH]; simpl; [reflexivity|].
  destruct (Rle_dec _ _); [reflexivity|].
  rewrite IH. apply perm_swap.
Qed.

Lemma editor_sort_perm l : Permutation (Editor.depth_sort l) l.
Proof.
  induction l as [|p l IH]; simpl; [reflexivity|].
  rewrite editor_insert_perm. constructor. exact IH.
Qed.

Lemma renderer_insert_perm p l :
  Permutation (Renderer.insert_by_depth p l) (p :: l).
Proof.
  induction l as [|q l IH]; simpl; [reflexivity|].
  destruct (Rle_dec _ _); [reflexivity|].
  rewrite IH. apply perm_swap.
Qed.

Lemma renderer_sort_perm l : Permutation (Renderer.depth_sort l) l.
Proof.
  induction l as [|p l IH]; simpl; [reflexivity|].
  rewrite renderer_insert_perm. constructor. exact IH.
Qed.

(** The particles after a tick, case by case. *)
Lemma animate_particles env s :
  Editor.particles (Editor.animate env s)
  = Editor.depth_sort
      (map (Editor.update env (S (Editor.animTime s)))
         (if Editor.isMorphing s then
            if Rge_dec (Editor.morphProgress s + Editor.morphSpeed env) 1
            then map (Editor.updateMorph 1) (Editor.purge (Editor.particles s))
            else map (Editor.updateMorph
                        (Editor.morphProgress s + Editor.morphSpeed env))
                     (Editor.particles s)
          else Editor.particles s)).
Proof.
  unfold Editor.animate.
  destruct (Editor.isMorphing s); [destruct (Rge_dec _ _)|]; reflexivity.
Qed.

Lemma animate_flags env s :
  (Editor.isMorphing (Editor.animate env s),
   Editor.morphProgress (Editor.animate env s))
  = (if Editor.isMorphing s then
       if Rge_dec (Editor.morphProgress s + Editor.morphSpeed env) 1
       then (false, 1)
       else (true, Editor.morphProgress s + Editor.morphSpeed env)
     else (false, Editor.morphProgress s)).
Proof.
  unfold Editor.animate.
  destruct (Editor.isMorphing s); [destruct (Rge_dec _ _)|]; reflexivity.
Qed.

Lemma pair_eq_inv {A B} (a a' : A) (b b' : B) :
  (a, b) = (a', b') -> a = a' /\ b = b'.
Proof. intro H; injection H; auto. Qed.



Lemma map_morph_target_tick env time t l :
  map morph_target (map (Editor.update env time) (map (Editor.updateMorph t) l))
  = map morph_target l.
Proof.
  rewrite !map_map. apply map_ext. intro q.
  destruct (update_keeps env time (Editor.updateMorph t q)) as (_ & -> & _).
  reflexivity.
Qed.

(** The renderer's counterparts. *)
Lemma transformParticle_keeps o a p :
  let p' := Renderer.transformParticle o a p in
  (Renderer.baseX p', Renderer.baseY p', Renderer.baseZ p',
   (Renderer.r p', Renderer.g p', Renderer.b p'))
  = (Renderer.baseX p, Renderer.baseY p, Renderer.baseZ p,
     (Renderer.r p, Renderer.g p, Renderer.b p)) /\
  rmorph_target p' = rmorph_target p /\
  Renderer.remove p' = Renderer.remove p.
Proof. destruct a as [[? ?] ?]. simpl. auto. Qed.


Lemma map_rmorph_target_tick o a t l :
  map rmorph_target (map (Renderer.transformParticle o a)
                       (map (Renderer.morphStep t) l))
  = map rmorph_target l.
Proof.
  rewrite !map_map. apply map_ext. intro q.
  destruct a as [[? ?] ?]. reflexivity.
Qed.

(** *** The endpoint of a morph in double precision *)

(** [update] writes the screen position, the velocity and the depth: the
    base position, the colour and the morph fields stay. *)
Lemma update_keeps_morph env time p :
  let p' := Editor.update env time p in
  particle_place p' = particle_place p /\
  morph_target p' = morph_target p /\
  morph_start p' = morph_start p.
Proof.
  unfold Editor.update.
  destruct (_ && _); [destruct (Editor.hasTarget p)|];
    try destruct (Editor.angles env time) as [[? ?] ?];
    simpl; auto.
Qed.

Lemma transformParticle_keeps_morph o a p :
  let p' := Renderer.transformParticle o a p in
  rparticle_place p' = rparticle_place p /\
  rmorph_target p' = rmorph_target p /\
  rmorph_start p' = rmorph_start p.
Proof. destruct a as [[? ?] ?]. simpl. auto. Qed.

Section MorphEndpoint.

Variable rnd : R -> R.
Variable pow3 : R -> R.

(** What the development uses of double arithmetic: rounding a double
    gives it back, the whole numbers up to 2^53 are doubles, and
    [Math.pow(0, 3)] is 0. *)
Hypothesis rnd_idempotent : forall v, rnd (rnd v) = rnd v.
Hypothesis rnd_whole :
  forall n : Z, (Z.abs n <= 2 ^ 53)%Z -> rnd (IZR n) = IZR n.
Hypothesis pow3_zero : pow3 0 = 0.

Lemma double_ease_one : Double.ease rnd pow3 1 = 1.
Proof.
  unfold Double.ease, Double.sub, Double.div, Double.add, Double.mul.
  destruct (Rlt_dec 1 0.5) as [H|_]; [lra|].
  replace (-2 * 1) with (IZR (-2)) by lra.
  rewrite (rnd_whole (-2)) by (simpl; lia).
  replace (IZR (-2) + 2) with (IZR 0) by lra.
  rewrite (rnd_whole 0) by (simpl; lia).
  rewrite pow3_zero.
  replace (0 / 2) with (IZR 0) by lra.
  rewrite (rnd_whole 0) by (simpl; lia).
  replace (1 - IZR 0) with (IZR 1) by lra.
  apply (rnd_whole 1). simpl. lia.
Qed.

Lemma double_lerp_one a c :
  Double.lerp rnd a c 1 = rnd (a + rnd (c - a)).
Proof.
  unfold Double.lerp, Double.add, Double.mul, Double.sub.
  rewrite Rmult_1_r, rnd_idempotent. reflexivity.
Qed.

Lemma double_lerp_lands a c : lands rnd a c (Double.lerp rnd a c 1).
Proof.
  split; [apply double_lerp_one|].
  unfold representable. intros Hd Hc.
  rewrite double_lerp_one, Hd.
  replace (a + (c - a)) with c by ring. exact Hc.
Qed.

Lemma double_colour_lands a c :
  whole_byte a -> whole_byte c ->
  IZR (JS.round (Double.lerp rnd a c 1)) = c.
Proof.
  intros (n & Hn & ->) (m & Hm & ->).
  rewrite double_lerp_one, <- minus_IZR.
  rewrite (rnd_whole (m - n)) by lia.
  rewrite <- plus_IZR. replace (n + (m - n))%Z with m by lia.
  rewrite (rnd_whole m) by lia.
  rewrite round_IZR. reflexivity.
Qed.

Lemma double_finalized env time q :
  let p := Editor.update env time (Double.updateMorph rnd pow3 1 q) in
  morph_fields p = morph_fields q /\ endpoint rnd p.
Proof.
  intro p.
  destruct (update_keeps_morph env time (Double.updateMorph rnd pow3 1 q))
    as (Hp & Ht & Hs).
  fold p in Hp, Ht, Hs.
  split; [unfold morph_fields; rewrite Ht, Hs; reflexivity|].
  unfold particle_place in Hp. unfold morph_target in Ht.
  unfold morph_start in Hs. simpl in Hp, Ht, Hs.
  injection Hp as Bx By Bz Cr Cg Cb.
  injection Ht as Tx Ty Tz Tr Tg Tb.
  injection Hs as Sx Sy Sz Sr Sg Sb.
  unfold endpoint.
  rewrite Bx, By, Bz, Cr, Cg, Cb, Tx, Ty, Tz, Tr, Tg, Tb,
    Sx, Sy, Sz, Sr, Sg, Sb, double_ease_one.
  repeat split; try apply double_lerp_one;
    try (apply double_colour_lands; assumption);
    apply (proj2 (double_lerp_lands _ _)).
Qed.

Lemma double_rfinalized o a q :
  let p := Renderer.transformParticle o a
             (Double.morphStep rnd (Double.ease rnd pow3 1) q) in
  rmorph_fields p = rmorph_fields q /\ rendpoint rnd p.
Proof.
  destruct a as [[? ?] ?]. simpl. rewrite double_ease_one.
  split; [reflexivity|].
  unfold rendpoint. simpl.
  repeat split; try apply double_lerp_one;
    try (apply double_colour_lands; assumption);
    apply (proj2 (double_lerp_lands _ _)).
Qed.

(** C1 (as amended): on the tick on which the interpolation parameter
    reaches or exceeds 1 it is set to 1, the morph ends, and the
    surviving particles are those not marked for removal, with the
    morph starts and targets they had.  Each base coordinate of a
    survivor is then the double nearest to start + d, d the double
    nearest to target - start: the morph target itself whenever
    target - start and target are doubles.  Each colour channel equals the target channel when start
    and target channel are whole numbers from 0 to 255.  In the editor
    and in the renderer, for every rounding that leaves doubles alone
    and has the whole numbers up to 2^53 among them. *)
Theorem morph_endpoint_up_to_rounding :
  (forall env s,
      Editor.isMorphing s = true ->
      Double.add rnd (Editor.morphProgress s) (Editor.morphSpeed env) >= 1 ->
      let s' := Double.animate rnd pow3 env s in
      Editor.morphProgress s' = 1 /\
      Editor.isMorphing s' = false /\
      Permutation (map morph_fields (Editor.particles s'))
                  (map morph_fields (Editor.purge (Editor.particles s))) /\
      Forall (endpoint rnd) (Editor.particles s'))
  /\
  (forall o s,
      Renderer.running s = true ->
      Renderer._morphing s = true ->
      Double.add rnd (Renderer._morphProgress s) (Renderer.morphSpeed o) >= 1 ->
      let s' := Double._animate rnd pow3 o s in
      Renderer._morphProgress s' = 1 /\
      Renderer._morphing s' = false /\
      Permutation (map rmorph_fields (Renderer.particles s'))
                  (map rmorph_fields
                     (filter (fun p => negb (Renderer.remove p))
                        (Renderer.particles s))) /\
      Forall (rendpoint rnd) (Renderer.particles s')).
Proof.
  split.
  - intros env s Hm Hp s'.
    assert (Hs' : s' =
      Editor.mkState (S (Editor.animTime s))
        (Editor.depth_sort
           (map (Editor.update env (S (Editor.animTime s)))
              (map (Double.updateMorph rnd pow3 1)
                 (Editor.purge (Editor.particles s)))))
        (Editor.frames s) (Editor.currentFrameIndex s) false 1
        (Editor.rng s)).
    { unfold s', Double.animate. rewrite Hm.
      destruct (Rge_dec _ _) as [_|Hn]; [reflexivity | contradiction]. }
    rewrite Hs'. simpl.
    split; [reflexivity|]. split; [reflexivity|]. split.
    + rewrite (Permutation_map morph_fields (editor_sort_perm _)).
      rewrite !map_map. apply Permutation_refl'. apply map_ext. intro q.
      apply (proj1 (double_finalized env _ q)).
    + apply Forall_forall. intros p Hin.
      apply (Permutation_in _ (editor_sort_perm _)) in Hin.
      apply in_map_iff in Hin. destruct Hin as (q1 & <- & Hin).
      apply in_map_iff in Hin. destruct Hin as (q & <- & _).
      apply (proj2 (double_finalized env _ q)).
  - intros o s Hrun Hm Hp s'.
    assert (Hs' : s' =
      Renderer.mkState
        (Renderer.depth_sort
           (map (Renderer.transformParticle o
                   (Renderer.angles o s (S (Renderer.animTime s))))
              (map (Double.morphStep rnd (Double.ease rnd pow3 1))
                 (filter (fun p => negb (Renderer.remove p))
                    (Renderer.particles s)))))
        (Renderer.frames s) (Renderer.currentFrame s) (Renderer.running s)
        (S (Renderer.animTime s)) false 1
        (Renderer._staticRotX s) (Renderer._staticRotY s)
        (Renderer._staticRotZ s) (Renderer.rng s)).
    { unfold s', Double._animate. rewrite Hrun, Hm. simpl.
      destruct (Rge_dec _ _) as [_|Hn]; [reflexivity | contradiction]. }
    rewrite Hs'. simpl.
    split; [reflexivity|]. split; [reflexivity|]. split.
    + rewrite (Permutation_map rmorph_fields (renderer_sort_perm _)).
      rewrite !map_map. apply Permutation_refl'. apply map_ext. intro q.
      apply (proj1 (double_rfinalized o _ q)).
    + apply Forall_forall. intros p Hin.
      apply (Permutation_in _ (renderer_sort_perm _)) in Hin.
      apply in_map_iff in Hin. destruct Hin as (q1 & <- & Hin).
      apply in_map_iff in Hin. destruct Hin as (q & <- & _).
      apply (proj2 (double_rfinalized o _ q)).
Qed.

End MorphEndpoint.

Lemma integral_IZR (n : Z) : integral (IZR n).
Proof. exists n. reflexivity. Qed.


Lemma morph_endpoint_up_to_rounding_witness :
  (Editor.isMorphing (Double.animate exact cube editor_env morphing_editor)
   = false /\
   forall p,
     In p (Editor.particles
             (Double.animate exact cube editor_env morphing_editor)) ->
     Editor.baseX p = Editor.morphTargetX p /\
     Editor.sourceR p = Editor.morphTargetR p)
  /\
  (Renderer._morphing
     (Double._animate exact cube default_options morphing_renderer) = false /\
   forall p,
     In p (Renderer.particles
             (Double._animate exact cube default_options morphing_renderer)) ->
     Renderer.baseX p = Renderer.morphTargetX p /\
     Renderer.r p = Renderer.morphTargetR p).
Proof.
  assert (Hid : forall v, exact (exact v) = exact v) by reflexivity.
  assert (Hw : forall n : Z, (Z.abs n <= 2 ^ 53)%Z -> exact (IZR n) = IZR n)
    by reflexivity.
  assert (Hc : cube 0 = 0) by (unfold cube; simpl; ring).
  split.
  - destruct (proj1 (morph_endpoint_up_to_rounding exact cube Hid Hw Hc)
                editor_env morphing_editor) as (_ & Hidle & Hperm & Hall).
    + reflexivity.
    + unfold Double.add, exact. simpl. lra.
    + split; [exact Hidle|]. intros p Hin.
      assert (Hf : morph_fields p
                   = ((0, 0, 0, (1, 2, 3)), (10, 10, 0, (4, 5, 6)))).
      { assert (Hin' : In (morph_fields p)
                          (map morph_fields
                             (Editor.purge (Editor.particles morphing_editor)))).
        { apply (Permutation_in _ Hperm). apply in_map. exact Hin. }
        simpl in Hin'. destruct Hin' as [<-|[]]. reflexivity. }
      unfold morph_fields, morph_start, morph_target in Hf.
      injection Hf as Sx Sy Sz Sr Sg Sb Tx Ty Tz Tr Tg Tb.
      destruct (proj1 (Forall_forall _ _) Hall p Hin)
        as ((_ & Hx) & _ & _ & Hr & _ & _).
      split; [apply Hx; reflexivity|].
      apply Hr; [rewrite Sr; exists 1%Z | rewrite Tr; exists 4%Z];
        (split; [lia | reflexivity]).
  - destruct (proj2 (morph_endpoint_up_to_rounding exact cube Hid Hw Hc)
                default_options morphing_renderer)
      as (_ & Hidle & Hperm & Hall).
    + reflexivity.
    + reflexivity.
    + unfold Double.add, exact. simpl. lra.
    + split; [exact Hidle|]. intros p Hin.
      assert (Hf : rmorph_fields p
                   = ((50, 50, 0, (1, 2, 3)), (60, 60, 0, (4, 5, 6)))).
      { assert (Hin' : In (rmorph_fields p)
                          (map rmorph_fields
                             (filter (fun q => negb (Renderer.remove q))
                                (Renderer.particles morphing_renderer)))).
        { apply (Permutation_in _ Hperm). apply in_map. exact Hin. }
        simpl in Hin'. destruct Hin' as [<-|[]]. reflexivity. }
      unfold rmorph_fields, rmorph_start, rmorph_target in Hf.
      injection Hf as Sx Sy Sz Sr Sg Sb Tx Ty Tz Tr Tg Tb.
      destruct (proj1 (Forall_forall _ _) Hall p Hin)
        as ((_ & Hx) & _ & _ & Hr & _ & _).
      split; [apply Hx; reflexivity|].
      apply Hr; [rewrite Sr; exists 1%Z | rewrite Tr; exists 4%Z];
        (split; [lia | reflexivity]).
Defined.

Section EndpointOnDoubles.
Import PrimFloat.

(** C1 (as stated) fails: on machine doubles, the tick that completes
    the morph of a particle from x = 400.3 toward x = 12.7 leaves its
    base X at 400.3 + (12.7 - 400.3), which is 12.699999999999989 and
    not its morph target. *)
Lemma morph_endpoint_misses_target :
  exists p,
    Binary64.animate 0.02 finishing_morph = Binary64.mkState [p] false 1 /\
    Binary64.morphTargetX p = 12.7%float /\
    Binary64.baseX p = (400.3 + (12.7 - 400.3))%float /\
    Binary64.baseX p = 12.699999999999989%float /\
    Binary64.baseX p <> Binary64.morphTargetX p.
Proof.
  eexists. split; [vm_compute; reflexivity|].
  split; [reflexivity|]. split; [vm_compute; reflexivity|].
  split; [reflexivity|].
  intro H. apply (f_equal (fun v => PrimFloat.eqb v 12.7)) in H.
  vm_compute in H. discriminate.
Qed.

End EndpointOnDoubles.

(** A target channel that is not a whole number is not reached either:
    the colour passes through [Math.round], and 4.5 ends at 5. *)
Remark fractional_colour_target_rounds :
  forall q,
    Editor.morphTargetR q = 4.5 ->
    Editor.sourceR (Editor.updateMorph 1 q) = 5.
Proof.
  intros q H.
  change (Editor.sourceR (Editor.updateMorph 1 q))
    with (fst (fst (snd (particle_place (Editor.updateMorph 1 q))))).
  rewrite updateMorph_final. simpl. rewrite H.
  replace 5 with (IZR 5) by reflexivity. f_equal.
  unfold JS.round. apply Zfloor_eq. simpl. lra.
Qed.

(* ================================================================== *)
(** ** Settled particles                                              *)
(* ================================================================== *)


Lemma rForall_sorted_map {A} (P : A -> Prop) (Q : Renderer.Particle -> Prop)
  (g : A -> Renderer.Particle) (l : list A) :
  Forall P l -> (forall q, P q -> Q (g q)) ->
  Forall Q (Renderer.depth_sort (map g l)).
Proof.
  intros Hl Hg. apply Forall_forall. intros p Hin.
  apply (Permutation_in _ (renderer_sort_perm _)) in Hin.
  apply in_map_iff in Hin. destruct Hin as (q & <- & Hq).
  apply Hg. revert q Hq. apply Forall_forall. exact Hl.
Qed.






Lemma rForall_filter (P : Renderer.Particle -> Prop) f l :
  Forall P l -> Forall P (filter f l).
Proof.
  intro H. apply Forall_forall. intros p Hin.
  apply filter_In in Hin. destruct Hin as [Hin _].
  revert p Hin. apply Forall_forall. exact H.
Qed.










(** The colour equality does not survive the callers of the constructor
    that assign a sampled colour: the particle that
    [autoAddParticlesFromSVG] makes from a red pixel has colour
    (255, 0, 0) and morph-target colour (74, 222, 128), in the idle
    editor. *)
Remark sampled_particle_not_settled :
  forall random env layer tx ty k,
    let p := fst (Editor.sampledParticle random env layer tx ty
                    (Some (255, 0, 0)) k) in
    particle_colour p = (255, 0, 0) /\
    snd (morph_target p) = (74, 222, 128) /\
    ~ colour_settled p.
Proof.
  intros random env layer tx ty k p.
  assert (Hc : particle_colour p = (255, 0, 0)) by reflexivity.
  assert (Ht : snd (morph_target p) = (74, 222, 128)) by reflexivity.
  split; [exact Hc|]. split; [exact Ht|].
  unfold colour_settled. rewrite Hc, Ht. intro H.
  injection H as H _ _. lra.
Qed.


(* ================================================================== *)
(** ** Particle count across a morph                                  *)
(* ================================================================== *)

(** [Math.floor(Math.random() * n)] is an index below [n]. *)
Lemma random_index_in_range (u : R) (n : nat) :
  0 <= u < 1 -> (0 < n)%nat ->
  exists j, JS.floor (u * INR n) = Z.of_nat j /\ (j < n)%nat.
Proof.
  intros Hu Hn. unfold JS.floor.
  assert (Hpos : 0 < INR n) by (apply lt_0_INR; exact Hn).
  pose proof (Zfloor_bound (u * INR n)) as [Hlo Hhi].
  assert (H0 : (0 <= Zfloor (u * INR n))%Z).
  { apply Zfloor_lub. simpl. nra. }
  assert (H1 : (Zfloor (u * INR n) < Z.of_nat n)%Z).
  { apply lt_IZR. rewrite <- INR_IZR_INZ. nra. }
  exists (Z.to_nat (Zfloor (u * INR n))). split; lia.
Qed.

Lemma at_index_of_nat {A} (l : list A) (j : nat) :
  JS.at_index l (Z.of_nat j) = nth_error l j.
Proof.
  unfold JS.at_index. destruct (Z.ltb_spec (Z.of_nat j) 0); [lia|].
  rewrite Nat2Z.id. reflexivity.
Qed.

Lemma nth_error_in_range {A} (l : list A) (j : nat) :
  (j < length l)%nat -> exists a, nth_error l j = Some a /\ In a l.
Proof.
  intro H. destruct (nth_error l j) as [a|] eqn:E.
  - exists a. split; [reflexivity|]. eapply nth_error_In; exact E.
  - apply nth_error_None in E. lia.
Qed.

Section MorphStart.

Variable random : nat -> R.
Hypothesis random_range : forall k, 0 <= random k < 1.

Lemma spawn_ok env existingCount :
  forall n ps k,
    (0 < existingCount <= length ps)%nat ->
    exists ps' k',
      Editor.spawn random env existingCount n ps k = JS.Ok (ps', k') /\
      length ps' = (length ps + n)%nat.
Proof.
  induction n as [|n IH]; intros ps k Hc; simpl.
  - exists ps, k. split; [reflexivity | lia].
  - destruct (random_index_in_range (random k) existingCount
                (random_range k)) as (j & -> & Hj); [lia|].
    rewrite at_index_of_nat.
    destruct (nth_error_in_range ps j) as (src & -> & _); [lia|].
    match goal with
    | |- context [Editor.spawn random env existingCount n ?l ?k'] =>
        destruct (IH l k') as (ps' & k'' & Hs & Hl)
    end.
    + rewrite length_app. simpl. lia.
    + exists ps', k''. split; [exact Hs|].
      rewrite Hl, length_app. simpl. lia.
Qed.

Lemma colour_field_read v d :
  colour_field v -> integral d ->
  JS.as_num (Editor.defined_or v d) = JS.Ok (read_num v d) /\
  integral (read_num v d).
Proof.
  intros [-> | [c ->]] Hd; simpl; split; auto. exists c. reflexivity.
Qed.

Lemma setMorphTarget_ok pt p :
  well_formed_point pt ->
  exists p',
    Editor.setMorphTarget (Some pt) p = JS.Ok p' /\
    morph_target p' = point_target pt /\
    particle_place p' = particle_place p /\
    Editor.markedForRemoval p' = Editor.markedForRemoval p.
Proof.
  intros ((px & py & pz & Hx & Hy & Hz) & Hr & Hg & Hb).
  unfold Editor.setMorphTarget. rewrite Hx, Hy, Hz. simpl.
  rewrite as_num_or_zero. simpl.
  destruct (colour_field_read _ 74 Hr (integral_IZR 74)) as [-> _].
  destruct (colour_field_read _ 222 Hg (integral_IZR 222)) as [-> _].
  destruct (colour_field_read _ 128 Hb (integral_IZR 128)) as [-> _].
  simpl. eexists. split; [reflexivity|].
  unfold morph_target, point_target, particle_place. simpl.
  rewrite Hx, Hy, Hz. simpl. auto.
Qed.

Lemma setTargets_ok pts :
  pts <> [] -> Forall well_formed_point pts ->
  forall ps i k,
    exists ps' k',
      Editor.setTargets random pts i ps k = JS.Ok (ps', k') /\
      Forall (targets_in pts) ps' /\
      length ps' = length ps /\
      length (Editor.purge ps')
      = (Nat.min (length pts) (i + length ps) - Nat.min (length pts) i)%nat.
Proof.
  intros Hne Hwf. induction ps as [|p rest IH]; intros i k; simpl.
  - exists [], k. repeat split; auto. simpl. rewrite Nat.add_0_r. lia.
  - assert (Hlen : (0 < length pts)%nat)
      by (destruct pts; [contradiction | simpl; lia]).
    destruct (Nat.ltb_spec i (length pts)) as [Hi|Hi].
    + destruct (nth_error_in_range pts i Hi) as (pt & -> & Hin).
      assert (Hpt : well_formed_point pt)
        by (revert pt Hin; apply Forall_forall; exact Hwf).
      destruct (setMorphTarget_ok pt p Hpt) as (p' & -> & Ht & _ & _).
      destruct (IH (S i) k) as (ps' & k' & -> & Hall & Hl & Hc). simpl.
      eexists. eexists. split; [reflexivity|]. split; [|split].
      * constructor; [|exact Hall]. exists pt. auto.
      * simpl. lia.
      * simpl. simpl in Hc. rewrite Hc. lia.
    + destruct (random_index_in_range (random k) (length pts)
                  (random_range k) Hlen) as (j & -> & Hj).
      rewrite at_index_of_nat.
      destruct (nth_error_in_range pts j Hj) as (pt & -> & Hin).
      assert (Hpt : well_formed_point pt)
        by (revert pt Hin; apply Forall_forall; exact Hwf).
      destruct (setMorphTarget_ok pt p Hpt) as (p' & -> & Ht & _ & _).
      destruct (IH (S i) (S k)) as (ps' & k' & -> & Hall & Hl & Hc). simpl.
      eexists. eexists. split; [reflexivity|]. split; [|split].
      * constructor; [|exact Hall]. exists pt. auto.
      * simpl. lia.
      * simpl. simpl in Hc. rewrite Hc. lia.
Qed.

(** From at least one particle toward a frame of at least one
    well-formed point, [morphToFrame] starts a morph in which exactly as
    many particles are unmarked as the frame has points. *)
Lemma morphToFrame_ok env i s f :
  Editor.isMorphing s = false ->
  i <> Editor.currentFrameIndex s ->
  JS.at_index (Editor.frames s) i = Some f ->
  (1 <= length (Editor.particles s))%nat ->
  (1 <= length (Editor.points f))%nat ->
  Forall well_formed_point (Editor.points f) ->
  exists s1,
    Editor.morphToFrame random env i s = JS.Ok s1 /\
    Editor.isMorphing s1 = true /\
    Editor.morphProgress s1 = 0 /\
    Editor.currentFrameIndex s1 = i /\
    morph_invariant (Editor.points f) s1.
Proof.
  intros Hm Hi Hf Hn Hpts Hwf.
  rewrite (editor_guards_pass random env i s f Hm Hi Hf).
  destruct (spawn_ok env (length (Editor.particles s))
              (length (Editor.points f) - length (Editor.particles s))
              (map (Editor.set_marked false) (Editor.particles s))
              (Editor.rng s)) as (ps1 & k1 & -> & Hl1).
  { rewrite length_map. lia. }
  rewrite length_map in Hl1. simpl.
  destruct (setTargets_ok (Editor.points f)) with (ps := ps1) (i := 0%nat)
    (k := k1) as (ps2 & k2 & -> & Hall & Hl2 & Hc); [|exact Hwf|].
  { destruct (Editor.points f); [simpl in Hpts; lia | discriminate]. }
  simpl. eexists. split; [reflexivity|]. simpl.
  do 3 (split; [reflexivity|]).
  unfold morph_invariant. simpl. split; [|exact Hall].
  rewrite Hc. lia.
Qed.

End MorphStart.











Lemma editor_point_well_formed px py pz (cr cg cb : Z) :
  well_formed_point (editor_point px py pz (IZR cr) (IZR cg) (IZR cb)).
Proof.
  split; [exists px, py, pz; auto|].
  repeat split; right; eexists; reflexivity.
Qed.


Section ScenarioCOnDoubles.
Import PrimFloat.


End ScenarioCOnDoubles.

(* ================================================================== *)
(** ** The easing curve and the course of a morph                     *)
(* ================================================================== *)

Lemma cube_le (a c : R) : 0 <= a -> a <= c -> a * a * a <= c * c * c.
Proof.
  intros Ha Hac.
  assert (H1 : a * a <= c * c) by nra.
  assert (H2 : 0 <= a * a) by nra.
  nra.
Qed.

Lemma ease_low (t : R) : t < 0.5 -> Editor.ease t = 4 * t * t * t.
Proof.
  intro H. unfold Editor.ease. destruct (Rlt_dec t 0.5); [reflexivity | lra].
Qed.

Lemma ease_high (t : R) :
  0.5 <= t ->
  Editor.ease t = 1 - ((2 - 2 * t) * (2 - 2 * t) * (2 - 2 * t)) / 2.
Proof.
  intro H. unfold Editor.ease. destruct (Rlt_dec t 0.5); [lra|].
  simpl. field.
Qed.

Lemma ease_range (t : R) : 0 <= t <= 1 -> 0 <= Editor.ease t <= 1.
Proof.
  intros [H0 H1]. destruct (Rlt_dec t 0.5) as [Hl|Hh].
  - rewrite ease_low by exact Hl.
    pose proof (cube_le 0 t (Rle_refl 0) H0).
    pose proof (cube_le t 0.5 H0 (Rlt_le _ _ Hl)). lra.
  - rewrite ease_high by lra.
    pose proof (cube_le 0 (2 - 2 * t)).
    pose proof (cube_le (2 - 2 * t) 1). lra.
Qed.

(** X1: the cubic ease-in-out curve, the same in both files, maps the
    unit interval into itself, fixes its ends and never decreases. *)
Theorem ease_monotone_on_unit_interval :
  Editor.ease 0 = 0 /\ Editor.ease 1 = 1 /\
  (forall t, Renderer.ease t = Editor.ease t) /\
  (forall t, 0 <= t <= 1 -> 0 <= Editor.ease t <= 1) /\
  (forall t u, 0 <= t -> t <= u -> u <= 1 -> Editor.ease t <= Editor.ease u).
Proof.
  split; [rewrite ease_low by lra; ring|].
  split; [exact editor_ease_one|].
  split; [reflexivity|]. split; [exact ease_range|].
  intros t u H0 Htu H1.
  destruct (Rlt_dec t 0.5) as [Ht|Ht]; destruct (Rlt_dec u 0.5) as [Hu|Hu].
  - rewrite !ease_low by assumption. pose proof (cube_le t u H0 Htu). lra.
  - rewrite ease_low by assumption. rewrite ease_high by lra.
    pose proof (cube_le t 0.5 H0 (Rlt_le _ _ Ht)).
    pose proof (cube_le (2 - 2 * u) 1). lra.
  - lra.
  - rewrite !ease_high by lra.
    pose proof (cube_le (2 - 2 * u) (2 - 2 * t)). lra.
Qed.

Lemma ease_monotone_on_unit_interval_witness :
  0 <= Editor.ease 0.25 <= 1 /\ Editor.ease 0.25 <= Editor.ease 0.75.
Proof.
  destruct ease_monotone_on_unit_interval as (_ & _ & _ & Hr & Hm).
  split; [apply Hr; lra | apply Hm; lra].
Defined.

(** X2: the curve is symmetric about its midpoint: the eased value of
    1 - t is 1 minus the eased value of t, for every t. *)
Theorem ease_point_symmetric :
  forall t, Editor.ease (1 - t) = 1 - Editor.ease t.
Proof.
  intro t. destruct (Rlt_dec t 0.5) as [Hl|Hh].
  - rewrite (ease_low t) by exact Hl. rewrite ease_high by lra. field.
  - destruct (Req_EM_T t 0.5) as [->|Hne].
    + replace (1 - 0.5) with 0.5 by lra. rewrite ease_high by lra. lra.
    + rewrite (ease_high t) by lra. rewrite ease_low by lra. field.
Qed.

Lemma idle_stays_idle env n :
  forall s, Editor.isMorphing s = false ->
            Editor.isMorphing (Editor.ticks env n s) = false.
Proof.
  induction n as [|n IH]; intros s H; simpl; [exact H|].
  apply IH. pose proof (animate_flags env s) as Hf. rewrite H in Hf.
  apply pair_eq_inv in Hf. tauto.
Qed.

Lemma ticks_snoc env n :
  forall s, Editor.ticks env (S n) s
            = Editor.animate env (Editor.ticks env n s).
Proof.
  induction n as [|n IH]; intro s; [reflexivity|].
  change (Editor.ticks env (S (S n)) s)
    with (Editor.ticks env (S n) (Editor.animate env s)).
  rewrite IH. reflexivity.
Qed.

Lemma ticks_add env n m :
  forall s, Editor.ticks env (n + m) s
            = Editor.ticks env m (Editor.ticks env n s).
Proof.
  induction n as [|n IH]; intro s; simpl; [reflexivity|]. apply IH.
Qed.

(** The progress of a morph that started at [p0]: below 1 while the
    morph runs, exactly 1 once it has ended. *)
Lemma progress_clamped_step env p0 s :
  0 <= Editor.morphSpeed env ->
  (if Editor.isMorphing s
   then p0 <= Editor.morphProgress s < 1
   else Editor.morphProgress s = 1) ->
  (if Editor.isMorphing (Editor.animate env s)
   then p0 <= Editor.morphProgress (Editor.animate env s) < 1
   else Editor.morphProgress (Editor.animate env s) = 1) /\
  Editor.morphProgress s <= Editor.morphProgress (Editor.animate env s).
Proof.
  intros Hv H. pose proof (animate_flags env s) as Hf.
  destruct (Editor.isMorphing s).
  - destruct (Rge_dec _ _) as [Hge|Hlt]; apply pair_eq_inv in Hf;
      destruct Hf as [-> ->]; split; lra.
  - apply pair_eq_inv in Hf. destruct Hf as [-> ->]. split; lra.
Qed.

(** X4: from the start of a morph on, the morph progress never goes
    back and never exceeds 1: it is below 1 as long as the morph runs
    and exactly 1 once the morph has ended, and an ended morph stays
    ended.  With morph speed 0 the morph never ends. *)
Theorem morph_progress_clamped :
  forall env s,
    Editor.isMorphing s = true ->
    Editor.morphProgress s < 1 ->
    0 <= Editor.morphSpeed env ->
    forall n,
      Editor.morphProgress s <= Editor.morphProgress (Editor.ticks env n s)
      /\
      Editor.morphProgress (Editor.ticks env n s)
      <= Editor.morphProgress (Editor.ticks env (S n) s) /\
      (Editor.isMorphing (Editor.ticks env n s) = true ->
       Editor.morphProgress (Editor.ticks env n s) < 1) /\
      (Editor.isMorphing (Editor.ticks env n s) = false ->
       Editor.morphProgress (Editor.ticks env n s) = 1 /\
       forall m, Editor.isMorphing (Editor.ticks env (n + m) s) = false) /\
      (Editor.morphSpeed env = 0 ->
       Editor.isMorphing (Editor.ticks env n s) = true).
Proof.
  intros env s Hm Hp Hv.
  assert (Hinv : forall n,
             if Editor.isMorphing (Editor.ticks env n s)
             then Editor.morphProgress s
                  <= Editor.morphProgress (Editor.ticks env n s) < 1
             else Editor.morphProgress (Editor.ticks env n s) = 1).
  { induction n as [|n IH].
    - simpl. rewrite Hm. lra.
    - rewrite ticks_snoc.
      apply (progress_clamped_step env _ _ Hv IH). }
  intro n. pose proof (Hinv n) as H.
  split; [|split; [|split; [|split]]].
  - destruct (Editor.isMorphing (Editor.ticks env n s)); lra.
  - rewrite ticks_snoc.
    apply (progress_clamped_step env _ _ Hv H).
  - intro E. rewrite E in H. lra.
  - intro E. rewrite E in H. split; [exact H|].
    intro m. rewrite ticks_add. apply idle_stays_idle. exact E.
  - intro Hz. clear H. induction n as [|n IH]; [exact Hm|].
    rewrite ticks_snoc.
    pose proof (Hinv n) as H. rewrite IH in H.
    pose proof (animate_flags env (Editor.ticks env n s)) as Hf.
    rewrite IH in Hf.
    destruct (Rge_dec _ _) as [Hge|_]; [lra|].
    apply pair_eq_inv in Hf. tauto.
Qed.

Lemma morph_progress_clamped_witness :
  0 <= Editor.morphProgress (Editor.ticks editor_env 60 started_editor) <= 1.
Proof.
  destruct (morph_progress_clamped editor_env started_editor eq_refl
              ltac:(simpl; lra) ltac:(simpl; lra) 60%nat)
    as (Hlo & _ & Hrun & Hend & _).
  change (Editor.morphProgress started_editor) with 0 in Hlo.
  split; [exact Hlo|].
  destruct (Editor.isMorphing (Editor.ticks editor_env 60 started_editor))
    eqn:E.
  - specialize (Hrun eq_refl). lra.
  - destruct (Hend eq_refl) as [H1 _]. lra.
Defined.

(* ================================================================== *)
(** ** More on the rotation                                           *)
(* ================================================================== *)

Section RotationMore.
Import Transform.

Lemma norm_rotX a v :
  vY (rotX a v) * vY (rotX a v) + vZ (rotX a v) * vZ (rotX a v)
  = vY v * vY v + vZ v * vZ v /\ vX (rotX a v) = vX v.
Proof.
  rewrite rotX_plain. simpl. split; [|reflexivity].
  pose proof (sin2_cos2 a) as H. unfold Rsqr in H.
  transitivity ((vY v * vY v + vZ v * vZ v) * (sin a * sin a + cos a * cos a));
    [ring | rewrite H; ring].
Qed.

Lemma norm_rotY a v :
  vX (rotY a v) * vX (rotY a v) + vZ (rotY a v) * vZ (rotY a v)
  = vX v * vX v + vZ v * vZ v /\ vY (rotY a v) = vY v.
Proof.
  rewrite rotY_plain. simpl. split; [|reflexivity].
  pose proof (sin2_cos2 a) as H. unfold Rsqr in H.
  transitivity ((vX v * vX v + vZ v * vZ v) * (sin a * sin a + cos a * cos a));
    [ring | rewrite H; ring].
Qed.

Lemma norm_rotZ a v :
  vX (rotZ a v) * vX (rotZ a v) + vY (rotZ a v) * vY (rotZ a v)
  = vX v * vX v + vY v * vY v /\ vZ (rotZ a v) = vZ v.
Proof.
  rewrite rotZ_plain. simpl. split; [|reflexivity].
  pose proof (sin2_cos2 a) as H. unfold Rsqr in H.
  transitivity ((vX v * vX v + vY v * vY v) * (sin a * sin a + cos a * cos a));
    [ring | rewrite H; ring].
Qed.

Lemma transform_isometry cx cy ax ay az v :
  dist2_from cx cy (transform cx cy ax ay az v) = dist2_from cx cy v.
Proof.
  rewrite transform_split. unfold dist2_from, uncentre. simpl.
  set (v0 := recentre cx cy v).
  destruct (norm_rotZ az (rotY ay (rotX ax v0))) as [Hz1 Hz2].
  destruct (norm_rotY ay (rotX ax v0)) as [Hy1 Hy2].
  destruct (norm_rotX ax v0) as [Hx1 Hx2].
  set (w := rotZ az (rotY ay (rotX ax v0))) in *.
  set (u := rotY ay (rotX ax v0)) in *.
  set (t := rotX ax v0) in *.
  replace ((vX w + cx - cx) * (vX w + cx - cx) + (vY w + cy - cy) * (vY w + cy - cy)
           + vZ w * vZ w)
    with ((vX w * vX w + vY w * vY w) + vZ w * vZ w) by ring.
  rewrite Hz1, Hz2.
  replace (vX u * vX u + vY u * vY u + vZ u * vZ u)
    with ((vX u * vX u + vZ u * vZ u) + vY u * vY u) by ring.
  rewrite Hy1, Hy2.
  replace (vX t * vX t + vZ t * vZ t + vY t * vY t)
    with (vX t * vX t + (vY t * vY t + vZ t * vZ t)) by ring.
  rewrite Hx1, Hx2. unfold v0, recentre. simpl. ring.
Qed.

(** X5: the rotation is rigid: whatever the three angles, a point keeps
    its distance from the rotation centre; and so a particle of the
    renderer is drawn as far from the centre as its base position is,
    its depth never exceeding that distance. *)
Theorem rotation_keeps_distance :
  (forall cx cy ax ay az v,
      dist2_from cx cy (transform cx cy ax ay az v) = dist2_from cx cy v)
  /\
  (forall o a p,
      let cx := Renderer.opt_center (Renderer.centerX o) (Renderer.canvas_width o) in
      let cy := Renderer.opt_center (Renderer.centerY o) (Renderer.canvas_height o) in
      let p' := Renderer.transformParticle o a p in
      dist2_from cx cy (mkVec (Renderer.x p') (Renderer.y p') (Renderer.z p'))
      = dist2_from cx cy
          (mkVec (Renderer.baseX p) (Renderer.baseY p) (Renderer.baseZ p))
      /\
      Renderer.z p' * Renderer.z p'
      <= dist2_from cx cy
           (mkVec (Renderer.baseX p) (Renderer.baseY p) (Renderer.baseZ p))).
Proof.
  split; [exact transform_isometry|].
  intros o [[ax ay] az] p cx cy p'.
  assert (H : dist2_from cx cy (mkVec (Renderer.x p') (Renderer.y p') (Renderer.z p'))
              = dist2_from cx cy
                  (mkVec (Renderer.baseX p) (Renderer.baseY p) (Renderer.baseZ p))).
  { unfold p'. simpl.
    rewrite <- (transform_isometry cx cy ax ay az
                  (mkVec (Renderer.baseX p) (Renderer.baseY p) (Renderer.baseZ p))).
    try (unfold cx, cy; f_equal; apply vec3_eq; reflexivity). }
  split; [exact H|]. rewrite <- H. unfold dist2_from. cbn [vX vY vZ].
  pose proof (Rle_0_sqr (Renderer.x p' - cx)) as Ha.
  pose proof (Rle_0_sqr (Renderer.y p' - cy)) as Hb.
  unfold Rsqr in Ha, Hb. lra.
Qed.

(** X6: two rotations about the same axis add up: turning by b and then
    by a about X (or Y, or Z) is turning by a + b. *)
Theorem same_axis_rotations_add :
  forall a c v,
    rotX a (rotX c v) = rotX (a + c) v /\
    rotY a (rotY c v) = rotY (a + c) v /\
    rotZ a (rotZ c v) = rotZ (a + c) v.
Proof.
  intros a c v. rewrite !rotX_plain, !rotY_plain, !rotZ_plain.
  rewrite cos_plus, sin_plus.
  repeat split; apply vec3_eq; simpl; ring.
Qed.

End RotationMore.

(* ================================================================== *)
(** ** Depth order and the depth range                                *)
(* ================================================================== *)

Lemma editor_insert_sorted p l :
  StronglySorted depth_le l ->
  StronglySorted depth_le (Editor.insert_by_depth p l).
Proof.
  induction 1 as [|q l Hl IH Hq]; simpl.
  - constructor; constructor.
  - destruct (Rle_dec _ _) as [Hle|Hgt].
    + constructor; [constructor; assumption|].
      constructor; [exact Hle|].
      apply Forall_forall. intros c Hc.
      unfold depth_le in *.
      apply Rle_trans with (Editor.currentZ q); [exact Hle|].
      revert c Hc. apply Forall_forall. exact Hq.
    + constructor; [exact IH|].
      apply Forall_forall. intros c Hc.
      apply (Permutation_in _ (editor_insert_perm p l)) in Hc.
      destruct Hc as [<- | Hc].
      * unfold depth_le. lra.
      * revert c Hc. apply Forall_forall. exact Hq.
Qed.

Lemma editor_sort_sorted l : StronglySorted depth_le (Editor.depth_sort l).
Proof.
  induction l as [|p l IH]; simpl; [constructor|].
  apply editor_insert_sorted. exact IH.
Qed.

Lemma renderer_insert_sorted p l :
  StronglySorted rdepth_le l ->
  StronglySorted rdepth_le (Renderer.insert_by_depth p l).
Proof.
  induction 1 as [|q l Hl IH Hq]; simpl.
  - constructor; constructor.
  - destruct (Rle_dec _ _) as [Hle|Hgt].
    + constructor; [constructor; assumption|].
      constructor; [exact Hle|].
      apply Forall_forall. intros c Hc.
      unfold rdepth_le in *.
      apply Rle_trans with (Renderer.z q); [exact Hle|].
      revert c Hc. apply Forall_forall. exact Hq.
    + constructor; [exact IH|].
      apply Forall_forall. intros c Hc.
      apply (Permutation_in _ (renderer_insert_perm p l)) in Hc.
      destruct Hc as [<- | Hc].
      * unfold rdepth_le. lra.
      * revert c Hc. apply Forall_forall. exact Hq.
Qed.

Lemma renderer_sort_sorted l : StronglySorted rdepth_le (Renderer.depth_sort l).
Proof.
  induction l as [|p l IH]; simpl; [constructor|].
  apply renderer_insert_sorted. exact IH.
Qed.

(** X7: after every tick the particle array is in ascending depth order
    (far particles first), in the editor, and in the renderer while it
    runs. *)
Theorem particles_sorted_after_tick :
  (forall env s,
      StronglySorted depth_le (Editor.particles (Editor.animate env s)))
  /\
  (forall o s,
      Renderer.running s = true ->
      StronglySorted rdepth_le (Renderer.particles (Renderer._animate o s))).
Proof.
  split.
  - intros env s. rewrite animate_particles. apply editor_sort_sorted.
  - intros o s Hrun. unfold Renderer._animate. rewrite Hrun. simpl.
    destruct (Renderer._morphing s); [destruct (Rge_dec _ _)|]; simpl;
      apply renderer_sort_sorted.
Qed.

Lemma particles_sorted_after_tick_witness :
  StronglySorted rdepth_le
    (Renderer.particles (Renderer._animate default_options morphing_renderer)).
Proof.
  apply (proj2 particles_sorted_after_tick). reflexivity.
Defined.

Lemma editor_maxAbsZ_attained (ps : list Editor.Particle) (m : R) :
  let f := fun maxZ p =>
             let absZ := Rabs (Editor.currentZ p) in
             if Rgt_dec absZ maxZ then absZ else maxZ in
  fold_left f ps m = m \/
  exists p, In p ps /\ fold_left f ps m = Rabs (Editor.currentZ p).
Proof.
  intro f. revert m. induction ps as [|q ps IH]; intro m; simpl; [auto|].
  destruct (IH (f m q)) as [H | (p & Hin & H)].
  - rewrite H. unfold f. simpl. destruct (Rgt_dec _ _); [|auto].
    right. exists q. auto.
  - right. exists p. auto.
Qed.

(** X8: the depth range [maxZ] of a tick is the largest absolute depth
    among the particles, but never less than 1: it bounds every
    particle's depth and is either 1 or the absolute depth of one of
    them, so the divisions by it are never by zero. *)
Theorem depth_range_floor :
  forall ps,
    1 <= Editor.maxAbsZ ps /\
    (forall p, In p ps -> Rabs (Editor.currentZ p) <= Editor.maxAbsZ ps) /\
    (Editor.maxAbsZ ps = 1 \/
     exists p, In p ps /\ Editor.maxAbsZ ps = Rabs (Editor.currentZ p)).
Proof.
  intro ps. destruct (editor_maxAbsZ_acc ps 1) as [H1 H2].
  split; [exact H1|]. split; [exact H2|].
  apply (editor_maxAbsZ_attained ps 1).
Qed.

Lemma depth_range_floor_witness :
  Rabs (Editor.currentZ anchored_particle)
  <= Editor.maxAbsZ [anchored_particle].
Proof.
  apply (proj1 (proj2 (depth_range_floor [anchored_particle]))).
  left. reflexivity.
Defined.

(* ================================================================== *)
(** ** Palette mapping and drawing                                    *)
(* ================================================================== *)

Lemma nearest_fold cr cg cb l :
  let f := fun (acc : option R * option Editor.RGB) color =>
             let dist := Editor.dist2 cr cg cb color in
             if Editor.below dist (fst acc) then (Some dist, Some color)
             else acc in
  forall m c0,
    Editor.dist2 cr cg cb c0 = m ->
    exists m' c',
      fold_left f l (Some m, Some c0) = (Some m', Some c') /\
      Editor.dist2 cr cg cb c' = m' /\ m' <= m /\
      (c' = c0 \/ In c' l) /\
      (forall c, In c l -> m' <= Editor.dist2 cr cg cb c).
Proof.
  intro f. induction l as [|a l IH]; intros m c0 Hm.
  - exists m, c0. simpl. repeat split; auto; try lra. contradiction.
  - cbn [fold_left].
    assert (Hstep : f (Some m, Some c0) a
                    = if Rlt_dec (Editor.dist2 cr cg cb a) m
                      then (Some (Editor.dist2 cr cg cb a), Some a)
                      else (Some m, Some c0)).
    { unfold f. simpl. destruct (Rlt_dec _ _); reflexivity. }
    rewrite Hstep.
    destruct (Rlt_dec (Editor.dist2 cr cg cb a) m) as [Hlt|Hge].
    + destruct (IH _ a eq_refl) as (m' & c' & E & Hd & Hle & Hin & Hmin).
      exists m', c'. split; [exact E|]. split; [exact Hd|].
      split; [lra|]. split.
      * destruct Hin as [->|Hin]; [right; left; reflexivity | right; right; exact Hin].
      * intros c [<-|Hc]; [lra | auto].
    + destruct (IH m c0 Hm) as (m' & c' & E & Hd & Hle & Hin & Hmin).
      exists m', c'. split; [exact E|]. split; [exact Hd|].
      split; [exact Hle|]. split.
      * destruct Hin as [->|Hin]; [left; reflexivity | right; right; exact Hin].
      * intros c [<-|Hc]; [lra | auto].
Qed.

Lemma nearest_spec cr cg cb palette :
  palette <> [] ->
  exists c,
    Editor.getNearestPaletteColor cr cg cb palette = Some c /\
    In c palette /\
    forall c', In c' palette ->
               Editor.dist2 cr cg cb c <= Editor.dist2 cr cg cb c'.
Proof.
  destruct palette as [|a l]; [contradiction|]. intros _.
  unfold Editor.getNearestPaletteColor. cbn [fold_left nth_error].
  cbn [Editor.below fst].
  destruct (nearest_fold cr cg cb l _ a eq_refl)
    as (m' & c' & E & Hd & Hle & Hin & Hmin).
  cbv zeta in E. rewrite E.
  exists c'. simpl. split; [reflexivity|]. split.
  - destruct Hin as [->|Hin]; auto.
  - intros c [<-|Hc]; rewrite Hd; [exact Hle | auto].
Qed.

Lemma dist2_zero cr cg cb c :
  Editor.dist2 cr cg cb c <= 0 -> c = Editor.mkRGB cr cg cb.
Proof.
  destruct c as [r0 g0 b0]. unfold Editor.dist2. simpl. intro H.
  pose proof (Rle_0_sqr (cr - r0)) as Hr.
  pose proof (Rle_0_sqr (cg - g0)) as Hg.
  pose proof (Rle_0_sqr (cb - b0)) as Hb.
  assert (Er : Rsqr (cr - r0) = 0) by (unfold Rsqr in *; lra).
  assert (Eg : Rsqr (cg - g0) = 0) by (unfold Rsqr in *; lra).
  assert (Eb : Rsqr (cb - b0) = 0) by (unfold Rsqr in *; lra).
  apply Rsqr_0_uniq in Er, Eg, Eb.
  f_equal; lra.
Qed.

(** X9: the palette lookup returns nothing on an empty palette;
    otherwise it returns a colour of the palette at the least squared
    distance from the given one, and a colour that is itself in the
    palette is mapped to itself. *)
Theorem nearest_palette_colour :
  forall cr cg cb palette,
    (palette = [] -> Editor.getNearestPaletteColor cr cg cb palette = None) /\
    (palette <> [] ->
     exists c,
       Editor.getNearestPaletteColor cr cg cb palette = Some c /\
       In c palette /\
       (forall c', In c' palette ->
                   Editor.dist2 cr cg cb c <= Editor.dist2 cr cg cb c')) /\
    (In (Editor.mkRGB cr cg cb) palette ->
     Editor.getNearestPaletteColor cr cg cb palette
     = Some (Editor.mkRGB cr cg cb)).
Proof.
  intros cr cg cb palette. split; [intros ->; reflexivity|].
  split; [apply nearest_spec|].
  intro Hin.
  destruct (nearest_spec cr cg cb palette) as (c & Hc & _ & Hmin).
  { intros ->. contradiction. }
  rewrite Hc. f_equal. apply dist2_zero.
  etransitivity; [apply (Hmin _ Hin)|].
  unfold Editor.dist2. simpl. lra.
Qed.

Lemma nearest_palette_colour_witness :
  Editor.getNearestPaletteColor 170 85 0 Editor.cga
  = Some (Editor.mkRGB 170 85 0).
Proof.
  apply (proj2 (proj2 (nearest_palette_colour 170 85 0 Editor.cga))).
  simpl. do 6 right. left. reflexivity.
Defined.

Lemma smoothing_range d speedVal : 0.02 <= Editor.smoothing d speedVal <= 0.6.
Proof.
  unfold Editor.smoothing, Rmax, Rmin.
  repeat match goal with
         | |- context [Rle_dec ?a ?c] => destruct (Rle_dec a c)
         end; lra.
Qed.

Lemma toward_in_interval lo hi display target s :
  0 <= s <= 1 -> lo <= display <= hi -> lo <= target <= hi ->
  lo <= Editor.toward display target s <= hi.
Proof. unfold Editor.toward. intros. nra. Qed.

(** X10: the smoothing factor of [draw] is always within 0.02..0.6, and
    a smoothed display value ends between its old value and its target,
    the gap to the target shrunk by the factor 1 - smooth. *)
Theorem display_moves_toward_target :
  forall d speedVal display target,
    let s := Editor.smoothing d speedVal in
    0.02 <= s <= 0.6 /\
    between display target (Editor.toward display target s) /\
    Rabs (target - Editor.toward display target s)
    = (1 - s) * Rabs (target - display).
Proof.
  intros d speedVal display target s.
  pose proof (smoothing_range d speedVal) as Hs. fold s in Hs.
  split; [exact Hs|]. split.
  - unfold between, Editor.toward, Rmin, Rmax.
    destruct (Rle_dec display target); nra.
  - unfold Editor.toward.
    replace (target - (display + (target - display) * s))
      with ((1 - s) * (target - display)) by ring.
    rewrite Rabs_mult. rewrite (Rabs_right (1 - s)) by lra. reflexivity.
Qed.

Lemma targetOpacity_range fog maxZ p :
  1 <= Editor.layer p ->
  Rabs (Editor.currentZ p) <= maxZ ->
  0.15 <= Editor.targetOpacity fog maxZ p <= 1.
Proof.
  intros Hl Hz. unfold Editor.targetOpacity.
  assert (Hplain : 0.15 <= Rmax 0.2 (1 - (Editor.layer p - 1) * 0.04) <= 1).
  { unfold Rmax. destruct (Rle_dec _ _); lra. }
  destruct (Rgt_dec maxZ 0) as [Hpos|_]; [|exact Hplain].
  destruct fog; [|exact Hplain].
  assert (Hb : - maxZ <= Editor.currentZ p <= maxZ).
  { unfold Rabs in Hz. destruct (Rcase_abs _); lra. }
  set (n := (Editor.currentZ p + maxZ) / (2 * maxZ)).
  assert (Hn : 0 <= n <= 1).
  { unfold n. split.
    - apply Rmult_le_reg_r with (2 * maxZ); [lra|]. field_simplify; lra.
    - apply Rmult_le_reg_r with (2 * maxZ); [lra|]. field_simplify; lra. }
  assert (Hsq : 0 <= n * n <= 1) by nra.
  unfold Rmax. destruct (Rle_dec _ _); lra.
Qed.

(** X11: [draw] keeps the display fields paintable: with a layer of at
    least 1 and a depth within [maxZ], source colours (or palette
    colours) within 0..255, an opacity within 0.15..1 and colour
    channels within 0..255 stay so. *)
Theorem draw_keeps_display_valid :
  forall d env maxZ p old new,
    Editor.draw d env maxZ p old = JS.Ok new ->
    1 <= Editor.layer p ->
    Rabs (Editor.currentZ p) <= maxZ ->
    valid_rgb (Editor.mkRGB (Editor.sourceR p) (Editor.sourceG p)
                 (Editor.sourceB p)) ->
    (forall colors, Editor.paletteColors d = Some colors ->
                    Forall valid_rgb colors) ->
    valid_display old ->
    valid_display new.
Proof.
  intros d env maxZ p old new Hdraw Hl Hz Hsrc Hpal (Ho & Hr & Hg & Hb).
  unfold Editor.draw in Hdraw.
  match type of Hdraw with
  | JS.bind ?m _ = _ => destruct m as [[[dX dY] ps]| |]; simpl in Hdraw;
                        try discriminate
  end.
  assert (Htarget : forall t,
             (if Editor.useColorPalette d then
                match Editor.paletteColors d with
                | None => JS.TypeError
                | Some colors =>
                    match Editor.getNearestPaletteColor (Editor.sourceR p)
                            (Editor.sourceG p) (Editor.sourceB p) colors with
                    | None => JS.TypeError
                    | Some mappedColor => JS.Ok mappedColor
                    end
                end
              else JS.Ok (Editor.mkRGB (Editor.sourceR p) (Editor.sourceG p)
                            (Editor.sourceB p))) = JS.Ok t ->
             valid_rgb t).
  { intros t Ht. destruct (Editor.useColorPalette d).
    - destruct (Editor.paletteColors d) as [colors|] eqn:Ec; [|discriminate].
      specialize (Hpal colors eq_refl).
      destruct colors as [|a l]; [discriminate|].
      destruct (nearest_spec (Editor.sourceR p) (Editor.sourceG p)
                  (Editor.sourceB p) (a :: l)) as (c & Hc & Hin & _);
        [discriminate|].
      rewrite Hc in Ht. injection Ht as <-.
      clear Hc. revert c Hin. apply Forall_forall. exact Hpal.
    - injection Ht as <-. exact Hsrc. }
  match type of Hdraw with
  | JS.bind ?m _ = _ => destruct m as [t| |] eqn:Et; simpl in Hdraw;
                        try discriminate
  end.
  destruct (Htarget t eq_refl) as (Tr & Tg & Tb).
  injection Hdraw as <-.
  pose proof (smoothing_range d (Editor.speed env)) as Hs.
  pose proof (targetOpacity_range (Editor.useDepthFog d) maxZ p Hl Hz) as Hop.
  unfold valid_display, valid_channel, valid_rgb in *. simpl in *.
  split; [|split; [|split]]; apply toward_in_interval; lra.
Qed.

Lemma cga_valid : Forall valid_rgb Editor.cga.
Proof.
  apply Forall_forall. intros c Hc. unfold Editor.cga in Hc. simpl in Hc.
  repeat (destruct Hc as [<-|Hc];
          [unfold valid_rgb, valid_channel; simpl; lra|]).
  contradiction.
Qed.

Lemma draw_keeps_display_valid_witness :
  exists new,
    Editor.draw plain_settings editor_env 1 anchored_particle initial_display
    = JS.Ok new /\ valid_display new.
Proof.
  eexists. split; [reflexivity|].
  eapply (draw_keeps_display_valid plain_settings editor_env 1
            anchored_particle initial_display).
  - reflexivity.
  - simpl. lra.
  - simpl. rewrite Rabs_R0. lra.
  - unfold valid_rgb, valid_channel. simpl. lra.
  - intros colors H. injection H as <-. exact cga_valid.
  - unfold valid_display, valid_channel. simpl. lra.
Defined.

(* ================================================================== *)
(** ** The frame store                                                *)
(* ================================================================== *)

Lemma or_else_num_zero (v : R) :
  JS.or_else (JS.VNum v) (JS.VNum 0) = JS.VNum v.
Proof.
  unfold JS.or_else. simpl. destruct (Req_EM_T v 0) as [->|_]; reflexivity.
Qed.

Lemma or_else_zero_idem (v : JS.value) :
  JS.or_else (JS.or_else v (JS.VNum 0)) (JS.VNum 0) = JS.or_else v (JS.VNum 0).
Proof.
  unfold JS.or_else at 2 3. destruct (JS.truthy v) eqn:E.
  - unfold JS.or_else. rewrite E. reflexivity.
  - apply or_else_num_zero.
Qed.

(** X12: saving the current particles as a frame does nothing when there
    is no particle; otherwise it appends one frame named "Frame N" that
    holds, point by point, the particles' base positions and colours,
    with a matching point count, and moves the cursor to it; particles
    and morph state are untouched. *)
Theorem addCurrentAsFrame_saves_places :
  forall s,
    (Editor.particles s = [] -> Editor.addCurrentAsFrame s = s) /\
    (Editor.particles s <> [] ->
     let s' := Editor.addCurrentAsFrame s in
     exists f,
       Editor.frames s' = Editor.frames s ++ [f] /\
       Editor.name f
       = JS.VStr (String.append "Frame "
                    (JS.nat_to_string (length (Editor.frames s) + 1))) /\
       map point_target (Editor.points f)
       = map particle_place (Editor.particles s) /\
       Editor.pointCount f = length (Editor.particles s) /\
       Editor.currentFrameIndex s' = Z.of_nat (length (Editor.frames s)) /\
       JS.at_index (Editor.frames s') (Editor.currentFrameIndex s') = Some f /\
       Editor.particles s' = Editor.particles s /\
       Editor.isMorphing s' = Editor.isMorphing s).
Proof.
  intro s. unfold Editor.addCurrentAsFrame. split.
  - intros ->. reflexivity.
  - intro Hne. destruct (Editor.particles s) as [|p ps] eqn:E; [contradiction|].
    eexists. simpl. split; [reflexivity|]. split; [reflexivity|].
    split; [|split; [|split; [|split; [|split]]]].
    + simpl. f_equal. rewrite map_map. reflexivity.
    + simpl. rewrite length_map. reflexivity.
    + rewrite length_app. simpl. lia.
    + rewrite length_app. simpl.
      replace (Z.of_nat (length (Editor.frames s) + 1) - 1)%Z
        with (Z.of_nat (length (Editor.frames s))) by lia.
      rewrite at_index_of_nat. rewrite nth_error_app2 by lia.
      rewrite Nat.sub_diag. reflexivity.
    + exact E.
    + reflexivity.
Qed.

Lemma addCurrentAsFrame_saves_places_witness :
  exists f,
    Editor.frames (Editor.addCurrentAsFrame scenarioA) = [frameA; frameB; f] /\
    map point_target (Editor.points f) = [(0, 0, 0, (1, 2, 3))].
Proof.
  destruct (proj2 (addCurrentAsFrame_saves_places scenarioA))
    as (f & Hf & _ & Hpts & _); [discriminate|].
  exists f. split; [exact Hf | exact Hpts].
Defined.

Lemma import_exported_point pt :
  Editor.importPoint (Editor.exportPoint pt) = JS.Ok (canonical_point pt).
Proof.
  unfold Editor.importPoint, Editor.exportPoint, canonical_point. simpl.
  rewrite or_else_zero_idem. reflexivity.
Qed.

Lemma import_exported_points pts :
  JS.mapM Editor.importPoint (map Editor.exportPoint pts)
  = JS.Ok (map canonical_point pts).
Proof.
  induction pts as [|pt pts IH]; [reflexivity|].
  cbn [map JS.mapM]. rewrite import_exported_point, IH. reflexivity.
Qed.

Lemma import_exported_frame f fs0 :
  JS.truthy (Editor.name f) = true ->
  Editor.importSingleFrame (Editor.exportFrame f) fs0
  = JS.Ok (fs0 ++ [canonical_frame f]).
Proof.
  intro Hn. unfold Editor.importSingleFrame, Editor.exportFrame. simpl.
  rewrite import_exported_points. simpl.
  unfold JS.or_else. rewrite Hn. unfold canonical_frame.
  rewrite length_map. reflexivity.
Qed.

Lemma import_exported_frames fs :
  Forall (fun f => JS.truthy (Editor.name f) = true) fs ->
  forall fs0,
    Editor.importEach (map Editor.exportFrame fs) fs0
    = (fs0 ++ map canonical_frame fs, Editor.ImportComplete).
Proof.
  induction 1 as [|f fs Hf _ IH]; intro fs0; simpl.
  - rewrite app_nil_r. reflexivity.
  - rewrite (import_exported_frame f fs0 Hf). rewrite IH.
    rewrite <- app_assoc. reflexivity.
Qed.

Lemma canonical_point_target pt :
  well_formed_point pt ->
  point_target (canonical_point pt) = point_target pt /\
  well_formed_point (canonical_point pt).
Proof.
  intros ((px & py & pz & Hx & Hy & Hz) & Hr & Hg & Hb).
  destruct pt as [tx ty tz cr cg cb]. simpl in *. subst.
  unfold canonical_point, point_target, well_formed_point. simpl.
  rewrite or_else_num_zero. simpl.
  destruct Hr as [->|[r ->]], Hg as [->|[g ->]], Hb as [->|[b ->]]; simpl;
    (split; [reflexivity|]);
    (split; [exists px, py, pz; auto|]);
    repeat split;
    first [ right; eexists; reflexivity
          | right; exists 74%Z; reflexivity
          | right; exists 222%Z; reflexivity
          | right; exists 128%Z; reflexivity ].
Qed.

(** X13: exporting all saved frames and importing the file again
    appends, in order, one frame per exported frame with the same name
    and the true number of points, every point standing for the same
    position and colour (a missing depth or colour written out as its
    fallback); frame names must be truthy to survive. *)
Theorem export_all_then_import :
  forall exportDate fs fs0,
    fs <> [] ->
    Forall (fun f => JS.truthy (Editor.name f) = true) fs ->
    (exists payload,
        Editor.exportAllFrames exportDate fs = Some payload /\
        Editor.handleFrameImport payload fs0
        = (fs0 ++ map canonical_frame fs, Editor.ImportComplete)) /\
    (forall pt, well_formed_point pt ->
                point_target (canonical_point pt) = point_target pt /\
                well_formed_point (canonical_point pt)).
Proof.
  intros exportDate fs fs0 Hne Hnames. split; [|exact canonical_point_target].
  destruct fs as [|f fs']; [contradiction|].
  eexists. split; [reflexivity|].
  unfold Editor.handleFrameImport. simpl.
  change (Editor.exportFrame f :: map Editor.exportFrame fs')
    with (map Editor.exportFrame (f :: fs')).
  apply (import_exported_frames (f :: fs') Hnames).
Qed.

Lemma export_all_then_import_witness :
  exists payload,
    Editor.exportAllFrames "2024-01-01T00:00:00.000Z" [frameA; frameB]
    = Some payload /\
    Editor.handleFrameImport payload []
    = (map canonical_frame [frameA; frameB], Editor.ImportComplete).
Proof.
  apply (proj1 (export_all_then_import "2024-01-01T00:00:00.000Z"
                  [frameA; frameB] [] ltac:(discriminate)
                  ltac:(repeat constructor))).
Defined.

Lemma import_current_points ps :
  JS.mapM Editor.importPoint
    (map (fun p =>
            JS.VObj [("x", JS.VNum (Editor.baseX p));
                     ("y", JS.VNum (Editor.baseY p));
                     ("z", JS.VNum (Editor.baseZ p));
                     ("r", JS.VNum (Editor.sourceR p));
                     ("g", JS.VNum (Editor.sourceG p));
                     ("b", JS.VNum (Editor.sourceB p))]%string) ps)
  = JS.Ok (map Editor.framePoint ps).
Proof.
  induction ps as [|p ps IH]; [reflexivity|].
  cbn [map JS.mapM]. rewrite IH.
  unfold Editor.importPoint. simpl. rewrite or_else_num_zero. reflexivity.
Qed.

(** X14: exporting the current particles and importing the file appends
    one frame, named "Exported Frame", with exactly the points that
    saving the current particles as a frame stores. *)
Theorem export_current_then_import :
  forall exportDate ps fs0,
    ps <> [] ->
    exists payload,
      Editor.exportCurrentFrame exportDate ps = Some payload /\
      Editor.handleFrameImport payload fs0
      = (fs0 ++ [Editor.mkFrame (JS.VStr "Exported Frame")
                   (map Editor.framePoint ps) (length ps)],
         Editor.ImportComplete).
Proof.
  intros exportDate ps fs0 Hne.
  destruct ps as [|p ps']; [contradiction|].
  eexists. split; [reflexivity|].
  remember (p :: ps') as l eqn:El.
  unfold Editor.handleFrameImport, Editor.importSingleFrame. simpl.
  rewrite import_current_points. simpl.
  rewrite length_map. reflexivity.
Qed.

Lemma export_current_then_import_witness :
  exists payload,
    Editor.exportCurrentFrame "2024-01-01T00:00:00.000Z" [anchored_particle]
    = Some payload /\
    Editor.handleFrameImport payload [frameA]
    = ([frameA;
        Editor.mkFrame (JS.VStr "Exported Frame")
          (map Editor.framePoint [anchored_particle]) 1],
       Editor.ImportComplete).
Proof.
  apply (export_current_then_import "2024-01-01T00:00:00.000Z"
           [anchored_particle] [frameA]). discriminate.
Defined.

Lemma splice1_in_range {A} (i : nat) (l : list A) :
  (i < length l)%nat ->
  Editor.splice1 (Z.of_nat i) l = firstn i l ++ skipn (S i) l /\
  length (Editor.splice1 (Z.of_nat i) l) = (length l - 1)%nat.
Proof.
  intro Hi. unfold Editor.splice1.
  destruct (Z.ltb_spec (Z.of_nat i) 0); [lia|].
  rewrite Z.min_l by lia. rewrite Nat2Z.id. split; [reflexivity|].
  rewrite length_app, length_firstn, length_skipn. lia.
Qed.

Lemma splice1_past_end {A} (i : Z) (l : list A) :
  (Z.of_nat (length l) <= i)%Z -> Editor.splice1 i l = l.
Proof.
  intro Hi. unfold Editor.splice1.
  destruct (Z.ltb_spec i 0); [lia|].
  rewrite Z.min_r by lia. rewrite Nat2Z.id.
  rewrite firstn_all. rewrite skipn_all2 by lia. apply app_nil_r.
Qed.

(** X15: removing a frame keeps the cursor usable: if it was not
    negative it is afterwards below the number of frames, or 0 when none
    is left.  An index within range removes exactly that frame, an index
    past the end removes nothing; the cursor is not moved back when an
    earlier frame goes, so it then rests on the frame that followed. *)
Theorem removeFrame_keeps_cursor_valid :
  forall index s,
    let s' := Editor.removeFrame index s in
    ((0 <= Editor.currentFrameIndex s)%Z ->
     (0 <= Editor.currentFrameIndex s')%Z /\
     ((Editor.currentFrameIndex s' < Z.of_nat (length (Editor.frames s')))%Z \/
      (Editor.frames s' = [] /\ Editor.currentFrameIndex s' = 0%Z))) /\
    (forall i, index = Z.of_nat i -> (i < length (Editor.frames s))%nat ->
       Editor.frames s'
       = firstn i (Editor.frames s) ++ skipn (S i) (Editor.frames s) /\
       length (Editor.frames s') = (length (Editor.frames s) - 1)%nat) /\
    ((Z.of_nat (length (Editor.frames s)) <= index)%Z ->
     Editor.frames s' = Editor.frames s) /\
    (forall i c, index = Z.of_nat i ->
       Editor.currentFrameIndex s = Z.of_nat c ->
       (i < c)%nat -> (S c < length (Editor.frames s))%nat ->
       Editor.currentFrameIndex s' = Z.of_nat c /\
       nth_error (Editor.frames s') c = nth_error (Editor.frames s) (S c)) /\
    Editor.particles s' = Editor.particles s.
Proof.
  intros index s s'. unfold s', Editor.removeFrame. simpl.
  split; [|split; [|split; [|split]]].
  - intro H0.
    destruct (Z.geb_spec (Editor.currentFrameIndex s)
                (Z.of_nat (length (Editor.splice1 index (Editor.frames s)))))
      as [Hge|Hlt].
    + split; [lia|].
      destruct (Editor.splice1 index (Editor.frames s)) as [|f l].
      * right. split; reflexivity.
      * left. simpl length. lia.
    + split; [exact H0|]. left. exact Hlt.
  - intros i -> Hi. apply splice1_in_range. exact Hi.
  - apply splice1_past_end.
  - intros i c -> Hc Hic Hlen.
    destruct (splice1_in_range i (Editor.frames s)) as [Hs Hl]; [lia|].
    rewrite Hl, Hc.
    destruct (Z.geb_spec (Z.of_nat c)
                (Z.of_nat (length (Editor.frames s) - 1))) as [Hge|_]; [lia|].
    split; [reflexivity|]. rewrite Hs.
    rewrite nth_error_app2 by (rewrite length_firstn; lia).
    rewrite length_firstn. rewrite Nat.min_l by lia.
    rewrite nth_error_skipn.
    replace (S i + (c - i))%nat with (S c) by lia. reflexivity.
  - reflexivity.
Qed.

Lemma removeFrame_keeps_cursor_valid_witness :
  (0 <= Editor.currentFrameIndex (Editor.removeFrame 2 three_frames))%Z /\
  Editor.frames (Editor.removeFrame 1 three_frames)
  = firstn 1 (Editor.frames three_frames)
    ++ skipn 2 (Editor.frames three_frames) /\
  Editor.frames (Editor.removeFrame 7 three_frames) = Editor.frames three_frames /\
  (Editor.currentFrameIndex (Editor.removeFrame 0 three_frames) = 1%Z /\
   nth_error (Editor.frames (Editor.removeFrame 0 three_frames)) 1
   = nth_error (Editor.frames three_frames) 2).
Proof.
  split; [|split; [|split]].
  - apply (proj1 (removeFrame_keeps_cursor_valid 2 three_frames)).
    simpl. lia.
  - apply (proj1 (proj2 (removeFrame_keeps_cursor_valid 1 three_frames))
             1%nat eq_refl).
    simpl. lia.
  - apply (proj1 (proj2 (proj2 (removeFrame_keeps_cursor_valid 7 three_frames)))).
    simpl. lia.
  - apply (proj1 (proj2 (proj2 (proj2
             (removeFrame_keeps_cursor_valid 0 three_frames))))
             0%nat 1%nat eq_refl eq_refl); simpl; lia.
Defined.

Lemma nextIndex_value c len :
  (2 <= len)%nat -> (0 <= c < Z.of_nat len)%Z ->
  Editor.nextIndex c len
  = (if (c + 1 =? Z.of_nat len)%Z then 0 else c + 1)%Z.
Proof.
  intros Hl Hc. unfold Editor.nextIndex.
  destruct (Z.eqb_spec (c + 1) (Z.of_nat len)) as [E|E].
  - rewrite E. rewrite Z.rem_mod_nonneg by lia. apply Z.mod_same. lia.
  - apply Z.rem_small. lia.
Qed.

Lemma prevIndex_value c len :
  (2 <= len)%nat -> (0 <= c < Z.of_nat len)%Z ->
  Editor.prevIndex c len
  = (if (c =? 0)%Z then Z.of_nat len - 1 else c - 1)%Z.
Proof.
  intros Hl Hc. unfold Editor.prevIndex.
  destruct (Z.eqb_spec c 0) as [E|E].
  - subst. rewrite Z.rem_small by lia. lia.
  - rewrite Z.rem_mod_nonneg by lia.
    replace (c - 1 + Z.of_nat len)%Z with (c - 1 + 1 * Z.of_nat len)%Z by lia.
    rewrite Z.mod_add by lia. apply Z.mod_small. lia.
Qed.

(** X16: with at least two frames and the cursor within range, the
    next and the previous index are within range and differ from the
    cursor, "next" wraps from the last frame to the first and "previous"
    from the first to the last, and each undoes the other. *)
Theorem next_and_prev_index_cycle :
  forall c len,
    (2 <= len)%nat -> (0 <= c < Z.of_nat len)%Z ->
    let n := Editor.nextIndex c len in
    let p := Editor.prevIndex c len in
    (0 <= n < Z.of_nat len)%Z /\ n <> c /\
    (0 <= p < Z.of_nat len)%Z /\ p <> c /\
    (c = Z.of_nat len - 1 -> n = 0)%Z /\
    (c = 0 -> p = Z.of_nat len - 1)%Z /\
    Editor.prevIndex n len = c /\
    Editor.nextIndex p len = c.
Proof.
  intros c len Hl Hc n p.
  assert (Hn : n = (if (c + 1 =? Z.of_nat len)%Z then 0 else c + 1)%Z)
    by (apply nextIndex_value; assumption).
  assert (Hp : p = (if (c =? 0)%Z then Z.of_nat len - 1 else c - 1)%Z)
    by (apply prevIndex_value; assumption).
  destruct (Z.eqb_spec (c + 1) (Z.of_nat len)) as [E1|E1];
    destruct (Z.eqb_spec c 0) as [E2|E2]; try lia.
  - repeat split; try lia.
    + rewrite Hn, prevIndex_value by lia.
      destruct (Z.eqb_spec 0 0); lia.
    + rewrite Hp, nextIndex_value by lia.
      destruct (Z.eqb_spec (c - 1 + 1) (Z.of_nat len)); lia.
  - repeat split; try lia.
    + rewrite Hn, prevIndex_value by lia.
      destruct (Z.eqb_spec (c + 1) 0); lia.
    + rewrite Hp, nextIndex_value by lia.
      destruct (Z.eqb_spec (Z.of_nat len - 1 + 1) (Z.of_nat len)); lia.
  - repeat split; try lia.
    + rewrite Hn, prevIndex_value by lia.
      destruct (Z.eqb_spec (c + 1) 0); lia.
    + rewrite Hp, nextIndex_value by lia.
      destruct (Z.eqb_spec (c - 1 + 1) (Z.of_nat len)); lia.
Qed.

Lemma next_and_prev_index_cycle_witness :
  Editor.nextIndex 2 3 = 0%Z /\ Editor.prevIndex 0 3 = 2%Z /\
  Editor.prevIndex (Editor.nextIndex 2 3) 3 = 2%Z.
Proof.
  destruct (next_and_prev_index_cycle 2 3 ltac:(lia) ltac:(lia))
    as (_ & _ & _ & _ & H1 & _ & H3 & _).
  destruct (next_and_prev_index_cycle 0 3 ltac:(lia) ltac:(lia))
    as (_ & _ & _ & _ & _ & H2 & _ & _).
  split; [apply H1; reflexivity|]. split; [apply H2; reflexivity | exact H3].
Defined.

Lemma at_index_in_range {A} (l : list A) (i : Z) :
  (0 <= i < Z.of_nat (length l))%Z ->
  exists a, JS.at_index l i = Some a /\ In a l.
Proof.
  intro H. rewrite <- (Z2Nat.id i) by lia. rewrite at_index_of_nat.
  apply nth_error_in_range. lia.
Qed.

(** X17: with fewer than two frames the "next" and "previous" buttons
    do nothing.  With at least two frames of at least one well-formed
    point each, the cursor within range, at least one particle and no
    morph running, each starts a morph and moves the cursor to the next,
    respectively previous, index at once. *)
Theorem next_and_prev_buttons :
  forall random env s,
    ((length (Editor.frames s) < 2)%nat ->
     Editor.morphToNextFrame random env s = JS.Ok s /\
     Editor.morphToPrevFrame random env s = JS.Ok s) /\
    ((forall k, 0 <= random k < 1) ->
     Editor.isMorphing s = false ->
     (2 <= length (Editor.frames s))%nat ->
     (0 <= Editor.currentFrameIndex s < Z.of_nat (length (Editor.frames s)))%Z ->
     (1 <= length (Editor.particles s))%nat ->
     Forall (fun f => (1 <= length (Editor.points f))%nat /\
                      Forall well_formed_point (Editor.points f))
            (Editor.frames s) ->
     (exists s1,
         Editor.morphToNextFrame random env s = JS.Ok s1 /\
         Editor.isMorphing s1 = true /\
         Editor.currentFrameIndex s1
         = Editor.nextIndex (Editor.currentFrameIndex s)
             (length (Editor.frames s))) /\
     (exists s1,
         Editor.morphToPrevFrame random env s = JS.Ok s1 /\
         Editor.isMorphing s1 = true /\
         Editor.currentFrameIndex s1
         = Editor.prevIndex (Editor.currentFrameIndex s)
             (length (Editor.frames s)))).
Proof.
  intros random env s. split.
  - intro H. unfold Editor.morphToNextFrame, Editor.morphToPrevFrame.
    destruct (Nat.ltb_spec (length (Editor.frames s)) 2); [auto | lia].
  - intros Hrand Hidle Hlen Hc Hn Hfs.
    assert (Hn' : (0 <= Editor.nextIndex (Editor.currentFrameIndex s)
                         (length (Editor.frames s))
                   < Z.of_nat (length (Editor.frames s)))%Z /\
                  Editor.nextIndex (Editor.currentFrameIndex s)
                    (length (Editor.frames s)) <> Editor.currentFrameIndex s).
    { rewrite nextIndex_value by assumption.
      destruct (Z.eqb_spec (Editor.currentFrameIndex s + 1)
                  (Z.of_nat (length (Editor.frames s)))); lia. }
    assert (Hp' : (0 <= Editor.prevIndex (Editor.currentFrameIndex s)
                         (length (Editor.frames s))
                   < Z.of_nat (length (Editor.frames s)))%Z /\
                  Editor.prevIndex (Editor.currentFrameIndex s)
                    (length (Editor.frames s)) <> Editor.currentFrameIndex s).
    { rewrite prevIndex_value by assumption.
      destruct (Z.eqb_spec (Editor.currentFrameIndex s) 0); lia. }
    unfold Editor.morphToNextFrame, Editor.morphToPrevFrame.
    destruct (Nat.ltb_spec (length (Editor.frames s)) 2); [lia|].
    split.
    + destruct Hn' as [Hr Hd].
      destruct (at_index_in_range _ _ Hr) as (f & Hf & Hin).
      assert (Hwf := proj1 (Forall_forall _ _) Hfs f Hin). destruct Hwf as [H1 H2].
      destruct (morphToFrame_ok random Hrand env _ s f Hidle Hd Hf Hn H1 H2)
        as (s1 & Hs1 & Hm1 & _ & Hc1 & _).
      exists s1. auto.
    + destruct Hp' as [Hr Hd].
      destruct (at_index_in_range _ _ Hr) as (f & Hf & Hin).
      assert (Hwf := proj1 (Forall_forall _ _) Hfs f Hin). destruct Hwf as [H1 H2].
      destruct (morphToFrame_ok random Hrand env _ s f Hidle Hd Hf Hn H1 H2)
        as (s1 & Hs1 & Hm1 & _ & Hc1 & _).
      exists s1. auto.
Qed.

Lemma next_and_prev_buttons_witness :
  (Editor.morphToNextFrame random_zero editor_env
     (Editor.mkState 0 [] [frameA] 0 false 0 0)
   = JS.Ok (Editor.mkState 0 [] [frameA] 0 false 0 0)) /\
  (exists s1,
      Editor.morphToNextFrame random_zero editor_env scenarioA = JS.Ok s1 /\
      Editor.isMorphing s1 = true /\
      Editor.currentFrameIndex s1 = Editor.nextIndex 0 2).
Proof.
  split.
  - apply (proj1 (next_and_prev_buttons random_zero editor_env
                    (Editor.mkState 0 [] [frameA] 0 false 0 0))).
    simpl. lia.
  - apply (proj2 (next_and_prev_buttons random_zero editor_env scenarioA)).
    + intro k. unfold random_zero. lra.
    + reflexivity.
    + simpl. lia.
    + simpl. lia.
    + simpl. lia.
    + simpl. constructor; [|constructor; [|constructor]].
      * split; [simpl; lia|]. constructor; [|constructor].
        apply (editor_point_well_formed 0 0 0 1 2 3).
      * split; [simpl; lia|]. constructor; [|constructor].
        apply (editor_point_well_formed 10 10 0 4 5 6).
Defined.

(** X18: in the renderer, with at least two frames and the current
    index within range, [next()] is [goTo] of the next index and
    [prev()] is [goTo] of the previous one (both return at once while a
    morph runs). *)
Theorem renderer_next_is_goTo :
  forall random o s,
    (2 <= length (Renderer.frames s))%nat ->
    (0 <= Renderer.currentFrame s < Z.of_nat (length (Renderer.frames s)))%Z ->
    Renderer.next random o s
    = Renderer.goTo random o
        (Editor.nextIndex (Renderer.currentFrame s)
           (length (Renderer.frames s))) s /\
    Renderer.prev random o s
    = Renderer.goTo random o
        (Editor.prevIndex (Renderer.currentFrame s)
           (length (Renderer.frames s))) s.
Proof.
  intros random o s Hl Hc.
  pose proof (nextIndex_value _ _ Hl Hc) as Hn.
  pose proof (prevIndex_value _ _ Hl Hc) as Hp.
  unfold Renderer.next, Renderer.prev, Renderer.goTo.
  destruct (Nat.ltb_spec (length (Renderer.frames s)) 2); [lia|]. simpl.
  fold (Editor.nextIndex (Renderer.currentFrame s) (length (Renderer.frames s))).
  fold (Editor.prevIndex (Renderer.currentFrame s) (length (Renderer.frames s))).
  set (n := Editor.nextIndex _ _) in *. set (p := Editor.prevIndex _ _) in *.
  assert (Hn' : (0 <= n < Z.of_nat (length (Renderer.frames s)))%Z /\
                n <> Renderer.currentFrame s).
  { rewrite Hn. destruct (Z.eqb_spec (Renderer.currentFrame s + 1)
                            (Z.of_nat (length (Renderer.frames s)))); lia. }
  assert (Hp' : (0 <= p < Z.of_nat (length (Renderer.frames s)))%Z /\
                p <> Renderer.currentFrame s).
  { rewrite Hp. destruct (Z.eqb_spec (Renderer.currentFrame s) 0); lia. }
  destruct (Renderer._morphing s).
  - rewrite !orb_true_r. auto.
  - rewrite !orb_false_r.
    destruct (Z.ltb_spec n 0); [lia|]. destruct (Z.ltb_spec p 0); [lia|].
    destruct (Z.geb_spec n (Z.of_nat (length (Renderer.frames s)))); [lia|].
    destruct (Z.geb_spec p (Z.of_nat (length (Renderer.frames s)))); [lia|].
    simpl.
    destruct (Z.eqb_spec n (Renderer.currentFrame s)); [lia|].
    destruct (Z.eqb_spec p (Renderer.currentFrame s)); [lia|].
    auto.
Qed.

Lemma renderer_next_is_goTo_witness :
  Renderer.next random_zero default_options
    (renderer_state [far_particle] [rframeA; rframeB])
  = Renderer.goTo random_zero default_options 1
      (renderer_state [far_particle] [rframeA; rframeB]).
Proof.
  apply (proj1 (renderer_next_is_goTo random_zero default_options
                  (renderer_state [far_particle] [rframeA; rframeB])
                  ltac:(simpl; lia) ltac:(simpl; lia))).
Defined.

(* ================================================================== *)
(** ** Loading and resizing in the renderer                           *)
(* ================================================================== *)

Lemma mapM_total {A B} (f : A -> JS.Result B) (g : A -> B) l :
  (forall a, In a l -> f a = JS.Ok (g a)) -> JS.mapM f l = JS.Ok (map g l).
Proof.
  induction l as [|a l IH]; intro H; simpl; [reflexivity|].
  rewrite (H a) by (left; reflexivity). simpl.
  rewrite IH by (intros; apply H; right; assumption). reflexivity.
Qed.

Lemma mapM_length {A B} (f : A -> JS.Result B) l l' :
  JS.mapM f l = JS.Ok l' -> length l' = length l.
Proof.
  revert l'. induction l as [|a l IH]; intros l' H; simpl in H.
  - injection H as <-. reflexivity.
  - destruct (f a); simpl in H; try discriminate.
    destruct (JS.mapM f l); simpl in H; try discriminate.
    injection H as <-. simpl. f_equal. apply IH. reflexivity.
Qed.

Lemma fold_left_total l : forall a, fold_left Rplus l a = a + total l.
Proof.
  induction l as [|v l IH]; intro a; simpl; [ring|].
  rewrite IH. unfold total. simpl. ring.
Qed.

Lemma mean_some (l : list R) :
  l <> [] -> Renderer.mean l = Some (total l / INR (length l)).
Proof.
  destruct l as [|v l]; [contradiction|]. intros _.
  unfold Renderer.mean. rewrite fold_left_total. f_equal.
  f_equal. ring.
Qed.

(** The two [map] calls of [placed], spelled out on a non-empty frame. *)
Lemma placed_spec o pts ts :
  Renderer.placed o pts = JS.Ok ts ->
  exists nums,
    JS.mapM Renderer.numeric pts = JS.Ok nums /\
    length nums = length pts /\
    (nums <> [] ->
     ts = map (fun p =>
                 Renderer.mkNumPoint
                   (Renderer.opt_center (Renderer.centerX o) (Renderer.canvas_width o)
                    + (Renderer.nx p
                       - total (map Renderer.nx nums) / INR (length nums))
                      * Renderer.scale o)
                   (Renderer.opt_center (Renderer.centerY o) (Renderer.canvas_height o)
                    + (Renderer.ny p
                       - total (map Renderer.ny nums) / INR (length nums))
                      * Renderer.scale o)
                   (Renderer.nz p * Renderer.scale o)
                   (Renderer.nr p) (Renderer.ng p) (Renderer.nb p))
              nums) /\
    (nums = [] -> ts = []).
Proof.
  unfold Renderer.placed. intro H.
  destruct (JS.mapM Renderer.numeric pts) as [nums| |] eqn:E;
    simpl in H; try discriminate.
  exists nums. split; [reflexivity|].
  split; [apply (mapM_length _ _ _ E)|]. split.
  - intro Hne.
    rewrite (mean_some (map Renderer.nx nums)) in H
      by (destruct nums; [contradiction | discriminate]).
    rewrite (mean_some (map Renderer.ny nums)) in H
      by (destruct nums; [contradiction | discriminate]).
    rewrite !length_map in H.
    rewrite (mapM_total _
               (fun p =>
                  Renderer.mkNumPoint
                    (Renderer.opt_center (Renderer.centerX o) (Renderer.canvas_width o)
                     + (Renderer.nx p
                        - total (map Renderer.nx nums) / INR (length nums))
                       * Renderer.scale o)
                    (Renderer.opt_center (Renderer.centerY o) (Renderer.canvas_height o)
                     + (Renderer.ny p
                        - total (map Renderer.ny nums) / INR (length nums))
                       * Renderer.scale o)
                    (Renderer.nz p * Renderer.scale o)
                    (Renderer.nr p) (Renderer.ng p) (Renderer.nb p))) in H
      by reflexivity.
    injection H as <-. reflexivity.
  - intros ->. simpl in H. injection H as <-. reflexivity.
Qed.

(** X19: loading a frame in the renderer makes the frame current and
    gives one particle per point, in the order of the points and with
    their colours; the frames are left as they are.  A frame of a
    single point is placed on the centre of the canvas (or the centre
    given in the options), wherever the point lies. *)
Theorem loaded_frame_particles :
  forall o i s f s',
    JS.at_index (Renderer.frames s) i = Some f ->
    Renderer._loadFrame o i s = JS.Ok s' ->
    length (Renderer.particles s') = length (Renderer.points f) /\
    Renderer.currentFrame s' = i /\
    Renderer.frames s' = Renderer.frames s /\
    (exists nums,
        JS.mapM Renderer.numeric (Renderer.points f) = JS.Ok nums /\
        map rparticle_colour (Renderer.particles s')
        = map (fun n => (Renderer.nr n, Renderer.ng n, Renderer.nb n)) nums)
    /\
    (forall pt,
        Renderer.points f = [pt] ->
        exists p,
          Renderer.particles s' = [p] /\
          Renderer.baseX p
          = Renderer.opt_center (Renderer.centerX o) (Renderer.canvas_width o)
          /\
          Renderer.baseY p
          = Renderer.opt_center (Renderer.centerY o)
              (Renderer.canvas_height o)).
Proof.
  intros o i s f s' Hf H. unfold Renderer._loadFrame in H. rewrite Hf in H.
  destruct (Renderer.placed o (Renderer.points f)) as [ts| |] eqn:E;
    simpl in H; try discriminate.
  injection H as <-. simpl.
  destruct (placed_spec o _ _ E) as (nums & Hnums & Hlen & Hne & Hnil).
  split; [|split; [reflexivity|split; [reflexivity|split]]].
  - rewrite length_map. destruct nums as [|n0 nums'].
    + rewrite (Hnil eq_refl). simpl in Hlen. simpl. lia.
    + rewrite Hne by discriminate. rewrite length_map. exact Hlen.
  - exists nums. split; [exact Hnums|].
    destruct nums as [|n0 nums'].
    + rewrite (Hnil eq_refl). reflexivity.
    + rewrite Hne by discriminate. rewrite !map_map. reflexivity.
  - intros pt Hpt. rewrite Hpt in Hlen.
    destruct nums as [|n0 [|n1 nums']]; try discriminate.
    rewrite Hne by discriminate. simpl.
    eexists. split; [reflexivity|]. simpl. unfold total. simpl.
    split; field.
Qed.

Lemma loaded_frame_particles_witness :
  exists s' p,
    Renderer._loadFrame default_options 1
      (renderer_state [] [rframeA; rframeB]) = JS.Ok s' /\
    Renderer.particles s' = [p] /\ Renderer.baseX p = 50.
Proof.
  eexists.
  match goal with
  | |- exists p, ?l = JS.Ok ?s1 /\ _ =>
      destruct (loaded_frame_particles default_options 1%Z
                  (renderer_state [] [rframeA; rframeB]) rframeB s1
                  eq_refl eq_refl) as (_ & _ & _ & _ & H)
  end.
  destruct (H (renderer_point 10 10 0 4 5 6) eq_refl) as (p & Hp & Hx & _).
  exists p. split; [reflexivity|]. split; [exact Hp|].
  rewrite Hx. simpl. lra.
Defined.

Lemma zero_lerp t : Renderer.lerp 0 0 t = 0.
Proof. unfold Renderer.lerp. ring. Qed.

Lemma collapsing_particle o a t q :
  zero_morph q ->
  let p := Renderer.transformParticle o a (Renderer.morphStep t q) in
  zero_morph p /\ at_origin p.
Proof.
  intros (H1 & H2 & H3 & H4 & H5 & H6). destruct a as [[? ?] ?].
  unfold zero_morph, at_origin. simpl.
  rewrite H1, H2, H3, H4, H5, H6, zero_lerp. auto 10.
Qed.

Lemma resting_particle o a q :
  zero_morph q -> at_origin q ->
  let p := Renderer.transformParticle o a q in
  zero_morph p /\ at_origin p.
Proof.
  intros Hz Ho. destruct a as [[? ?] ?]. split; assumption.
Qed.

Lemma Forall_and_inv {A} (P Q : A -> Prop) l :
  Forall (fun a => P a /\ Q a) l -> Forall P l /\ Forall Q l.
Proof.
  intro H. split; apply Forall_forall; intros a Ha;
    apply (proj1 (Forall_forall _ _) H a Ha).
Qed.

Lemma collapsing_step o s :
  Renderer.running s = true -> collapsing s ->
  collapsing (Renderer._animate o s) /\
  Forall at_origin (Renderer.particles (Renderer._animate o s)) /\
  Renderer.running (Renderer._animate o s) = true.
Proof.
  intros Hrun [Hz Hm]. unfold Renderer._animate. rewrite Hrun. simpl.
  destruct (Renderer._morphing s) eqn:Em.
  - destruct (Rge_dec _ _); simpl; rewrite map_map.
    + assert (H : Forall (fun p => zero_morph p /\ at_origin p)
                    (Renderer.depth_sort
                       (map (fun q => Renderer.transformParticle o
                                        (Renderer.angles o s (S (Renderer.animTime s)))
                                        (Renderer.morphStep (Renderer.ease 1) q))
                          (filter (fun p => negb (Renderer.remove p))
                             (Renderer.particles s))))).
      { apply (rForall_sorted_map zero_morph);
          [apply rForall_filter; exact Hz|].
        intros q Hq. apply collapsing_particle. exact Hq. }
      apply Forall_and_inv in H. destruct H as [H1 H2].
      split; [split; [exact H1 | right; exact H2] | split; [exact H2 | reflexivity]].
    + assert (H : Forall (fun p => zero_morph p /\ at_origin p)
                    (Renderer.depth_sort
                       (map (fun q => Renderer.transformParticle o
                                        (Renderer.angles o s (S (Renderer.animTime s)))
                                        (Renderer.morphStep
                                           (Renderer.ease
                                              (Renderer._morphProgress s
                                               + Renderer.morphSpeed o)) q))
                          (Renderer.particles s)))).
      { apply (rForall_sorted_map zero_morph); [exact Hz|].
        intros q Hq. apply collapsing_particle. exact Hq. }
      apply Forall_and_inv in H. destruct H as [H1 H2].
      split; [split; [exact H1 | right; exact H2] | split; [exact H2 | reflexivity]].
  - destruct Hm as [Hm|Ho]; [discriminate|]. simpl.
    assert (H : Forall (fun p => zero_morph p /\ at_origin p)
                  (Renderer.depth_sort
                     (map (Renderer.transformParticle o
                             (Renderer.angles o s (S (Renderer.animTime s))))
                        (Renderer.particles s)))).
    { apply (rForall_sorted_map (fun p => zero_morph p /\ at_origin p)).
      - apply Forall_forall. intros q Hq. split.
        + apply (proj1 (Forall_forall _ _) Hz q Hq).
        + apply (proj1 (Forall_forall _ _) Ho q Hq).
      - intros q [Hq1 Hq2]. apply resting_particle; assumption. }
    apply Forall_and_inv in H. destruct H as [H1 H2].
    split; [split; [exact H1 | right; exact H2] | split; [exact H2 | reflexivity]].
Qed.

Lemma collapsing_ticks o n :
  forall s,
    Renderer.running s = true -> collapsing s ->
    Forall at_origin (Renderer.particles (Renderer.ticks o (S n) s)).
Proof.
  induction n as [|n IH]; intros s Hrun Hc.
  - simpl. apply (collapsing_step o s Hrun Hc).
  - change (Renderer.ticks o (S (S n)) s)
      with (Renderer.ticks o (S n) (Renderer._animate o s)).
    destruct (collapsing_step o s Hrun Hc) as (Hc' & _ & Hrun').
    apply IH; assumption.
Qed.

(** X20: [resize()] in the middle of a morph sends every particle to
    the origin: it rebuilds the particles with morph start and target
    positions 0 and leaves the morph running, so from the next tick on
    (while the renderer runs) every particle's base position is
    (0, 0, 0), during the rest of the morph and after it. *)
Theorem resize_during_morph_collapses :
  forall o s f s1,
    Renderer.running s = true ->
    Renderer._morphing s = true ->
    JS.at_index (Renderer.frames s) (Renderer.currentFrame s) = Some f ->
    Renderer.resize o s = JS.Ok s1 ->
    length (Renderer.particles s1) = length (Renderer.points f) /\
    Renderer._morphing s1 = true /\
    forall n, Forall at_origin (Renderer.particles (Renderer.ticks o (S n) s1)).
Proof.
  intros o s f s1 Hrun Hm Hf Hres.
  unfold Renderer.resize in Hres.
  destruct (Nat.ltb_spec 0 (length (Renderer.frames s))) as [_|Hlen].
  2:{ destruct (Renderer.frames s); [|simpl in Hlen; lia].
      rewrite at_index_nil in Hf. discriminate. }
  pose proof Hres as Hload.
  unfold Renderer._loadFrame in Hres. rewrite Hf in Hres.
  destruct (Renderer.placed o (Renderer.points f)) as [ts| |] eqn:E;
    simpl in Hres; try discriminate.
  injection Hres as <-.
  split.
  { change (length (map (Renderer.fresh o) ts) = length (Renderer.points f)).
    rewrite length_map.
    destruct (placed_spec o _ _ E) as (nums & _ & Hlen & Hne & Hnil).
    destruct nums as [|n0 nums'].
    - rewrite (Hnil eq_refl). simpl in Hlen. simpl. lia.
    - rewrite Hne by discriminate. rewrite length_map. exact Hlen. }
  split; [exact Hm|].
  intro n. apply collapsing_ticks; [exact Hrun|].
  split; [|left; exact Hm]. simpl.
  apply Forall_forall. intros p Hin.
  apply in_map_iff in Hin. destruct Hin as (t & <- & _).
  unfold zero_morph. simpl. auto 10.
Qed.

Lemma resize_during_morph_collapses_witness :
  exists s1,
    Renderer.resize default_options morphing_renderer = JS.Ok s1 /\
    Forall at_origin
      (Renderer.particles (Renderer.ticks default_options 1 s1)).
Proof.
  eexists. split; [reflexivity|].
  match goal with
  | |- Forall _ (Renderer.particles (Renderer.ticks _ _ ?s1)) =>
      destruct (resize_during_morph_collapses default_options
                  morphing_renderer rframeB s1 eq_refl eq_refl eq_refl eq_refl)
        as (_ & _ & H)
  end.
  exact (H 0%nat).
Defined.

(* ================================================================== *)
(** ** Particle count across a morph of the renderer                  *)
(* ================================================================== *)

Section RendererMorphStart.

Variable random : nat -> R.
Hypothesis random_range : forall k, 0 <= random k < 1.




End RendererMorphStart.











(* ================================================================== *)
(** ** Pointer input                                                  *)
(* ================================================================== *)

Lemma dragParticle_still bsv sz p :
  particle_place (Editor.dragParticle bsv 0 0 sz p) = particle_place p.
Proof.
  unfold particle_place, Editor.dragParticle. simpl.
  rewrite !Rmult_0_l, !Rplus_0_r. reflexivity.
Qed.

(** X22: the editor's [mousemove] handler never moves a particle.  It
    stores the pointer position before it computes the displacement, so
    the displacement of a drag is always 0: whatever the branch, every
    particle keeps its base position and colour, and [dragMoved] stays
    as it was (numbers as reals). *)
Theorem pointer_move_leaves_particles_in_place :
  forall hover cache bsv sizeOf now cx cy env ptr ps m,
    Editor.mousemove hover cache bsv sizeOf now cx cy env ptr ps = JS.Ok m ->
    map particle_place (Editor.moved_particles m) = map particle_place ps /\
    Editor.dragMoved (Editor.moved_pointer m) = Editor.dragMoved ptr /\
    Editor.lastMouseX (Editor.moved_pointer m) = cx /\
    Editor.lastMouseY (Editor.moved_pointer m) = cy.
Proof.
  intros hover cache bsv sizeOf now cx cy env ptr ps m.
  unfold Editor.mousemove.
  destruct (hover && negb (Editor.animationEnabled env)).
  - destruct (Editor.is_zero _ || Editor.is_zero _); [discriminate|].
    intro H. injection H as <-. simpl. auto.
  - destruct (negb (Editor.isDragging ptr)).
    + intro H. injection H as <-. simpl. auto.
    + intro H. injection H as <-. simpl.
      replace (cx - cx) with 0 by ring. replace (cy - cy) with 0 by ring.
      rewrite Rabs_R0.
      destruct (Rgt_dec (0 + 0) 1) as [Hgt|_]; [lra|].
      repeat split; try reflexivity.
      destruct (Editor.animationEnabled env); [|reflexivity].
      rewrite map_map. apply map_ext. intro p. apply dragParticle_still.
Qed.

Lemma pointer_move_leaves_particles_in_place_witness :
  exists m,
    Editor.mousemove false 45 2 (fun _ => 2) 0 130 90 editor_env
      dragging_pointer [anchored_particle] = JS.Ok m /\
    map particle_place (Editor.moved_particles m)
    = [(10, 20, 0, (74, 222, 128))].
Proof.
  eexists. split; [reflexivity|].
  match goal with
  | |- map _ (Editor.moved_particles ?m) = _ =>
      destruct (pointer_move_leaves_particles_in_place false 45 2
                  (fun _ => 2) 0 130 90 editor_env dragging_pointer
                  [anchored_particle] m eq_refl) as (H & _)
  end.
  rewrite H. reflexivity.
Defined.

Lemma scaled_offset_bounded (c d m : R) :
  0 < c -> - c <= d <= c -> 0 <= m -> Rabs (d / c * m) <= m.
Proof.
  intros Hc Hd Hm.
  assert (Hi : 0 < / c) by (apply Rinv_0_lt_compat; exact Hc).
  assert (H1 : c * / c = 1) by (apply Rinv_r; lra).
  assert (Hr : -1 <= d / c <= 1) by (unfold Rdiv; split; nra).
  apply Rabs_le. split; nra.
Qed.

(** X23: in the renderer, with [hoverRotate] on, a pointer anywhere on
    a canvas of positive size sets the two static angles to at most
    [hoverMax] degrees (in radians) either way, to 0 at the centre of
    the canvas, and touches nothing else; leaving the canvas resets
    both angles to 0. *)
Theorem hover_angles_bounded :
  forall o rect cx cy s,
    Renderer.hoverRotate o = true ->
    0 <= Renderer.hoverMax o ->
    0 < Renderer.rect_width rect ->
    0 < Renderer.rect_height rect ->
    Renderer.rect_left rect <= cx
      <= Renderer.rect_left rect + Renderer.rect_width rect ->
    Renderer.rect_top rect <= cy
      <= Renderer.rect_top rect + Renderer.rect_height rect ->
    exists s',
      Renderer.onMouseMove o rect cx cy s = JS.Ok s' /\
      Rabs (Renderer._staticRotX s') <= Renderer.hoverMax o * PI / 180 /\
      Rabs (Renderer._staticRotY s') <= Renderer.hoverMax o * PI / 180 /\
      (cx = Renderer.rect_left rect + Renderer.rect_width rect / 2 ->
       Renderer._staticRotY s' = 0) /\
      (cy = Renderer.rect_top rect + Renderer.rect_height rect / 2 ->
       Renderer._staticRotX s' = 0) /\
      Renderer.particles s' = Renderer.particles s /\
      Renderer._morphing s' = Renderer._morphing s /\
      Renderer._staticRotX (Renderer.onMouseLeave s') = 0 /\
      Renderer._staticRotY (Renderer.onMouseLeave s') = 0.
Proof.
  intros o rect cx cy s Hh Hmax Hw Hht Hx Hy.
  unfold Renderer.onMouseMove. rewrite Hh. simpl.
  destruct (Req_EM_T (Renderer.rect_width rect / 2) 0) as [E|Nw]; [lra|].
  destruct (Req_EM_T (Renderer.rect_height rect / 2) 0) as [E|Nh]; [lra|].
  eexists. split; [reflexivity|]. simpl.
  assert (Hpi : 0 < PI) by apply PI_RGT_0.
  assert (Hm : 0 <= Renderer.hoverMax o * PI / 180) by nra.
  split; [|split; [|split; [|split]]].
  - replace (- ((cy - Renderer.rect_top rect - Renderer.rect_height rect / 2)
                / (Renderer.rect_height rect / 2))
             * (Renderer.hoverMax o * PI / 180))
      with (- (cy - Renderer.rect_top rect - Renderer.rect_height rect / 2)
            / (Renderer.rect_height rect / 2)
            * (Renderer.hoverMax o * PI / 180))
      by (field; lra).
    apply scaled_offset_bounded; [lra | lra | exact Hm].
  - apply scaled_offset_bounded; [lra | lra | exact Hm].
  - intros ->. unfold Rdiv at 1.
    replace (Renderer.rect_left rect + Renderer.rect_width rect / 2
             - Renderer.rect_left rect - Renderer.rect_width rect / 2)
      with 0 by ring.
    ring.
  - intros ->. unfold Rdiv at 1.
    replace (Renderer.rect_top rect + Renderer.rect_height rect / 2
             - Renderer.rect_top rect - Renderer.rect_height rect / 2)
      with 0 by ring.
    ring.
  - auto.
Qed.

Lemma hover_angles_bounded_witness :
  exists s',
    Renderer.onMouseMove hover_options canvas_rect 400 0
      (renderer_state [] [rframeA]) = JS.Ok s' /\
    Renderer._staticRotY s' = 0 /\
    Rabs (Renderer._staticRotX s') <= 45 * PI / 180.
Proof.
  destruct (hover_angles_bounded hover_options canvas_rect 400 0
              (renderer_state [] [rframeA]))
    as (s' & Hs & HX & _ & HY & _); simpl; try lra; try reflexivity.
  exists s'. split; [exact Hs|]. split; [apply HY; simpl; lra | exact HX].
Defined.

(** X24: in the editor, with hover rotation on and the animation off, a
    pointer at coordinates within the canvas size (which must be
    positive) sets the static angles X and Y to at most the cached
    hover maximum (degrees, in radians) either way, and leaves the
    particles and the drag state alone. *)
Theorem editor_hover_angles_bounded :
  forall cache bsv sizeOf now cx cy env ptr ps,
    Editor.animationEnabled env = false ->
    0 <= cache ->
    0 < Editor.canvas_width env ->
    0 < Editor.canvas_height env ->
    0 <= cx <= Editor.canvas_width env ->
    0 <= cy <= Editor.canvas_height env ->
    exists m,
      Editor.mousemove true cache bsv sizeOf now cx cy env ptr ps = JS.Ok m /\
      Rabs (Editor.moved_staticRotX m) <= cache * PI / 180 /\
      Rabs (Editor.moved_staticRotY m) <= cache * PI / 180 /\
      Editor.moved_particles m = ps /\
      Editor.isDragging (Editor.moved_pointer m) = Editor.isDragging ptr.
Proof.
  intros cache bsv sizeOf now cx cy env ptr ps Ha Hc Hw Hh Hx Hy.
  unfold Editor.mousemove. rewrite Ha. simpl.
  unfold Editor.is_zero.
  destruct (Req_EM_T (Editor.canvas_width env / 2) 0) as [E|Nw]; [lra|].
  destruct (Req_EM_T (Editor.canvas_height env / 2) 0) as [E|Nh]; [lra|].
  simpl. eexists. split; [reflexivity|]. simpl.
  assert (Hpi : 0 < PI) by apply PI_RGT_0.
  assert (Hm : 0 <= cache * PI / 180) by nra.
  split; [|split; [|split; reflexivity]].
  - replace (- ((cy - Editor.canvas_height env / 2)
                / (Editor.canvas_height env / 2) * cache) * PI / 180)
      with (- (cy - Editor.canvas_height env / 2)
            / (Editor.canvas_height env / 2) * (cache * PI / 180))
      by (field; lra).
    apply scaled_offset_bounded; [lra | lra | exact Hm].
  - replace ((cx - Editor.canvas_width env / 2)
             / (Editor.canvas_width env / 2) * cache * PI / 180)
      with ((cx - Editor.canvas_width env / 2)
            / (Editor.canvas_width env / 2) * (cache * PI / 180))
      by (field; lra).
    apply scaled_offset_bounded; [lra | lra | exact Hm].
Qed.

Lemma editor_hover_angles_bounded_witness :
  exists m,
    Editor.mousemove true 45 2 (fun _ => 2) 0 800 0 still_env
      dragging_pointer [anchored_particle] = JS.Ok m /\
    Rabs (Editor.moved_staticRotY m) <= 45 * PI / 180 /\
    Editor.moved_particles m = [anchored_particle].
Proof.
  destruct (editor_hover_angles_bounded 45 2 (fun _ => 2) 0 800 0 still_env
              dragging_pointer [anchored_particle])
    as (m & Hm & _ & HY & Hps & _); simpl; try lra; try reflexivity.
  exists m. split; [exact Hm|]. split; [exact HY | exact Hps].
Defined.

(* ================================================================== *)
(** ** The processing size of an image                                *)
(* ================================================================== *)

Lemma round_between (x : R) (lo hi : Z) :
  IZR lo - / 2 <= x -> x < IZR hi + / 2 -> (lo <= JS.round x <= hi)%Z.
Proof.
  intros Hlo Hhi. unfold JS.round. split.
  - apply Zfloor_lub. lra.
  - destruct (Zfloor_bound (x + / 2)) as [Hb _].
    assert (H : IZR (Zfloor (x + / 2)) < IZR (hi + 1)).
    { rewrite plus_IZR. lra. }
    apply lt_IZR in H. lia.
Qed.

(** The longer side [a] of a too large image becomes 400, the other
    side [c] is scaled by the same ratio. *)
Lemma scaled_sides (a c : R) :
  1 <= c -> c <= a -> 400 < a ->
  a * (400 / a) = 400 /\ 0 < c * (400 / a) <= 400 /\ c * (400 / a) < c.
Proof.
  intros Hc Hca Ha.
  assert (Hi : 0 < / a) by (apply Rinv_0_lt_compat; lra).
  assert (H1 : a * / a = 1) by (apply Rinv_r; lra).
  unfold Rdiv. repeat split; nra.
Qed.

(** The smaller of the two ratios is the one of the longer side. *)
Lemma ratio_of_longer_side (a c : R) :
  0 < c -> c <= a -> Rmin (400 / a) (400 / c) = 400 / a /\
                     Rmin (400 / c) (400 / a) = 400 / a.
Proof.
  intros Hc Hca.
  assert (H : 400 / a <= 400 / c).
  { unfold Rdiv. apply Rmult_le_compat_l; [lra|].
    apply Rinv_le_contravar; lra. }
  split; [apply Rmin_left | apply Rmin_right]; exact H.
Qed.

Lemma downscaled_sides (a c : Z) :
  (1 <= c <= a)%Z -> (400 < a)%Z ->
  JS.round (IZR a * (400 / IZR a)) = 400%Z /\
  (0 <= JS.round (IZR c * (400 / IZR a)) <= Z.min c 400)%Z.
Proof.
  intros [Hc Hca] Ha.
  apply IZR_le in Hc. apply IZR_le in Hca. apply IZR_lt in Ha.
  destruct (scaled_sides (IZR a) (IZR c) Hc Hca Ha) as (E & [P1 P2] & P3).
  split.
  - rewrite E. apply round_IZR.
  - apply round_between; [lra|].
    destruct (Z.min_spec c 400) as [[_ ->]|[_ ->]]; lra.
Qed.

(** X25: the temporary canvas of an image of at least 1 x 1 pixels is
    never larger than the image nor than 400 pixels either way (a side
    may round down to 0); an image of at most 400 x 400 keeps its size;
    a larger one is scaled so that its longer side is exactly 400
    (numbers as reals). *)
Theorem processing_size_capped :
  forall w h : Z,
    (1 <= w)%Z -> (1 <= h)%Z ->
    (0 <= fst (Editor.processSize w h) <= Z.min w 400)%Z /\
    (0 <= snd (Editor.processSize w h) <= Z.min h 400)%Z /\
    ((w <= 400)%Z -> (h <= 400)%Z -> Editor.processSize w h = (w, h)) /\
    ((400 < w)%Z \/ (400 < h)%Z ->
     Z.max (fst (Editor.processSize w h)) (snd (Editor.processSize w h))
     = 400%Z).
Proof.
  intros w h Hw Hh. unfold Editor.processSize.
  destruct (Z.ltb_spec 400 w) as [Bw|Sw];
    [|destruct (Z.ltb_spec 400 h) as [Bh|Sh]]; simpl.
  3: { repeat split; lia. }
  all: destruct (Z.le_ge_cases h w) as [Hle|Hle].
  (* the width is the longer side *)
  1, 3: destruct (ratio_of_longer_side (IZR w) (IZR h)) as [-> _];
    [apply IZR_lt; lia | apply IZR_le; exact Hle |];
    destruct (downscaled_sides w h) as (-> & R1 & R2); [lia | lia |];
    simpl; repeat split; lia.
  (* the height is the longer side *)
  all: destruct (ratio_of_longer_side (IZR h) (IZR w)) as [_ ->];
    [apply IZR_lt; lia | apply IZR_le; exact Hle |];
    destruct (downscaled_sides h w) as (-> & R1 & R2); [lia | lia |];
    simpl; repeat split; lia.
Qed.

Lemma processing_size_capped_witness :
  Z.max (fst (Editor.processSize 800 600)) (snd (Editor.processSize 800 600))
  = 400%Z /\
  Editor.processSize 320 200 = (320, 200)%Z.
Proof.
  split.
  - destruct (processing_size_capped 800 600) as (_ & _ & _ & M);
      [lia | lia |].
    apply M. left. lia.
  - destruct (processing_size_capped 320 200) as (_ & _ & K & _);
      [lia | lia |].
    apply K; lia.
Defined.

(* ================================================================== *)
(** ** What the fill sampler returns                                  *)
(* ================================================================== *)

Lemma samplePixel_spec img scale px py :
  Editor.samplePixel img scale px py
  = if Editor.isWhite img px py then [pixel_sample img scale px py] else [].
Proof.
  unfold Editor.samplePixel, Editor.isWhite, Editor.getPixelColor,
    pixel_sample.
  destruct ((px <? 0) || (px >=? Editor.width img) || (py <? 0)
            || (py >=? Editor.height img))%Z; [reflexivity|].
  simpl. destruct (_ && _); reflexivity.
Qed.

(** X26: with a step of at least 1 the fill sampler returns, and its
    points are exactly those of the visible pixels of the grid: a point
    is pushed if and only if it is the sample of a pixel inside the
    image whose coordinates are multiples of the step and that
    [isWhite] accepts; it carries that pixel's own colour, never the
    fallback colour. *)
Theorem fill_sampling_points :
  forall img step scale,
    (1 <= step)%Z ->
    exists l,
      Editor.fillSample img step scale = Some l /\
      forall q,
        In q l <->
        exists px py,
          on_grid img step px py /\
          Editor.isWhite img px py = true /\
          q = pixel_sample img scale px py.
Proof.
  intros img step scale Hstep.
  destruct (fillSample_returns img step scale Hstep)
    as (xs & ys & Hx & Hy & ->).
  destruct (for_positions_spec step (Editor.width img) Hstep)
    as (xs' & Ex & Hinx & _).
  rewrite Hx in Ex. injection Ex as <-.
  destruct (for_positions_spec step (Editor.height img) Hstep)
    as (ys' & Ey & Hiny & _).
  rewrite Hy in Ey. injection Ey as <-.
  eexists. split; [reflexivity|].
  intro q. rewrite in_flat_map. split.
  - intros (py & Hpy & Hq). apply in_flat_map in Hq.
    destruct Hq as (px & Hpx & Hq).
    rewrite samplePixel_spec in Hq.
    destruct (Editor.isWhite img px py) eqn:Hwhite; [|contradiction].
    destruct Hq as [<-|[]].
    apply Hinx in Hpx. apply Hiny in Hpy.
    exists px, py. unfold on_grid. tauto.
  - intros (px & py & (Hpx & Hpy & Dx & Dy) & Hwhite & ->).
    exists py. split; [apply Hiny; tauto|].
    apply in_flat_map. exists px. split; [apply Hinx; tauto|].
    rewrite samplePixel_spec, Hwhite. left. reflexivity.
Qed.

Lemma fill_sampling_points_witness :
  exists l,
    Editor.fillSample one_pixel_image 3 1 = Some l /\
    In (pixel_sample one_pixel_image 1 3 0) l.
Proof.
  destruct (fill_sampling_points one_pixel_image 3 1 ltac:(lia))
    as (l & Hl & Hin).
  exists l. split; [exact Hl|].
  apply Hin. exists 3%Z, 0%Z. split; [|split; reflexivity].
  unfold on_grid. simpl.
  repeat split; try lia; [exists 1%Z | exists 0%Z]; reflexivity.
Defined.

Lemma loop_never_ends step limit :
  (step <= 0)%Z ->
  forall fuel i, (i < limit)%Z ->
                 Editor.loop_positions fuel i step limit = None.
Proof.
  intro Hstep. induction fuel as [|fuel IH]; intros i Hi; simpl;
    destruct (Z.ltb_spec i limit) as [_|Hge]; try lia; [reflexivity|].
  rewrite IH by lia. reflexivity.
Qed.

(** X27: with a step of 0 or less and an image of positive height the
    fill sampler never returns: the outer loop is still running after
    any number of rounds, since its counter never reaches the
    height. *)
Theorem fill_sampling_needs_positive_step :
  forall img step scale,
    (step <= 0)%Z ->
    (0 < Editor.height img)%Z ->
    (forall fuel,
        Editor.loop_positions fuel 0 step (Editor.height img) = None) /\
    Editor.fillSample img step scale = None.
Proof.
  intros img step scale Hstep Hh.
  assert (H : forall fuel,
             Editor.loop_positions fuel 0 step (Editor.height img) = None)
    by (intro fuel; apply loop_never_ends; assumption).
  split; [exact H|].
  unfold Editor.fillSample, Editor.for_positions. rewrite H. reflexivity.
Qed.

Lemma fill_sampling_needs_positive_step_witness :
  Editor.fillSample one_pixel_image 0 1 = None.
Proof.
  apply (fill_sampling_needs_positive_step one_pixel_image 0 1);
    simpl; lia.
Defined.

(* ================================================================== *)
(** ** Wireframe connections                                          *)
(* ================================================================== *)

Lemma dist_below_30 (d : R) : 0 <= d -> (sqrt d < 30 <-> d < 30 * 30).
Proof.
  intro Hd.
  assert (H30 : sqrt (30 * 30) = 30) by (apply sqrt_square; lra).
  split; intro H.
  - apply sqrt_lt_0_alt. rewrite H30. exact H.
  - rewrite <- H30. apply sqrt_lt_1_alt. lra.
Qed.

Lemma connect_from_spec i p :
  forall rest j a b,
    In (a, b) (Editor.connect_from i p j rest) <->
    a = i /\ (j <= b)%nat /\
    exists q, nth_error rest (b - j) = Some q /\ close_by p q.
Proof.
  induction rest as [|q rest IH]; intros j a b; simpl.
  - split; [contradiction|]. intros (_ & _ & q & Hq & _).
    destruct (b - j)%nat; discriminate.
  - rewrite in_app_iff, IH.
    set (d := (Editor.baseX p - Editor.baseX q)
              * (Editor.baseX p - Editor.baseX q)
              + (Editor.baseY p - Editor.baseY q)
                * (Editor.baseY p - Editor.baseY q)).
    assert (Hd : 0 <= d)
      by (unfold d; apply Rplus_le_le_0_compat; apply Rle_0_sqr).
    pose proof (dist_below_30 d Hd) as Hclose.
    split.
    + intros [Hhere | (-> & Hj & q' & Hq' & Hc)].
      * destruct (Rlt_dec (sqrt d) 30) as [Hlt|_]; [|contradiction].
        destruct Hhere as [E|[]]. injection E as <- <-.
        split; [reflexivity|]. split; [lia|].
        exists q. rewrite Nat.sub_diag. split; [reflexivity|].
        apply Hclose. exact Hlt.
      * split; [reflexivity|]. split; [lia|].
        exists q'. replace (b - j)%nat with (S (b - S j)) by lia.
        split; assumption.
    + intros (-> & Hj & q' & Hq' & Hc).
      destruct (Nat.eq_dec b j) as [->|Hne].
      * left. rewrite Nat.sub_diag in Hq'. injection Hq' as <-.
        destruct (Rlt_dec (sqrt d) 30) as [_|Hn];
          [left; reflexivity | exfalso; apply Hn, Hclose, Hc].
      * right. split; [reflexivity|]. split; [lia|].
        exists q'. replace (b - j)%nat with (S (b - S j)) in Hq' by lia.
        split; assumption.
Qed.

Lemma connections_from_spec :
  forall ps i a b,
    In (a, b) (Editor.connections_from i ps) <->
    (i <= a < b)%nat /\
    exists p q, nth_error ps (a - i) = Some p /\
                nth_error ps (b - i) = Some q /\ close_by p q.
Proof.
  induction ps as [|p rest IH]; intros i a b; simpl.
  - split; [contradiction|]. intros (_ & p & _ & Hp & _).
    destruct (a - i)%nat; discriminate.
  - rewrite in_app_iff, connect_from_spec, IH. split.
    + intros [(-> & Hb & q & Hq & Hc) | (Hab & p' & q' & Hp' & Hq' & Hc)].
      * split; [lia|]. exists p, q. rewrite Nat.sub_diag.
        replace (b - i)%nat with (S (b - S i)) by lia. auto.
      * split; [lia|]. exists p', q'.
        replace (a - i)%nat with (S (a - S i)) by lia.
        replace (b - i)%nat with (S (b - S i)) by lia. auto.
    + intros (Hab & p' & q' & Hp' & Hq' & Hc).
      replace (b - i)%nat with (S (b - S i)) in Hq' by lia.
      destruct (Nat.eq_dec a i) as [->|Hne].
      * left. rewrite Nat.sub_diag in Hp'. injection Hp' as <-.
        split; [reflexivity|]. split; [lia|]. exists q'. auto.
      * right. replace (a - i)%nat with (S (a - S i)) in Hp' by lia.
        split; [lia|]. exists p', q'. auto.
Qed.

(** X28: with the wireframe box unchecked [updateWireframe] leaves no
    connection; with it checked the connections are exactly the index
    pairs [i < j] of particles whose base positions are less than 30
    apart in the plane (the depth does not count). *)
Theorem wireframe_connections :
  forall ps,
    Editor.updateWireframe false ps = [] /\
    forall i j,
      In (i, j) (Editor.updateWireframe true ps) <->
      (i < j)%nat /\
      exists p q, nth_error ps i = Some p /\ nth_error ps j = Some q /\
                  close_by p q.
Proof.
  intro ps. split; [reflexivity|]. intros i j.
  unfold Editor.updateWireframe. simpl.
  rewrite connections_from_spec, !Nat.sub_0_r.
  split; intros [H1 H2]; (split; [lia | exact H2]).
Qed.

(* ================================================================== *)
(** ** The sphere generator                                           *)
(* ================================================================== *)

Section Sphere.

Variable random : nat -> R.

Lemma sphere_from_spec env n radius :
  forall remaining i k,
    let ps := fst (Editor.sphere_from random env n radius remaining i k) in
    length ps = remaining /\
    Forall (fun p => Editor.hasTarget p = true /\ Editor.layer p = 1) ps.
Proof.
  induction remaining as [|remaining IH]; intros i k; simpl.
  - split; [reflexivity | constructor].
  - match goal with
    | |- context [Editor.sphere_from random env n radius remaining (S i) ?k'] =>
        destruct (IH (S i) k') as (Hlen & Hall)
    end.
    split; [rewrite Hlen; reflexivity|].
    constructor; [|exact Hall].
    simpl. split; [reflexivity|].
    destruct (Req_EM_T 1 0); reflexivity.
Qed.

(** X29: [generateSphere()] replaces the particles, whatever they were,
    by exactly [numPoints] new ones, every one anchored (it does not
    drift) and on layer 1.  The saved frames, the cursor and the morph
    state are left alone. *)
Theorem sphere_particle_count :
  forall env numPoints radius s,
    length (Editor.particles
              (Editor.generateSphere random env numPoints radius s))
    = numPoints /\
    Forall (fun p => Editor.hasTarget p = true /\ Editor.layer p = 1)
      (Editor.particles
         (Editor.generateSphere random env numPoints radius s)) /\
    Editor.frames (Editor.generateSphere random env numPoints radius s)
    = Editor.frames s /\
    Editor.currentFrameIndex
      (Editor.generateSphere random env numPoints radius s)
    = Editor.currentFrameIndex s /\
    Editor.isMorphing (Editor.generateSphere random env numPoints radius s)
    = Editor.isMorphing s /\
    Editor.morphProgress (Editor.generateSphere random env numPoints radius s)
    = Editor.morphProgress s.
Proof.
  intros env n radius s. unfold Editor.generateSphere. simpl.
  destruct (sphere_from_spec env n radius n 0 (Editor.rng s))
    as (Hlen & Hall).
  split; [exact Hlen|]. split; [exact Hall|]. auto.
Qed.

End Sphere.

(* ================================================================== *)
(** ** Loading a list of points into the renderer                     *)
(* ================================================================== *)

Lemma optional_or_else p k :
  optional_field p k ->
  exists v, JS.get p k = JS.Ok v /\
            JS.or_else v (JS.VNum 0) = JS.VNum (field_num 0 p k).
Proof.
  unfold field_num. intros [H | [v H]]; rewrite H; eexists;
    (split; [reflexivity|]).
  - reflexivity.
  - unfold JS.or_else. simpl.
    destruct (Req_EM_T v 0) as [->|_]; reflexivity.
Qed.

Lemma optional_coalesce d p k :
  optional_field p k ->
  exists v, JS.get p k = JS.Ok v /\
            JS.coalesce v (JS.VNum d) = JS.VNum (field_num d p k).
Proof.
  unfold field_num. intros [H | [v H]]; rewrite H; eexists;
    (split; reflexivity).
Qed.

Lemma loadPoint_ok p :
  loadable p -> Renderer.loadPoint p = JS.Ok (point_of (read_point p)).
Proof.
  intros ([vx Hx] & [vy Hy] & Hz & Hr & Hg & Hb).
  destruct (optional_or_else p "z" Hz) as (vz & Ez & Fz).
  destruct (optional_coalesce 74 p "r" Hr) as (vr & Er & Fr).
  destruct (optional_coalesce 222 p "g" Hg) as (vg & Eg & Fg).
  destruct (optional_coalesce 128 p "b" Hb) as (vb & Eb & Fb).
  unfold Renderer.loadPoint. rewrite Hx, Hy, Ez, Er, Eg, Eb. simpl.
  rewrite Fz, Fr, Fg, Fb.
  unfold point_of, read_point, field_num. simpl. rewrite Hx, Hy.
  reflexivity.
Qed.

Lemma numeric_point_of l :
  JS.mapM Renderer.numeric (map point_of l) = JS.Ok l.
Proof.
  induction l as [|n l IH]; simpl; [reflexivity|].
  rewrite IH. destruct n; reflexivity.
Qed.

Lemma placed_total o pl nums :
  JS.mapM Renderer.numeric pl = JS.Ok nums ->
  exists ts,
    Renderer.placed o pl = JS.Ok ts /\
    map (fun t => (Renderer.nr t, Renderer.ng t, Renderer.nb t)) ts
    = map (fun n => (Renderer.nr n, Renderer.ng n, Renderer.nb n)) nums /\
    map Renderer.nz ts
    = map (fun n => Renderer.nz n * Renderer.scale o) nums.
Proof.
  intro H. unfold Renderer.placed. rewrite H. simpl.
  destruct nums as [|n0 nums'].
  - exists []. repeat split; reflexivity.
  - rewrite (mean_some (map Renderer.nx (n0 :: nums'))) by discriminate.
    rewrite (mean_some (map Renderer.ny (n0 :: nums'))) by discriminate.
    eexists. split.
    + apply mapM_total. intros a _. reflexivity.
    + rewrite !map_map. split; reflexivity.
Qed.

(** X30: [loadPoints] on point objects that carry numbers under [x] and
    [y], and a number or nothing under [z], [r], [g] and [b], replaces
    the frames by one unnamed frame and shows it: the current index is
    0 and there is one particle per point, in order, with the point's
    colour -- 74, 222, 128 for the channels it lacks -- and its depth
    times the scale, 0 when it has none. *)
Theorem loadPoints_shows_the_points :
  forall o pts s,
    Forall loadable pts ->
    exists s',
      Renderer.loadPoints o pts s = JS.Ok s' /\
      Renderer.frames s'
      = [Renderer.mkFrame JS.VUndef
           (map (fun p => point_of (read_point p)) pts)] /\
      Renderer.currentFrame s' = 0%Z /\
      map (fun q => (Renderer.r q, Renderer.g q, Renderer.b q))
          (Renderer.particles s')
      = map (fun p => (field_num 74 p "r", field_num 222 p "g",
                       field_num 128 p "b")) pts /\
      map Renderer.baseZ (Renderer.particles s')
      = map (fun p => field_num 0 p "z" * Renderer.scale o) pts.
Proof.
  intros o pts s Hall.
  assert (Hload : JS.mapM Renderer.loadPoint pts
                  = JS.Ok (map (fun p => point_of (read_point p)) pts)).
  { apply mapM_total. intros a Ha. apply loadPoint_ok.
    apply (proj1 (Forall_forall _ _) Hall a Ha). }
  assert (Hnum : JS.mapM Renderer.numeric
                   (map (fun p => point_of (read_point p)) pts)
                 = JS.Ok (map read_point pts)).
  { rewrite <- (map_map read_point point_of). apply numeric_point_of. }
  destruct (placed_total o _ _ Hnum) as (ts & Hts & Hcol & Hz).
  unfold Renderer.loadPoints. rewrite Hload. simpl.
  unfold Renderer._loadFrame. simpl. rewrite Hts. simpl.
  eexists. split; [reflexivity|]. simpl.
  split; [reflexivity|]. split; [reflexivity|].
  rewrite !map_map. simpl. rewrite !map_map in Hcol, Hz. simpl in Hcol, Hz.
  split; [exact Hcol | exact Hz].
Qed.

Lemma loadPoints_shows_the_points_witness :
  exists s',
    Renderer.loadPoints default_options page_points
      (renderer_state [] [rframeA; rframeB]) = JS.Ok s' /\
    length (Renderer.frames s') = 1%nat /\
    map (fun q => (Renderer.r q, Renderer.g q, Renderer.b q))
        (Renderer.particles s')
    = [(1, 2, 3); (74, 222, 128)].
Proof.
  destruct (loadPoints_shows_the_points default_options page_points
              (renderer_state [] [rframeA; rframeB]))
    as (s' & Hs & Hf & _ & Hc & _).
  - unfold page_points.
    repeat (apply Forall_cons || apply Forall_nil);
      unfold loadable, optional_field, num_field; simpl;
      repeat split;
      first [ eexists; reflexivity
            | right; eexists; reflexivity
            | left; reflexivity ].
  - exists s'. split; [exact Hs|]. split; [rewrite Hf; reflexivity|].
    rewrite Hc. reflexivity.
Defined.
